(** * Flowstate path engine: the commit worklet and the drag-session controller

    Shallow embedding of [src/unnamed/part_000] (the module imported as
    [@/game/dragCommitWorklet]: [commitDragWorklet] and its helpers) and of the
    path-state part of [src/game/gestureController.ts] ([startDragSession],
    [buildPickupPath], [updateDragSession]).

    Modelling choices.
    - A [Cell] record has integer coordinates [x], [y] (JS numbers that are
      always integers here).  [cellKey x y] is the string [`${x},${y}`]; on
      integers this encoding is injective, so a key is represented by the pair
      of coordinates.  Maps keyed by cell keys that the caller supplies
      ([dotColorByKey], [areaByKey], [openSetByKey]) are lookup functions
      ([None] is [undefined]); the [Record<string, true>] sets the code builds
      itself are lists of keys with membership.
    - The Path Store is a JS object [Record<string, Segment[]>] whose arrays are
      mutated in place ([splice], [delete]).  It lives in an explicit heap:
      an object cell holds its entries (key, array location) in insertion
      order, an array cell holds its segments.  Segments and cells are never
      mutated by the code, so they are values.  Color keys are assumed not to
      be array indices, so JS enumerates them in insertion order.
    - Counters and the id seed are integers ([Z]); pointer coordinates and
      the cell size are rationals ([Q]).  Arithmetic in [Q] is exact where
      the doubles of the code round, so the pointer properties stated here
      are about comparisons, [Math.min] / [Math.max] and the order of the
      values, which rounding to the nearest double preserves. *)

From stdpp Require Import base list strings pretty decidable gmap.
From Stdlib Require Import ZArith QArith Qround Qminmax Qabs Lia Lqa.

Open Scope Z_scope.

(** ** Data model ([src/game/dragTypes.ts]) *)

Record Cell := mkCell { x : Z ; y : Z }.

Definition Key := (Z * Z)%type.

(** [cellKey x y = `${x},${y}`], an injective encoding on integers. *)
Definition cellKey (cx cy : Z) : Key := (cx, cy).

Record Segment := mkSegment { id : string ; cells : list Cell }.

Inductive Axis := AxisX | AxisY.

Record DragPreviewSession := mkSession {
  color : string ;
  path : list Cell ;
  axis : option Axis ;
  locked : bool ;
  hasMoved : bool
}.

Definition DotColorByKey := Key -> option string.
Definition AreaByKey := Key -> option Z.
Definition OpenSetByKey := Key -> bool.

(** A [Record<string, true>] built by the code. *)
Definition KeySet := list Key.

Definition key_eqb (k1 k2 : Key) : bool := bool_decide (k1 = k2).

Definition key_mem (k : Key) (ks : KeySet) : bool := existsb (key_eqb k) ks.

(** JS truthiness of a [string | undefined]: the empty string is falsy. *)
Definition truthy (o : option string) : bool :=
  match o with
  | Some s => negb (String.eqb s EmptyString)
  | None => false
  end.

(** [o === s] for [o : string | undefined] and [s : string]. *)
Definition str_is (o : option string) (s : string) : bool :=
  match o with Some s' => String.eqb s' s | None => false end.

(** ** The heap *)

Abbreviation loc := nat (only parsing).

Inductive hval :=
  | HObj (entries : list (string * loc))
  | HArr (segments : list Segment).

Record heap := mkHeap { mem : gmap loc hval ; top : loc }.

(** A state and error monad over the heap; [None] is a thrown [TypeError]. *)
Definition M (A : Type) : Type := heap -> option (A * heap).

Global Instance M_ret : MRet M := fun A a h => Some (a, h).
Global Instance M_bind : MBind M := fun A B f m h =>
  match m h with Some (a, h') => f a h' | None => None end.

Definition fail {A} : M A := fun _ => None.

Definition ret {A} (a : A) : M A := mret a.

Definition alloc (v : hval) : M loc := fun h =>
  Some (top h, mkHeap (<[top h := v]> (mem h)) (S (top h))).

Definition load (l : loc) : M hval := fun h =>
  match mem h !! l with Some v => Some (v, h) | None => None end.

Definition store (l : loc) (v : hval) : M unit := fun h =>
  match mem h !! l with
  | Some _ => Some (tt, mkHeap (<[l := v]> (mem h)) (top h))
  | None => None
  end.

Definition obj_entries (o : loc) : M (list (string * loc)) :=
  v ← load o; match v with HObj es => ret es | HArr _ => fail end.

Definition arr_get (a : loc) : M (list Segment) :=
  v ← load a; match v with HArr s => ret s | HObj _ => fail end.

Fixpoint assoc_get (k : string) (es : list (string * loc)) : option loc :=
  match es with
  | [] => None
  | (k', a) :: es' => if String.eqb k' k then Some a else assoc_get k es'
  end.

(** [obj[k] = a]: an existing key keeps its position, a new key is appended. *)
Fixpoint assoc_set (k : string) (a : loc) (es : list (string * loc)) : list (string * loc) :=
  match es with
  | [] => [(k, a)]
  | (k', a') :: es' => if String.eqb k' k then (k', a) :: es' else (k', a') :: assoc_set k a es'
  end.

Definition assoc_del (k : string) (es : list (string * loc)) : list (string * loc) :=
  List.filter (fun e => negb (String.eqb e.1 k)) es.

(** [obj[k]] *)
Definition obj_get (o : loc) (k : string) : M (option loc) :=
  es ← obj_entries o; ret (assoc_get k es).

Definition obj_set (o : loc) (k : string) (a : loc) : M unit :=
  es ← obj_entries o; store o (HObj (assoc_set k a es)).

Definition obj_delete (o : loc) (k : string) : M unit :=
  es ← obj_entries o; store o (HObj (assoc_del k es)).

(** [arr.splice(i, 1)] *)
Fixpoint splice1 {A} (i : nat) (l : list A) : list A :=
  match l, i with
  | [], _ => []
  | _ :: l', O => l'
  | a :: l', S i' => a :: splice1 i' l'
  end.

(** [for (let index = n - 1; index >= 0; index -= 1)] threading a flag. *)
Fixpoint for_down (n : nat) (acc : bool) (body : nat -> bool -> M bool) : M bool :=
  match n with
  | O => ret acc
  | S m => acc' ← body m acc; for_down m acc' body
  end.

(** [for (const k in obj)] over the keys present when the loop starts. *)
Fixpoint for_keys (ks : list string) (acc : bool) (body : string -> bool -> M bool) : M bool :=
  match ks with
  | [] => ret acc
  | k :: ks' => acc' ← body k acc; for_keys ks' acc' body
  end.

Fixpoint forM_ {A} (xs : list A) (body : A -> M unit) : M unit :=
  match xs with
  | [] => ret tt
  | a :: xs' => body a ;; forM_ xs' body
  end.

(** ** [src/unnamed/part_000]: the commit worklet *)

Module DragCommit.

Record CommitResult := mkResult {
  paths : loc ;
  didChange : bool ;
  nextSegmentId : Z
}.

Definition copyCell (c : Cell) : Cell := mkCell (x c) (y c).

Definition copySegment (s : Segment) : Segment := mkSegment (id s) (map copyCell (cells s)).

(** The body of [clonePaths]'s loop for one color. *)
Definition clone_color (source next : loc) (color : string) : M unit :=
  o ← obj_get source color;
  match o with
  | None => ret tt
  | Some a =>
      segments ← arr_get a;
      match segments with
      | [] => ret tt
      | _ =>
          nextSegments ← alloc (HArr (map copySegment segments));
          obj_set next color nextSegments
      end
  end.

(** [clonePaths] *)
Definition clonePaths (source : loc) : M loc :=
  es ← obj_entries source;
  next ← alloc (HObj []);
  forM_ (map fst es) (clone_color source next) ;;
  ret next.

(** [removeSegment] *)
Definition removeSegment (source : loc) (color : string) (segmentIndex : nat) : M unit :=
  o ← obj_get source color;
  match o with
  | None => ret tt
  | Some a =>
      segments ← arr_get a;
      let segments' := splice1 segmentIndex segments in
      store a (HArr segments') ;;
      match segments' with
      | [] => obj_delete source color
      | _ => ret tt
      end
  end.

(** The backward sweep shared by the four removal functions: over the
    segments of [color] (array [a]), from the last index down to 0,
    [removeSegment] every segment satisfying [hit]. *)
Definition sweep_body (source : loc) (color : string) (a : loc) (hit : Segment -> bool)
    (index : nat) (removed : bool) : M bool :=
  segments ← arr_get a;
  match segments !! index with
  | None => fail
  | Some segment =>
      if hit segment then removeSegment source color index ;; ret true
      else ret removed
  end.

(** One color of a removal loop: [const segments = source[color];
    if (!segments || !segments.length) continue;] then the backward sweep. *)
Definition sweep_color (source : loc) (hit : Segment -> bool) (color : string)
    (removed : bool) : M bool :=
  o ← obj_get source color;
  match o with
  | None => ret removed
  | Some a =>
      segments ← arr_get a;
      match segments with
      | [] => ret removed
      | _ => for_down (length segments) removed (sweep_body source color a hit)
      end
  end.

(** [for (const color in source)] around [sweep_color]. *)
Definition sweep_all (source : loc) (hit : Segment -> bool) : M bool :=
  es ← obj_entries source;
  for_keys (map fst es) false (sweep_color source hit).

(** The three endpoint tests: [if (!segment.cells.length) continue;] and the
    [first]/[last] cells. *)
Definition endpoint_test (test : Key -> bool) (segment : Segment) : bool :=
  match cells segment with
  | [] => false
  | first :: _ =>
      let last := List.last (cells segment) first in
      test (cellKey (x first) (y first)) || test (cellKey (x last) (y last))
  end.

Definition intersects (keys : KeySet) (segment : Segment) : bool :=
  existsb (fun cell => key_mem (cellKey (x cell) (y cell)) keys) (cells segment).

(** [removeSegmentsIntersecting] *)
Definition removeSegmentsIntersecting (source : loc) (keys : KeySet) : M bool :=
  sweep_all source (intersects keys).

(** [removeSegmentsWithEndpoints] *)
Definition removeSegmentsWithEndpoints (source : loc) (keys : KeySet) : M bool :=
  sweep_all source (endpoint_test (fun k => key_mem k keys)).

(** [removeSegmentsAtEndpoint] *)
Definition removeSegmentsAtEndpoint (source : loc) (endpointKey : Key) : M bool :=
  sweep_all source (endpoint_test (fun k => key_eqb k endpointKey)).

Definition in_area (areaByKey : AreaByKey) (areaId : Z) (k : Key) : bool :=
  bool_decide (areaByKey k = Some areaId).

(** [removeSegmentsWithColorInArea]: one color, [return false] when it has
    no segments. *)
Definition removeSegmentsWithColorInArea (source : loc) (color : string) (areaId : Z)
    (areaByKey : AreaByKey) : M bool :=
  sweep_color source (endpoint_test (in_area areaByKey areaId)) color false.

(** [`segment-${idSeed}-${nextSegmentId}`] *)
Definition segmentIdOf (idSeed n : Z) : string :=
  "segment-" +:+ pretty idSeed +:+ "-" +:+ pretty n.

Definition keyOf (c : Cell) : Key := cellKey (x c) (y c).

(** The [endArea !== startArea] test on [number | undefined]. *)
Definition opt_Z_eqb (a b : option Z) : bool := bool_decide (a = b).

(** [const existing = next[color] ?? []; next[color] = [...existing, segment];] *)
Definition appendSegment (next : loc) (color : string) (segment : Segment) : M unit :=
  o ← obj_get next color;
  existing ← (match o with Some a => arr_get a | None => ret [] end);
  arr ← alloc (HArr (existing ++ [segment]));
  obj_set next color arr.

(** [commitDragWorklet] *)
Definition commitDragWorklet (paths0 : loc) (session : DragPreviewSession)
    (dotColorByKey : DotColorByKey) (areaByKey : AreaByKey) (idSeed nextSegmentId0 : Z)
    : M CommitResult :=
  match path session with
  | [] => ret (mkResult paths0 false nextSegmentId0)
  | start :: _ =>
      next ← clonePaths paths0;
      let pathKeys := map keyOf (path session) in
      let startKey := keyOf start in
      let end_ := List.last (path session) start in
      let endKey := keyOf end_ in
      let endpointKeys :=
        (if truthy (dotColorByKey startKey) then [startKey] else []) ++
        (if truthy (dotColorByKey endKey) then [endKey] else []) in
      let hasEndpointKeys := key_mem startKey endpointKeys || key_mem endKey endpointKeys in
      let isTap := Nat.eqb (length (path session)) 1 && negb (hasMoved session) in
      if isTap then
        changed ← (if truthy (dotColorByKey startKey)
                   then removeSegmentsAtEndpoint next startKey else ret false);
        ret (mkResult (if (changed : bool) then next else paths0) changed nextSegmentId0)
      else if Nat.eqb (length (path session)) 1 then
        ret (mkResult paths0 false nextSegmentId0)
      else
        let startArea :=
          if str_is (dotColorByKey startKey) (color session) then areaByKey startKey else None in
        changed1 ← (match startArea with
                    | Some a => r ← removeSegmentsWithColorInArea next (color session) a areaByKey;
                                ret (r || false)
                    | None => ret false
                    end);
        let endArea :=
          if str_is (dotColorByKey endKey) (color session) then areaByKey endKey else None in
        changed2 ← (match endArea with
                    | Some a =>
                        if negb (opt_Z_eqb endArea startArea) then
                          r ← removeSegmentsWithColorInArea next (color session) a areaByKey;
                          ret (r || changed1)
                        else ret changed1
                    | None => ret changed1
                    end);
        changed3 ← (if hasEndpointKeys then
                      r ← removeSegmentsWithEndpoints next endpointKeys; ret (r || changed2)
                    else ret changed2);
        r4 ← removeSegmentsIntersecting next pathKeys;
        let _changed4 := r4 || changed3 in
        let segmentId := segmentIdOf idSeed nextSegmentId0 in
        let nextSegmentId1 := nextSegmentId0 + 1 in
        let cells' := map copyCell (path session) in
        let segment := mkSegment segmentId cells' in
        appendSegment next (color session) segment ;;
        ret (mkResult next true nextSegmentId1)
  end.

End DragCommit.

(** ** [src/game/gestureController.ts]: the drag session *)

Module GestureController.

(** [clonePaths] of the controller is textually the one of the worklet. *)
Definition clonePaths : loc -> M loc := DragCommit.clonePaths.

(** The splice loop of the controller's two removal helpers:
    [for (segIndex = segments.length - 1; ...) if (...) segments.splice(segIndex, 1)]
    followed by [if (!segments.length) delete next[color]]. *)
Definition splice_body (a : loc) (hit : Segment -> bool) (segIndex : nat) (removed : bool)
    : M bool :=
  segments ← arr_get a;
  match segments !! segIndex with
  | None => fail
  | Some segment =>
      if hit segment then store a (HArr (splice1 segIndex segments)) ;; ret true
      else ret removed
  end.

Definition splice_color (next : loc) (hit : Segment -> bool) (color : string)
    (removed : bool) : M bool :=
  o ← obj_get next color;
  match o with
  | None => ret removed
  | Some a =>
      segments ← arr_get a;
      match segments with
      | [] => ret removed
      | _ =>
          removed' ← for_down (length segments) removed (splice_body a hit);
          segments' ← arr_get a;
          (match segments' with [] => obj_delete next color | _ => ret tt end) ;;
          ret removed'
      end
  end.

(** [removeSegmentsWithEndpoint(paths, endpointKey, clone)] *)
Definition removeSegmentsWithEndpoint (paths0 : loc) (endpointKey : Key) (clone : bool)
    : M (loc * bool) :=
  next ← (if clone then clonePaths paths0 else ret paths0);
  es ← obj_entries next;
  removed ← for_keys (map fst es) false
              (splice_color next (DragCommit.endpoint_test (fun k => key_eqb k endpointKey)));
  ret (next, removed).

(** [removeSegmentsWithColorInArea(paths, color, areaId, areaByKey, clone)] *)
Definition removeSegmentsWithColorInArea (paths0 : loc) (color : string) (areaId : Z)
    (areaByKey : AreaByKey) (clone : bool) : M (loc * bool) :=
  next ← (if clone then clonePaths paths0 else ret paths0);
  removed ← splice_color next
              (DragCommit.endpoint_test (DragCommit.in_area areaByKey areaId)) color false;
  ret (next, removed).

Definition same_cell (c : Cell) (px py : Z) : bool := bool_decide (x c = px /\ y c = py).

Fixpoint find_cell (cs : list Cell) (px py : Z) (cellIndex : nat) : option nat :=
  match cs with
  | [] => None
  | c :: cs' => if same_cell c px py then Some cellIndex else find_cell cs' px py (S cellIndex)
  end.

Fixpoint find_in_segments (segments : list Segment) (px py : Z) : option (Segment * nat) :=
  match segments with
  | [] => None
  | s :: ss =>
      match find_cell (cells s) px py 0 with
      | Some i => Some (s, i)
      | None => find_in_segments ss px py
      end
  end.

(** [findSegmentAt]: [Object.entries(paths)] in order, first matching cell. *)
Fixpoint find_in_entries (es : list (string * loc)) (px py : Z)
    : M (option (string * Segment * nat)) :=
  match es with
  | [] => ret None
  | (color, a) :: es' =>
      segments ← arr_get a;
      match find_in_segments segments px py with
      | Some (s, i) => ret (Some (color, s, i))
      | None => find_in_entries es' px py
      end
  end.

Definition findSegmentAt (paths0 : loc) (px py : Z) : M (option (string * Segment * nat)) :=
  es ← obj_entries paths0; find_in_entries es px py.

(** [buildPickupPath]; the segment always contains the picked cell, so
    [cells] is not empty. *)
Definition buildPickupPath (segment : Segment) (index : nat) (color : string)
    (dotColors : DotColorByKey) : list Cell :=
  match cells segment with
  | [] => []
  | leftEnd :: _ =>
      let cs := cells segment in
      let leftLen := (index + 1)%nat in
      let rightLen := (length cs - index)%nat in
      let rightEnd := List.last cs leftEnd in
      let leftDot := str_is (dotColors (cellKey (x leftEnd) (y leftEnd))) color in
      let rightDot := str_is (dotColors (cellKey (x rightEnd) (y rightEnd))) color in
      let useLeft :=
        if leftDot && negb rightDot then true
        else if rightDot && negb leftDot then false
        else Nat.leb rightLen leftLen in
      let slice := if useLeft then firstn (index + 1) cs else rev (skipn index cs) in
      map (fun c => mkCell (x c) (y c)) slice
  end.

(** The shared values written by [startDragSession]. *)
Record Shared := mkShared { pathsShared : loc ; pathsMutated : Z }.

(** [startDragSession(startCell)] with the read-only shared maps
    [openSetByKey.value], [dotColorByKey.value], [areaByKey.value].  The
    [runOnJS(onPathsMutated)] notification is a message to the JS thread and
    is not modelled. *)
Definition startDragSession (openSet : OpenSetByKey) (dotColors : DotColorByKey)
    (areaByKey : AreaByKey) (sh : Shared) (startCell : Cell)
    : M (option DragPreviewSession * Shared) :=
  let key := cellKey (x startCell) (y startCell) in
  if negb (openSet key) then ret (None, sh) else
  let dotColor := dotColors key in
  '(paths1, sh1) ←
    (match dotColor with
     | Some d =>
         if truthy dotColor then
           endpointRemoval ← removeSegmentsWithEndpoint (pathsShared sh) key true;
           let '(nextPaths, removed) :=
             if (endpointRemoval : loc * bool).2 then (endpointRemoval.1, true) else (pathsShared sh, false) in
           '(nextPaths', removed') ←
             (match areaByKey key with
              | Some areaId =>
                  areaRemoval ← removeSegmentsWithColorInArea nextPaths d areaId areaByKey
                                  (negb removed);
                  ret (if (areaRemoval : loc * bool).2 then (areaRemoval.1, true) else (nextPaths, removed))
              | None => ret (nextPaths, removed)
              end);
           ret (if (removed' : bool) then (nextPaths', mkShared nextPaths' 1)
                else (pathsShared sh, sh))
         else ret (pathsShared sh, sh)
     | None => ret (pathsShared sh, sh)
     end);
  segmentHit ← findSegmentAt paths1 (x startCell) (y startCell);
  let color_ :=
    match dotColor with
    | Some d => Some d
    | None => option_map (fun hit => hit.1.1) segmentHit
    end in
  if negb (truthy color_) then ret (None, sh1) else
  let c := default EmptyString color_ in
  let path0 :=
    match segmentHit with
    | Some (hc, s, i) =>
        if String.eqb hc c then buildPickupPath s i c dotColors
        else [mkCell (x startCell) (y startCell)]
    | None => [mkCell (x startCell) (y startCell)]
    end in
  ret (Some (mkSession c path0 None false false), sh1).

(** ** [updateDragSession]: the discrete part of the update

    The rendering tip ([computeTip]) is pure geometry returned next to the
    session and is not modelled; everything that decides the session's path,
    axis and flags is. *)

Record OpenBounds := mkBounds { minX : Z ; minY : Z ; maxX : Z ; maxY : Z }.

(** [clampNumber] on pixel coordinates and on cell coordinates. *)
Definition clampQ (v lo hi : Q) : Q := Qmin hi (Qmax lo v).
Definition clampZ (v lo hi : Z) : Z := Z.min hi (Z.max lo v).

Definition cellCenter (c : Cell) (cellSize : Q) : Q * Q :=
  (inject_Z (x c) * cellSize + cellSize / 2, inject_Z (y c) * cellSize + cellSize / 2)%Q.

Definition same_xy (c1 c2 : Cell) : bool := bool_decide (x c1 = x c2 /\ y c1 = y c2).

(** [resolveAxis] *)
Definition resolveAxis (axis0 : option Axis) (deltaX deltaY : Q) (last pointerCell : Cell)
    (pointerInOpen : bool) : option Axis :=
  let absX := Qabs deltaX in
  let absY := Qabs deltaY in
  let candidateCell := if pointerInOpen then pointerCell else last in
  match axis0 with
  | None =>
      if same_xy candidateCell last then None
      else if negb (Z.eqb (x candidateCell) (x last)) && negb (Z.eqb (y candidateCell) (y last))
      then (if Qle_bool absY absX then Some AxisX else Some AxisY)
      else if negb (Z.eqb (x candidateCell) (x last)) then Some AxisX else Some AxisY
  | Some AxisX =>
      if negb (Z.eqb (y candidateCell) (y last)) then
        (if Z.eqb (x candidateCell) (x last) || Qle_bool absX absY then Some AxisY else Some AxisX)
      else Some AxisX
  | Some AxisY =>
      if negb (Z.eqb (x candidateCell) (x last)) then
        (if Z.eqb (y candidateCell) (y last) || Qle_bool absY absX then Some AxisX else Some AxisY)
      else Some AxisY
  end.

(** The variables of the stepping loop. *)
Record LoopState := mkLoop {
  lpath : list Cell ;
  llocked : bool ;
  lhasMoved : bool ;
  lpathChanged : bool ;
  guard : Z
}.

Inductive Flow := Continue (st : LoopState) | Break (st : LoopState).

Fixpoint findIndex (cs : list Cell) (c : Cell) : option nat :=
  match cs with
  | [] => None
  | c' :: cs' => if same_xy c' c then Some O else option_map S (findIndex cs' c)
  end.

(** [path[path.length - 1]]; the loop keeps the path non-empty. *)
Definition lastCell (p : list Cell) : Cell := List.last p (mkCell 0 0).

(** [path[path.length - 2]], [undefined] on a one-cell path. *)
Definition prevCell (p : list Cell) : option Cell :=
  if Nat.leb 2 (length p) then nth_error p (length p - 2) else None.

Definition coord (ax : Axis) (c : Cell) : Z := match ax with AxisX => x c | AxisY => y c end.

(** [const next = axis === 'x' ? { x: current.x + stepDir, y: current.y }
                               : { x: current.x, y: current.y + stepDir }] *)
Definition stepCell (ax : Axis) (current : Cell) (stepDir : Z) : Cell :=
  match ax with
  | AxisX => mkCell (x current + stepDir) (y current)
  | AxisY => mkCell (x current) (y current + stepDir)
  end.

(** One iteration of the [while (guard < 256)] body. *)
Definition step_body (openSet : OpenSetByKey) (dotColors : DotColorByKey)
    (sessionColor : string) (ax : Axis) (targetCoord : Z) (st : LoopState) : Flow :=
  let guard' := guard st + 1 in
  let p := lpath st in
  let current := lastCell p in
  let diff := targetCoord - coord ax current in
  if Z.eqb diff 0 then Break (mkLoop p (llocked st) (lhasMoved st) (lpathChanged st) guard') else
  let stepDir := Z.sgn diff in
  let next := stepCell ax current stepDir in
  let isBacktrack := match prevCell p with Some prev => same_xy prev next | None => false end in
  if isBacktrack then Continue (mkLoop (removelast p) false (lhasMoved st) true guard') else
  if llocked st then Break (mkLoop p (llocked st) (lhasMoved st) (lpathChanged st) guard') else
  let nextKey := cellKey (x next) (y next) in
  if negb (openSet nextKey) then Break (mkLoop p (llocked st) (lhasMoved st) (lpathChanged st) guard') else
  match findIndex p next with
  | Some existingIndex =>
      Break (mkLoop (firstn (existingIndex + 1) p) false (lhasMoved st) true guard')
  | None =>
      let dotColor := dotColors nextKey in
      if truthy dotColor && negb (str_is dotColor sessionColor)
      then Break (mkLoop p (llocked st) (lhasMoved st) (lpathChanged st) guard') else
      let p' := p ++ [mkCell (x next) (y next)] in
      if truthy dotColor && str_is dotColor sessionColor
      then Break (mkLoop p' true true true guard')
      else Continue (mkLoop p' (llocked st) true true guard')
  end.

(** [while (guard < 256) { guard += 1; ... }]; [fuel] is never the binding
    bound when the loop starts at [guard = 0] with [fuel = 256]. *)
Fixpoint step_loop (fuel : nat) (openSet : OpenSetByKey) (dotColors : DotColorByKey)
    (sessionColor : string) (ax : Axis) (targetCoord : Z) (st : LoopState) : LoopState :=
  match fuel with
  | O => st
  | S fuel' =>
      if Z.ltb (guard st) 256 then
        match step_body openSet dotColors sessionColor ax targetCoord st with
        | Continue st' => step_loop fuel' openSet dotColors sessionColor ax targetCoord st'
        | Break st' => st'
        end
      else st
  end.

Record UpdateResult := mkUpdate { usession : DragPreviewSession ; pathChanged : bool }.

(** The stepping of one update: the resolved axis and the final loop state. *)
Definition update_stepping (fitCellSize : Q) (openBounds : OpenBounds)
    (openSet : OpenSetByKey) (dotColors : DotColorByKey)
    (session : DragPreviewSession) (localX localY : Q) : option Axis * LoopState * (Q * Q) :=
  let size := if negb (Qle_bool fitCellSize 0) then fitCellSize else 1%Q in
  let p := path session in
  let last := lastCell p in
  let anchor := cellCenter last size in
  let minX' := (inject_Z (minX openBounds) * size)%Q in
  let maxX' := (inject_Z (maxX openBounds + 1) * size)%Q in
  let minY' := (inject_Z (minY openBounds) * size)%Q in
  let maxY' := (inject_Z (maxY openBounds + 1) * size)%Q in
  let clampedX := clampQ localX minX' maxX' in
  let clampedY := clampQ localY minY' maxY' in
  let pointerCell :=
    mkCell (clampZ (Qfloor (clampedX / size)) (minX openBounds) (maxX openBounds))
           (clampZ (Qfloor (clampedY / size)) (minY openBounds) (maxY openBounds)) in
  let pointerKey := cellKey (x pointerCell) (y pointerCell) in
  let pointerInOpen := openSet pointerKey in
  let deltaX := (clampedX - anchor.1)%Q in
  let deltaY := (clampedY - anchor.2)%Q in
  let ax := resolveAxis (axis session) deltaX deltaY last pointerCell pointerInOpen in
  let st0 := mkLoop p (locked session) (hasMoved session) false 0 in
  let st := match ax with
            | Some a =>
                let targetCoord := coord a pointerCell in
                step_loop 256 openSet dotColors (color session) a targetCoord st0
            | None => st0
            end in
  (ax, st, (deltaX, deltaY)).

(** [updateDragSession(session, localX, localY)] without the tip. *)
Definition updateDragSession (fitCellSize : Q) (openBounds : OpenBounds)
    (openSet : OpenSetByKey) (dotColors : DotColorByKey)
    (session : DragPreviewSession) (localX localY : Q) : UpdateResult :=
  match path session with
  | [] => mkUpdate session false
  | _ =>
      let '(ax, st, _) := update_stepping fitCellSize openBounds openSet dotColors session localX localY in
      let p := lpath st in
      let lc := lastCell p in
      let lastDot := dotColors (cellKey (x lc) (y lc)) in
      let locked' :=
        if negb (truthy lastDot) || negb (str_is lastDot (color session)) || Nat.eqb (length p) 1
        then false else llocked st in
      let axis' := if Nat.leb (length p) 1 then None else ax in
      mkUpdate (mkSession (color session) p axis' locked' (lhasMoved st)) (lpathChanged st)
  end.

End GestureController.

(** ** The Path Store as a value *)

Module StoreValue.

(** The value of a Path Store: colors in key order with their segments. *)
Definition PathsV := list (string * list Segment).

Fixpoint read_entries (m : gmap loc hval) (es : list (string * loc)) : option PathsV :=
  match es with
  | [] => Some []
  | (k, a) :: es' =>
      match m !! a, read_entries m es' with
      | Some (HArr s), Some V => Some ((k, s) :: V)
      | _, _ => None
      end
  end.

(** The value of the Path Store object at [o]. *)
Definition read (h : heap) (o : loc) : option PathsV :=
  match mem h !! o with
  | Some (HObj es) => read_entries (mem h) es
  | _ => None
  end.

Fixpoint vget (c : string) (V : PathsV) : option (list Segment) :=
  match V with
  | [] => None
  | (k, s) :: V' => if String.eqb k c then Some s else vget c V'
  end.

Definition vset (c : string) (s : list Segment) (V : PathsV) : PathsV :=
  map (fun e => if String.eqb e.1 c then (e.1, s) else e) V.

Definition vdel (c : string) (V : PathsV) : PathsV :=
  List.filter (fun e => negb (String.eqb e.1 c)) V.

(** The per-color effect of a backward removal sweep, with its flag. *)
Definition v_sweep_color (hit : Segment -> bool) (c : string) (Vr : PathsV * bool)
    : PathsV * bool :=
  let '(V, removed) := Vr in
  match vget c V with
  | None | Some [] => (V, removed)
  | Some s =>
      let s' := List.filter (fun sg => negb (hit sg)) s in
      ((match s' with [] => vdel c V | _ => vset c s' V end), removed || existsb hit s)
  end.

(** A well-formed JS object: no key twice. *)
Definition keys_nodup (V : PathsV) : Prop := NoDup (map fst V).

(** Canonical form: no color maps to an empty list. *)
Definition canonical (V : PathsV) : Prop :=
  keys_nodup V /\ Forall (fun e => e.2 <> []) V.

(** Segments of one color sharing a cell. *)
Definition share_cell (s1 s2 : Segment) : Prop :=
  exists c, c ∈ cells s1 /\ c ∈ cells s2.

(** Two segments of a list at different positions share no cell. *)
Definition segments_disjoint (segs : list Segment) : Prop :=
  forall i j s1 s2, i <> j -> segs !! i = Some s1 -> segs !! j = Some s2 -> ~ share_cell s1 s2.

(** No self-overlap: within each color, two segments at different positions
    share no cell. *)
Definition no_self_overlap (V : PathsV) : Prop :=
  forall c segs, vget c V = Some segs -> segments_disjoint segs.

(** The same for every entry of the store, duplicated keys included. *)
Definition all_disjoint (V : PathsV) : Prop :=
  forall c segs, (c, segs) ∈ V -> segments_disjoint segs.

(** Heap discipline: every location at or above [top] is free. *)
Definition heap_wf (h : heap) : Prop := forall l, (top h <= l)%nat -> mem h !! l = None.

(** A Path Store object whose key list is that of a JS object. *)
Definition store_at (h : heap) (o : loc) (V : PathsV) : Prop :=
  exists es, mem h !! o = Some (HObj es) /\ NoDup (map fst es) /\ read_entries (mem h) es = Some V.

(** The object at [o] and every array it holds were allocated at or above
    [t], its keys and its arrays are pairwise distinct. *)
Definition owned (t : loc) (h : heap) (o : loc) (es : list (string * loc)) : Prop :=
  (t <= o)%nat /\ mem h !! o = Some (HObj es) /\ NoDup (map fst es) /\ NoDup (map snd es) /\
  Forall (fun e => (t <= e.2)%nat) es.

(** [h'] agrees with [h] below [t], allocates nothing new and frees nothing. *)
Definition frame (t : loc) (h h' : heap) : Prop :=
  (forall l, (l < t)%nat -> mem h' !! l = mem h !! l) /\
  (forall l, mem h !! l = None -> mem h' !! l = None) /\ top h' = top h.

Definition v_sweep_keys (hit : Segment -> bool) (ks : list string) (Vr : PathsV * bool)
    : PathsV * bool :=
  fold_left (fun Vr k => v_sweep_color hit k Vr) ks Vr.

Definition v_sweep_all (hit : Segment -> bool) (V : PathsV) : PathsV * bool :=
  v_sweep_keys hit (map fst V) (V, false).

End StoreValue.

(** ** The commit engine as the spec describes it *)

Module CommitSpec.
Import StoreValue.

(** "clone": a copy that drops colors with no segments. *)
Definition clone (V : PathsV) : PathsV := List.filter (fun e => negb (bool_decide (e.2 = []))) V.

(** Remove every segment satisfying [p] (given its color), then drop the
    colors left with no segments. *)
Definition remove_where (p : string -> Segment -> bool) (V : PathsV) : PathsV :=
  List.filter (fun e => negb (bool_decide (e.2 = [])))
    (map (fun e => (e.1, List.filter (fun sg => negb (p e.1 sg)) e.2)) V).

(** "Append it to the color's list". *)
Definition append_segment (c : string) (sg : Segment) (V : PathsV) : PathsV :=
  match vget c V with
  | Some s => vset c (s ++ [sg]) V
  | None => V ++ [(c, [sg])]
  end.

Definition first_cell (sg : Segment) : option Cell := head (cells sg).
Definition last_cell (sg : Segment) : option Cell := last (cells sg).

(** The first or the last cell of the segment satisfies [P]. *)
Definition terminates_where (P : Cell -> bool) (sg : Segment) : bool :=
  match first_cell sg, last_cell sg with
  | Some f, Some l => P f || P l
  | _, _ => false
  end.

Definition same_cell (c1 c2 : Cell) : bool := bool_decide (x c1 = x c2 /\ y c1 = y c2).

(** The segment contains a cell of [p]. *)
Definition meets (p : list Cell) (sg : Segment) : bool :=
  existsb (fun c => existsb (same_cell c) p) (cells sg).

(** Commit of a path of two or more cells, step by step as the spec lists
    them: the start area, the end area if different, the dot endpoints, the
    cells of the path, then the new segment. *)
Definition commit_path (V : PathsV) (session : DragPreviewSession)
    (dotColorByKey : DotColorByKey) (areaByKey : AreaByKey) (idSeed n : Z) : PathsV :=
  let p := path session in
  let col := color session in
  let start := head p in
  let end_ := last p in
  let keyOf c := cellKey (x c) (y c) in
  let dot_of_color oc := match oc with Some c => bool_decide (dotColorByKey (keyOf c) = Some col) | None => false end in
  let is_dot oc := match oc with Some c => truthy (dotColorByKey (keyOf c)) | None => false end in
  let area_of oc := match oc with Some c => areaByKey (keyOf c) | None => None end in
  let startArea := if dot_of_color start then area_of start else None in
  let endArea := if dot_of_color end_ then area_of end_ else None in
  let in_area a c := bool_decide (areaByKey (keyOf c) = Some a) in
  let V0 := clone V in
  let V1 := match startArea with
            | Some a => remove_where (fun c sg => String.eqb c col && terminates_where (in_area a) sg) V0
            | None => V0
            end in
  let V2 := match endArea with
            | Some a =>
                if bool_decide (endArea = startArea) then V1
                else remove_where (fun c sg => String.eqb c col && terminates_where (in_area a) sg) V1
            | None => V1
            end in
  let dotEnds := List.filter (fun c => is_dot (Some c)) (option_list start ++ option_list end_) in
  let V3 := match dotEnds with
            | [] => V2
            | _ => remove_where (fun _ sg => terminates_where (fun c => existsb (same_cell c) dotEnds) sg) V2
            end in
  let V4 := remove_where (fun _ sg => meets p sg) V3 in
  append_segment col (mkSegment (DragCommit.segmentIdOf idSeed n) p) V4.

(** A segment whose first or last cell is [c]. *)
Definition ends_at (c : Cell) (sg : Segment) : bool :=
  terminates_where (fun c' => same_cell c' c) sg.

(** Commit as the spec describes its cases: the new Path Store, [didChange]
    and the next counter.  An empty path and a one-cell drag are no-ops; a
    tap on a dot deletes the segments ending there; a longer path is
    [commit_path]. *)
Definition commit_value (V : PathsV) (session : DragPreviewSession)
    (dotColorByKey : DotColorByKey) (areaByKey : AreaByKey) (idSeed n : Z)
    : PathsV * bool * Z :=
  match path session with
  | [] => (V, false, n)
  | [c] =>
      if hasMoved session then (V, false, n)
      else if truthy (dotColorByKey (cellKey (x c) (y c))) then
        let removed := existsb (fun e => existsb (ends_at c) e.2) V in
        (if removed then remove_where (fun _ sg => ends_at c sg) V else V, removed, n)
      else (V, false, n)
  | _ => (commit_path V session dotColorByKey areaByKey idSeed n, true, n + 1)
  end.

End CommitSpec.

(** ** A caller threading commits *)

Module CommitRuns.

(** A gesture handed to commit: the session and the two lookups of the
    moment. *)
Definition Gesture := (DragPreviewSession * DotColorByKey * AreaByKey)%type.

(** Successive commits with one [idSeed], each call receiving the Path Store
    and the counter returned by the previous one. *)
Fixpoint commits (paths0 : loc) (gs : list Gesture) (idSeed n : Z)
    : M (list DragCommit.CommitResult) :=
  match gs with
  | [] => ret []
  | (session, dots, areas) :: gs' =>
      r ← DragCommit.commitDragWorklet paths0 session dots areas idSeed n;
      rs ← commits (DragCommit.paths r) gs' idSeed (DragCommit.nextSegmentId r);
      ret (r :: rs)
  end.

Definition gesture_session (g : Gesture) : DragPreviewSession := g.1.1.

(** The counters returned along the sequence: one more after each commit of
    a path of two or more cells, the same otherwise. *)
Fixpoint expected_counters (n : Z) (ss : list DragPreviewSession) : list Z :=
  match ss with
  | [] => []
  | s :: ss' =>
      let n' := if Nat.leb 2 (length (path s)) then n + 1 else n in
      n' :: expected_counters n' ss'
  end.

(** The ids of the segments created along the sequence, in order. *)
Fixpoint created_ids (idSeed n : Z) (ss : list DragPreviewSession) : list string :=
  match ss with
  | [] => []
  | s :: ss' =>
      if Nat.leb 2 (length (path s))
      then DragCommit.segmentIdOf idSeed n :: created_ids idSeed (n + 1) ss'
      else created_ids idSeed n ss'
  end.

(** The segments held by a Path Store value, color after color. *)
Definition store_segments (V : StoreValue.PathsV) : list Segment := concat (map snd V).

(** [adds_along V ss Ws ids]: starting from the value [V], the successive
    commits of the sessions [ss] return the values [Ws].  The commit of a
    session of two or more cells adds one segment, made of the session's
    cells, at the end of the session's color list, with the next id of
    [ids]; apart from it the value it returns holds only segments of the
    previous value (counted with multiplicity).  Every other commit adds no
    segment. *)
Fixpoint adds_along (V : StoreValue.PathsV) (ss : list DragPreviewSession)
    (Ws : list StoreValue.PathsV) (ids : list string) : Prop :=
  match ss, Ws with
  | [], [] => ids = []
  | s :: ss', W :: Ws' =>
      if Nat.leb 2 (length (path s)) then
        match ids with
        | i :: ids' =>
            (exists segs, StoreValue.vget (color s) W = Some (segs ++ [mkSegment i (path s)])) /\
            store_segments W ⊆+ mkSegment i (path s) :: store_segments V /\
            adds_along W ss' Ws' ids'
        | [] => False
        end
      else store_segments W ⊆+ store_segments V /\ adds_along W ss' Ws' ids
  | _, _ => False
  end.

End CommitRuns.

(** ** Start-time eviction as the code performs it, on values *)

Module StartSpec.
Import StoreValue CommitSpec.

(** Every segment, of any color, ending at the start cell is removed; then,
    if the start cell has an area id, the segments of the dot's color
    terminating in that area. *)
Definition evict (V : PathsV) (start : Cell) (d : string) (areaByKey : AreaByKey) : PathsV :=
  let W1 := remove_where (fun _ sg => ends_at start sg) V in
  match areaByKey (cellKey (x start) (y start)) with
  | Some a =>
      remove_where (fun k sg => String.eqb k d &&
        terminates_where (fun c => bool_decide (areaByKey (cellKey (x c) (y c)) = Some a)) sg) W1
  | None => W1
  end.

End StartSpec.

(** ** Pointer arithmetic ([src/game/gestureMath.ts]) *)

Module GestureMath.

(** [clampValue(value, min, max) = Math.min(max, Math.max(min, value))] *)
Definition clampValue (value min max : Q) : Q := Qmin max (Qmax min value).

(** [Math.sign] on a number that is not NaN. *)
Definition sign (q : Q) : Z :=
  if negb (Qle_bool q 0%Q) then 1 else if negb (Qle_bool 0%Q q) then -1 else 0.

End GestureMath.

(** ** The rendering tip of a drag ([computeTip] of the controller) *)

Module Tip.
Import GestureController GestureMath.

(** [for (let step = 1; step <= maxSteps; step += 1) { ... }] looking for the
    first closed cell or dot along the axis; [None] when the loop ends
    without a [break], leaving [limitCoord] at [axisAnchor]. *)
Fixpoint tip_scan (openSet : OpenSetByKey) (dotColors : DotColorByKey) (ax : Axis) (last : Cell)
    (direction : Z) (axisAnchor size : Q) (fuel : nat) (step : Z) : option Q :=
  match fuel with
  | O => None
  | S fuel' =>
      let nextX := x last + match ax with AxisX => direction * step | AxisY => 0 end in
      let nextY := y last + match ax with AxisY => direction * step | AxisX => 0 end in
      let key := cellKey nextX nextY in
      if negb (openSet key) then
        Some (axisAnchor + inject_Z direction * (inject_Z step - (1#2)) * size)%Q
      else if truthy (dotColors key) then
        Some (axisAnchor + inject_Z direction * inject_Z step * size)%Q
      else tip_scan openSet dotColors ax last direction axisAnchor size fuel' (step + 1)
  end.

(** [computeTip(axis, localX, localY, last)] *)
Definition computeTip (fitCellSize : Q) (openBounds : OpenBounds) (openSet : OpenSetByKey)
    (dotColors : DotColorByKey) (axis : option Axis) (localX localY : Q) (last : Cell) : Q * Q :=
  let size := if negb (Qle_bool fitCellSize 0) then fitCellSize else 1%Q in
  match axis with
  | None => cellCenter last size
  | Some ax =>
      let minX' := (inject_Z (minX openBounds) * size)%Q in
      let maxX' := (inject_Z (maxX openBounds + 1) * size)%Q in
      let minY' := (inject_Z (minY openBounds) * size)%Q in
      let maxY' := (inject_Z (maxY openBounds + 1) * size)%Q in
      let clampedX := clampQ localX minX' maxX' in
      let clampedY := clampQ localY minY' maxY' in
      let anchor := cellCenter last size in
      let axisTarget := match ax with AxisX => clampedX | AxisY => clampedY end in
      let axisAnchor := match ax with AxisX => anchor.1 | AxisY => anchor.2 end in
      let direction := sign (axisTarget - axisAnchor)%Q in
      if Z.eqb direction 0 then anchor else
      let maxSteps :=
        match ax with
        | AxisX => if Z.gtb direction 0 then maxX openBounds - x last + 1
                   else x last - minX openBounds + 1
        | AxisY => if Z.gtb direction 0 then maxY openBounds - y last + 1
                   else y last - minY openBounds + 1
        end in
      let limitCoord :=
        match tip_scan openSet dotColors ax last direction axisAnchor size (Z.to_nat maxSteps) 1 with
        | Some l => l
        | None => axisAnchor
        end in
      let limitCoord' :=
        if Qeq_bool limitCoord axisAnchor
        then (axisAnchor + inject_Z direction * (inject_Z maxSteps - (1#2)) * size)%Q
        else limitCoord in
      let clampedAxis :=
        if Z.gtb direction 0 then Qmin axisTarget limitCoord' else Qmax axisTarget limitCoord' in
      match ax with
      | AxisX => (clampedAxis, anchor.2)
      | AxisY => (anchor.1, clampedAxis)
      end
  end.

End Tip.


(** ** The Path Store sent between threads

    [flattenPath] and [serializePaths] of [src/game/gestureController.ts]
    (the [buildPayload] of [stopDrawing] and the inline loop of [handleTap] in
    [src/unnamed/part_002] are the same code), and [deserializePaths] of
    [src/unnamed/part_002]. *)

Module Payload.
Import StoreValue.

Definition PathsPayload := list (string * list (string * list Z)).

(** [flattenPath(path)]: [flat[2i] = path[i].x], [flat[2i+1] = path[i].y]. *)
Definition flattenPath (p : list Cell) : list Z := flat_map (fun c => [x c; y c]) p.

(** [{ id: segment.id, cells }] with [cells.push(cell.x, cell.y)] for every cell. *)
Definition serialize_segment (segment : Segment) : string * list Z :=
  (id segment, flat_map (fun c => [x c; y c]) (cells segment)).

(** The [for (const colorKey in paths)] loop: a color is pushed only when it
    has segments. *)
Fixpoint serialize_entries (es : list (string * loc)) : M PathsPayload :=
  match es with
  | [] => ret []
  | (colorKey, a) :: es' =>
      segments ← arr_get a;
      rest ← serialize_entries es';
      let outSegments := map serialize_segment segments in
      ret (match outSegments with [] => rest | _ => (colorKey, outSegments) :: rest end)
  end.

(** [serializePaths(paths)] *)
Definition serializePaths (paths0 : loc) : M PathsPayload :=
  es ← obj_entries paths0; serialize_entries es.

(** [for (index = 0; index < cells.length; index += 2)
       cells.push({ x: cells[index], y: cells[index + 1] })].  On a list of
    odd length the code builds a last cell whose [y] is [undefined], which a
    [Cell] cannot hold: [None]. *)
Fixpoint unflatten (cs : list Z) : option (list Cell) :=
  match cs with
  | [] => Some []
  | [_] => None
  | a :: b :: cs' => option_map (cons (mkCell a b)) (unflatten cs')
  end.

Definition deserialize_segment (segment : string * list Z) : option Segment :=
  option_map (mkSegment segment.1) (unflatten segment.2).

Fixpoint deserialize_segments (segments : list (string * list Z)) : option (list Segment) :=
  match segments with
  | [] => Some []
  | s :: ss =>
      match deserialize_segment s, deserialize_segments ss with
      | Some s', Some ss' => Some (s' :: ss')
      | _, _ => None
      end
  end.

(** [next[k] = v] on a JS object: a present key keeps its place. *)
Definition obj_assign (k : string) (v : list Segment) (V : PathsV) : PathsV :=
  if existsb (fun e => String.eqb e.1 k) V then vset k v V else V ++ [(k, v)].

Definition deserialize_entry (next : option PathsV) (entry : string * list (string * list Z))
    : option PathsV :=
  match next, deserialize_segments entry.2 with
  | Some next', Some segments =>
      Some (match segments with [] => next' | _ => obj_assign entry.1 segments next' end)
  | _, _ => None
  end.

(** [deserializePaths(payload)]: [payload.forEach], a color being set only
    when it has segments. *)
Definition deserializePaths (payload : PathsPayload) : option PathsV :=
  fold_left deserialize_entry payload (Some []).

End Payload.

(** ** The callers of commit on the game screen ([src/unnamed/part_002])

    The two UI-thread worklets that run [commitDragWorklet]: the one of
    [stopDrawing] (end of a drag) and the one of [handleTap].  Each returns
    the new values of the shared [pathsShared] and [segmentIdCounter] and the
    arguments of the [runOnJS(finalizeCommitFromPayload)] call. *)

Module GameScreen.
Import DragCommit Payload.

(** The worklet of [stopDrawing]: [dragColor.value], [previewCells.value]
    ([flat]) and [pathsMutated.value] are read; the path is decoded from
    [flat] into [new Array(flat.length / 2)], which raises a [RangeError] for
    an odd length. *)
Definition stopDrawing (pathsShared : loc) (pathsMutated : Z) (dragColor : option string)
    (flat : list Z) (dotColorShared : DotColorByKey) (areaByKeyShared : AreaByKey)
    (segmentIdSeed segmentIdCounter : Z) : M (loc * Z * (PathsPayload * bool)) :=
  let mutated := Z.eqb pathsMutated 1 in
  let unchanged :=
    if mutated then
      payload ← serializePaths pathsShared; ret (pathsShared, segmentIdCounter, (payload, true))
    else ret (pathsShared, segmentIdCounter, ([], false)) in
  if negb (truthy dragColor) || Nat.ltb (length flat) 4 then unchanged else
  match unflatten flat with
  | None => fail
  | Some path =>
      let session := mkSession (default EmptyString dragColor) path None false
                       (Nat.ltb 1 (length path)) in
      result ← commitDragWorklet pathsShared session dotColorShared areaByKeyShared
                 segmentIdSeed segmentIdCounter;
      if didChange result then
        payload ← serializePaths (paths result);
        ret (paths result, nextSegmentId result, (payload, true))
      else unchanged
  end.

(** The worklet of [handleTap], run for a tap on the cell [(tapX, tapY)]
    holding a dot of color [tapColor]. *)
Definition tapWorklet (pathsShared : loc) (tapX tapY : Z) (tapColor : string)
    (dotColorShared : DotColorByKey) (areaByKeyShared : AreaByKey)
    (segmentIdSeed segmentIdCounter : Z) : M (loc * Z * (PathsPayload * bool)) :=
  let session := mkSession tapColor [mkCell tapX tapY] None false false in
  result ← commitDragWorklet pathsShared session dotColorShared areaByKeyShared
             segmentIdSeed segmentIdCounter;
  if didChange result then
    payload ← serializePaths (paths result);
    ret (paths result, nextSegmentId result, (payload, true))
  else ret (pathsShared, segmentIdCounter, ([], false)).

End GameScreen.

(** ** Concrete stores and sessions *)

Module Scenarios.
Import DragCommit GestureController StoreValue.

Definition open_all : OpenSetByKey := fun _ => true.
Definition no_dots : DotColorByKey := fun _ => None.
Definition no_areas : AreaByKey := fun _ => None.

(** Area 1 made of the cell (0,0) alone. *)
Definition area1_at_00 : AreaByKey :=
  fun k => if key_eqb k (0, 0) then Some 1%Z else None.

(** A red dot at (0,0) and nothing else. *)
Definition red_dot_00 : DotColorByKey :=
  fun k => if key_eqb k (0, 0) then Some "red"%string else None.

(** The red segment (0,0)-(0,1)-(0,2)-(0,3). *)
Definition red_column : Segment :=
  mkSegment "segment-1-0" [mkCell 0 0; mkCell 0 1; mkCell 0 2; mkCell 0 3].

(** A Path Store at location 0 holding [red_column]. *)
Definition red_heap : heap :=
  mkHeap (<[0%nat := HObj [("red"%string, 1%nat)]]> (<[1%nat := HArr [red_column]]> ∅)) 2.

Definition red_store : PathsV := [("red"%string, [red_column])].

(** The blue segment (0,0)-(1,0), ending on the red dot. *)
Definition blue_row : Segment := mkSegment "segment-1-1" [mkCell 0 0; mkCell 1 0].

Definition blue_heap : heap :=
  mkHeap (<[0%nat := HObj [("blue"%string, 1%nat)]]> (<[1%nat := HArr [blue_row]]> ∅)) 2.

Definition blue_store : PathsV := [("blue"%string, [blue_row])].

(** A red drag from the dot at (0,0) down to (0,1). *)
Definition red_drag : DragPreviewSession :=
  mkSession "red" [mkCell 0 0; mkCell 0 1] (Some AxisY) false true.

(** A red drag along exactly the cells of [red_column]. *)
Definition redraw_session : DragPreviewSession :=
  mkSession "red" (cells red_column) (Some AxisY) false true.

Definition empty_session : DragPreviewSession := mkSession "red" [] None false false.

(** A tap on the red dot. *)
Definition red_tap : DragPreviewSession := mkSession "red" [mkCell 0 0] None false false.

(** A red path (0,0)-(1,0)-(2,0) moving along x. *)
Definition row_session : DragPreviewSession :=
  mkSession "red" [mkCell 0 0; mkCell 1 0; mkCell 2 0] (Some AxisX) false true.

(** A loop around the border of the 66 x 66 board, from (0,0) back next to
    it at (0,1): 260 cells. *)
Definition ring_path : list Cell :=
  map (fun i => mkCell (Z.of_nat i) 0) (seq 0 66) ++
  map (fun j => mkCell 65 (Z.of_nat j)) (seq 1 65) ++
  map (fun i => mkCell (64 - Z.of_nat i) 65) (seq 0 65) ++
  map (fun j => mkCell 0 (64 - Z.of_nat j)) (seq 0 64).

Definition ring_session : DragPreviewSession := mkSession "red" ring_path (Some AxisY) false true.

Definition board5 : OpenBounds := mkBounds 0 0 5 5.
Definition board65 : OpenBounds := mkBounds 0 0 65 65.

End Scenarios.

(** * Proofs *)

(** ** Running the monad *)

Module HeapFacts.
Import StoreValue.

Lemma bind_run {A B} (m : M A) (k : A -> M B) (h : heap) :
  (m ≫= k) h = match m h with Some (a, h') => k a h' | None => None end.
Proof. reflexivity. Qed.

Lemma ret_run {A} (a : A) (h : heap) : ret a h = Some (a, h).
Proof. reflexivity. Qed.

Lemma heap_eta (h : heap) : mkHeap (mem h) (top h) = h.
Proof. by destruct h. Qed.

(** ** Association lists and the value of a store *)

Lemma elem_of_map {A B} (f : A -> B) (a : A) (l : list A) : a ∈ l -> f a ∈ map f l.
Proof.
  induction l as [|b l IH]; simpl; intros Hin; [inversion Hin|].
  apply elem_of_cons in Hin as [->|Hin]; [left|right; by apply IH].
Qed.

Lemma assoc_get_in k a es : assoc_get k es = Some a -> (k, a) ∈ es.
Proof.
  induction es as [|[k' a'] es IH]; simpl; [done|].
  destruct (String.eqb_spec k' k); intros H.
  - inversion H; subst. left.
  - right. by apply IH.
Qed.

Lemma assoc_get_none k es : assoc_get k es = None -> k ∉ map fst es.
Proof.
  induction es as [|[k' a'] es IH]; simpl; [intros _ H; inversion H|].
  destruct (String.eqb_spec k' k); [done|].
  intros H Hin. inversion Hin; subst; [done|]. by apply IH.
Qed.

Lemma assoc_get_nodup k a es :
  NoDup (map fst es) -> (k, a) ∈ es -> assoc_get k es = Some a.
Proof.
  induction es as [|[k' a'] es IH]; simpl; intros Hnd Hin; [inversion Hin|].
  inversion Hnd as [|? ? Hnot Hnd']; subst.
  apply elem_of_cons in Hin as [Heq|Hin].
  - inversion Heq; subst. by rewrite String.eqb_refl.
  - destruct (String.eqb_spec k' k) as [->|]; [|by apply IH].
    exfalso. apply Hnot. apply (elem_of_map fst) in Hin. exact Hin.
Qed.

Lemma read_entries_keys m es V : read_entries m es = Some V -> map fst V = map fst es.
Proof.
  revert V; induction es as [|[k a] es IH]; simpl; intros V H.
  - by inversion H.
  - destruct (m !! a) as [[|s]|]; try done.
    destruct (read_entries m es) as [V'|] eqn:E; [|done].
    inversion H; subst. simpl. f_equal. by apply IH.
Qed.

Lemma read_entries_insert_notin m es a v :
  a ∉ map snd es -> read_entries (<[a := v]> m) es = read_entries m es.
Proof.
  induction es as [|[k a'] es IH]; simpl; intros Hnot; [done|].
  rewrite lookup_insert_ne; [|intros ->; apply Hnot; left].
  rewrite IH; [done|]. intros Hin; apply Hnot; right; exact Hin.
Qed.

Lemma read_entries_arr m es V a :
  read_entries m es = Some V -> a ∈ map snd es -> exists s, m !! a = Some (HArr s).
Proof.
  revert V; induction es as [|[k a'] es IH]; simpl; intros V H Hin; [inversion Hin|].
  destruct (m !! a') as [[|s]|] eqn:Ea'; try done.
  destruct (read_entries m es) as [V'|] eqn:E; [|done].
  apply elem_of_cons in Hin as [->|Hin]; [by eauto|]. by eapply IH.
Qed.

Lemma read_entries_get m es V c :
  read_entries m es = Some V ->
  match assoc_get c es with
  | Some a => exists s, m !! a = Some (HArr s) /\ vget c V = Some s
  | None => vget c V = None
  end.
Proof.
  revert V; induction es as [|[k a] es IH]; simpl; intros V H.
  - by inversion H.
  - destruct (m !! a) as [[|s]|] eqn:Ea; try done.
    destruct (read_entries m es) as [V'|] eqn:E; [|done].
    inversion H; subst. simpl.
    destruct (String.eqb k c); [by eauto|]. by apply IH.
Qed.

Lemma read_entries_del m es V c :
  read_entries m es = Some V -> read_entries m (assoc_del c es) = Some (vdel c V).
Proof.
  revert V; induction es as [|[k a] es IH]; simpl; intros V H.
  - by inversion H.
  - destruct (m !! a) as [[|s]|] eqn:Ea; try done.
    destruct (read_entries m es) as [V'|] eqn:E; [|done].
    inversion H; subst. unfold assoc_del, vdel in *. simpl.
    specialize (IH V' eq_refl).
    destruct (String.eqb k c); simpl; [exact IH|].
    rewrite Ea, IH. done.
Qed.

Lemma read_entries_set_arr m es V c a s' :
  read_entries m es = Some V -> NoDup (map fst es) -> NoDup (map snd es) ->
  assoc_get c es = Some a ->
  read_entries (<[a := HArr s']> m) es = Some (vset c s' V).
Proof.
  revert V; induction es as [|[k a'] es IH]; simpl; intros V H Hk Hs Hget; [done|].
  inversion Hk as [|? ? Hk1 Hk2]; subst. inversion Hs as [|? ? Hs1 Hs2]; subst.
  destruct (m !! a') as [[|s]|] eqn:Ea'; try done.
  destruct (read_entries m es) as [V'|] eqn:E; [|done].
  inversion H; subst. unfold vset; simpl.
  destruct (String.eqb_spec k c) as [->|Hne].
  - inversion Hget; subst. rewrite lookup_insert_eq.
    rewrite read_entries_insert_notin by done. rewrite E. simpl.
    rewrite ?String.eqb_refl.  f_equal. f_equal.
    rewrite <- (read_entries_keys _ _ _ E) in Hk1.
    clear -Hk1. induction V' as [|[k' t] V' IHV]; simpl; [done|].
    destruct (String.eqb_spec k' c) as [->|]; [exfalso; apply Hk1; left|].
    f_equal. apply IHV. intros Hin; apply Hk1; right; exact Hin.
  - rewrite lookup_insert_ne.
    2:{ intros ->. apply Hs1. apply assoc_get_in in Hget.
        apply (elem_of_map snd) in Hget. exact Hget. }
    rewrite Ea'. rewrite (IH V') by done. simpl.
    apply String.eqb_neq in Hne. rewrite ?Hne. done.
Qed.

(** ** The backward sweep *)

Lemma splice1_take_drop {A} (i : nat) (l : list A) : splice1 i l = take i l ++ drop (S i) l.
Proof.
  revert i; induction l as [|b l IH]; intros [|i]; simpl; try done.
  by rewrite IH.
Qed.

Lemma filter_drop_cons (keep : Segment -> bool) (s : list Segment) m sm :
  s !! m = Some sm ->
  List.filter keep (drop m s) =
  (if keep sm then [sm] else []) ++ List.filter keep (drop (S m) s).
Proof. intros Hm. rewrite (drop_S s sm m Hm). simpl. by destruct (keep sm). Qed.

Section Sweep.
Variables (h : heap) (o a : loc) (es : list (string * loc)) (c : string)
          (s : list Segment) (hit : Segment -> bool).
Hypotheses (Ho : mem h !! o = Some (HObj es)) (Ha : mem h !! a = Some (HArr s))
           (Hget : assoc_get c es = Some a) (Hao : a <> o).

Local Abbreviation keep := (fun sg => negb (hit sg)).
Local Abbreviation F n := (List.filter keep (drop n s)).
Local Abbreviation H_at n := (mkHeap (<[a := HArr (take n s ++ F n)]> (mem h)) (top h)).
Local Abbreviation sweep_final :=
  (match F 0 with
   | [] => mkHeap (<[o := HObj (assoc_del c es)]> (<[a := HArr []]> (mem h))) (top h)
   | _ => H_at 0
   end).

Lemma sweep_step m sm acc :
  s !! m = Some sm ->
  DragCommit.sweep_body o c a hit m acc (H_at (S m)) =
  Some (if hit sm then true else acc, match m with O => sweep_final | S _ => H_at m end).
Proof using Ho Ha Hget Hao.
  intros Hm.
  assert (Hlt : (m < length s)%nat) by (apply lookup_lt_is_Some; eauto).
  assert (Hlen : length (take (S m) s) = S m) by (rewrite length_take; lia).
  assert (Hcur : (take (S m) s ++ F (S m)) !! m = Some sm).
  { rewrite lookup_app_l by lia. rewrite lookup_take_lt by lia. exact Hm. }
  assert (HF := filter_drop_cons keep s m sm Hm).
  unfold DragCommit.sweep_body, DragCommit.removeSegment, obj_delete, obj_get, obj_entries,
    arr_get, load, store, mbind, M_bind, ret, mret, M_ret.
  cbn. rewrite lookup_insert_eq. cbn. rewrite Hcur.
  destruct (hit sm) eqn:Hhit; cbn in HF; rewrite ?Hhit in HF; cbn in HF.
  - cbn. rewrite lookup_insert_ne by congruence. rewrite Ho. cbn.
    rewrite Hget. cbn. rewrite lookup_insert_eq. cbn.
    rewrite lookup_insert_eq. cbn. rewrite insert_insert_eq.
    rewrite splice1_take_drop.
    assert (Htk : take m (take (S m) s ++ F (S m)) = take m s).
    { rewrite take_app_le by lia. rewrite take_take. f_equal. lia. }
    assert (Hdr : drop (S m) (take (S m) s ++ F (S m)) = F (S m)).
    { apply drop_app_length'. done. }
    rewrite Htk, Hdr, <- HF.
    destruct m as [|m'].
    + rewrite take_0. cbn [app].
      destruct (F 0) as [|f fs] eqn:EF; cbn.
      * cbn. rewrite lookup_insert_ne by congruence. rewrite Ho. cbn.
        cbn. rewrite lookup_insert_ne by congruence. rewrite Ho. done.
      * done.
    + assert (Hne : take (S m') s <> []).
      { intros E. apply (f_equal length) in E. rewrite length_take in E. cbn [length] in E. lia. }
      destruct (take (S m') s) as [|t ts]; [done|]. cbn [app]. done.
  - assert (Heq : take (S m) s ++ F (S m) = take m s ++ F m).
    { rewrite (take_S_r s m sm Hm), HF, <- app_assoc. done. }
    rewrite Heq. destruct m as [|m']; [|done].
    rewrite take_0. cbn [app]. rewrite HF. done.
Qed.

Lemma sweep_loop m acc :
  (S m <= length s)%nat ->
  for_down (S m) acc (DragCommit.sweep_body o c a hit) (H_at (S m)) =
  Some (acc || existsb hit (take (S m) s), sweep_final).
Proof using Ho Ha Hget Hao.
  revert acc; induction m as [|m IH]; intros acc Hle.
  - destruct (lookup_lt_is_Some_2 s 0 ltac:(lia)) as [s0 Hs0].
    simpl for_down. rewrite bind_run. rewrite (sweep_step 0 s0 acc Hs0). simpl.
    rewrite ret_run. rewrite (take_S_r s 0 s0 Hs0), take_0. simpl.
    destruct (hit s0), acc; done.
  - destruct (lookup_lt_is_Some_2 s (S m) ltac:(lia)) as [sm Hsm].
    change (for_down (S (S m)) acc (DragCommit.sweep_body o c a hit))
      with (DragCommit.sweep_body o c a hit (S m) acc ≫=
            (fun acc' => for_down (S m) acc' (DragCommit.sweep_body o c a hit))).
    rewrite bind_run, (sweep_step (S m) sm acc Hsm).
    rewrite IH by lia. rewrite (take_S_r s (S m) sm Hsm), existsb_app. simpl.
    f_equal. f_equal. destruct (hit sm), acc, (existsb hit (take (S m) s)); done.
Qed.

End Sweep.

(** ** One color, all colors *)

Lemma nodup_map_filter {A B} (f : A -> B) (p : A -> bool) (l : list A) :
  NoDup (map f l) -> NoDup (map f (List.filter p l)).
Proof.
  induction l as [|b l IH]; simpl; intros Hnd; [done|].
  inversion Hnd as [|? ? Hnot Hnd']; subst.
  destruct (p b); simpl; [|by apply IH].
  constructor; [|by apply IH].
  intros Hin; apply Hnot. clear -Hin.
  induction l as [|b' l IHl]; simpl in *; [inversion Hin|].
  destruct (p b'); simpl in *; [|right; by apply IHl].
  apply elem_of_cons in Hin as [->|Hin]; [left|right; by apply IHl].
Qed.

Lemma forall_filter {A} (P : A -> Prop) (p : A -> bool) (l : list A) :
  Forall P l -> Forall P (List.filter p l).
Proof.
  induction 1 as [|b l Hb Hl IH]; simpl; [constructor|].
  destruct (p b); [constructor|]; done.
Qed.

Lemma notin_del es c a :
  NoDup (map fst es) -> NoDup (map snd es) -> assoc_get c es = Some a ->
  a ∉ map snd (assoc_del c es).
Proof.
  induction es as [|[k a'] es IH]; simpl; intros Hk Hs Hget; [done|].
  inversion Hk as [|? ? Hk1 Hk2]; subst. inversion Hs as [|? ? Hs1 Hs2]; subst.
  unfold assoc_del in *; simpl.
  destruct (String.eqb_spec k c) as [->|Hne]; simpl.
  - inversion Hget; subst. intros Hin. apply Hs1.
    clear -Hin. induction es as [|[k' a''] es IHe]; simpl in *; [inversion Hin|].
    destruct (negb (String.eqb k' c)); simpl in *.
    + apply elem_of_cons in Hin as [->|Hin]; [left|right; by apply IHe].
    + right; by apply IHe.
  - intros Hin. apply elem_of_cons in Hin as [->|Hin].
    + apply Hs1. apply assoc_get_in in Hget. by apply (elem_of_map snd) in Hget.
    + by apply IH.
Qed.

Lemma obj_not_arr m es V o es0 :
  read_entries m es = Some V -> m !! o = Some (HObj es0) -> o ∉ map snd es.
Proof.
  intros H Ho Hin. destruct (read_entries_arr m es V o H Hin) as [s Hs]. congruence.
Qed.

Lemma sweep_color_spec t h o es V hit c acc :
  owned t h o es -> read_entries (mem h) es = Some V ->
  exists h' es',
    DragCommit.sweep_color o hit c acc h = Some ((v_sweep_color hit c (V, acc)).2, h') /\
    owned t h' o es' /\ read_entries (mem h') es' = Some (v_sweep_color hit c (V, acc)).1 /\
    frame t h h'.
Proof.
  intros (Hto & Ho & Hk & Hs & Ht) HV.
  assert (Hframe_refl : frame t h h) by (split; [|split]; eauto).
  pose proof (read_entries_get _ _ _ c HV) as Hg.
  unfold DragCommit.sweep_color, obj_get, obj_entries, arr_get, load, mbind, M_bind, ret, mret, M_ret.
  cbn. rewrite Ho. cbn.
  destruct (assoc_get c es) as [a|] eqn:Hget.
  2:{ exists h, es. unfold v_sweep_color. rewrite Hg. repeat split; done. }
  destruct Hg as (s & Ha & Hvs).
  rewrite Ha. cbn. unfold v_sweep_color. rewrite Hvs.
  assert (Hao : a <> o) by congruence.
  assert (Hta : (t <= a)%nat).
  { apply assoc_get_in in Hget. rewrite Forall_forall in Ht. apply (Ht _ Hget). }
  assert (Hloop : forall m, length s = S m ->
    for_down (S m) acc (DragCommit.sweep_body o c a hit) h =
    Some (acc || existsb hit s,
          match List.filter (fun sg => negb (hit sg)) s with
          | [] => mkHeap (<[o := HObj (assoc_del c es)]> (<[a := HArr []]> (mem h))) (top h)
          | _ => mkHeap (<[a := HArr (List.filter (fun sg => negb (hit sg)) s)]> (mem h)) (top h)
          end)).
  { intros m Hm. pose proof (sweep_loop h o a es c s hit Ho Ha Hget Hao m acc ltac:(lia)) as HL.
    rewrite take_ge, drop_ge in HL by lia. cbn [List.filter] in HL.
    rewrite app_nil_r, insert_id, heap_eta in HL by exact Ha.
    rewrite drop_0, take_0 in HL. exact HL. }
  assert (Hnota : o ∉ map snd es) by (eapply obj_not_arr; eauto).
  destruct s as [|s0 s'] eqn:Es.
  { exists h, es. repeat split; done. }
  cbn [length]. rewrite (Hloop (length s') eq_refl). cbn [fst snd].
  destruct (List.filter (fun sg => negb (hit sg)) (s0 :: s')) as [|f fs] eqn:EF.
  - exists (mkHeap (<[o := HObj (assoc_del c es)]> (<[a := HArr []]> (mem h))) (top h)), (assoc_del c es).
    split; [done|]. split; [|split].
    + split; [done|]. split; [cbn [mem]; by rewrite lookup_insert_eq|]. split; [by apply nodup_map_filter|].
      split; [by apply nodup_map_filter|]. by apply forall_filter.
    + cbn [mem]. rewrite read_entries_insert_notin.
      2:{ intros Hin. apply Hnota. clear -Hin. unfold assoc_del in Hin.
          induction es as [|e es IH]; simpl in *; [inversion Hin|].
          destruct (negb _); simpl in *; [apply elem_of_cons in Hin as [->|Hin]; [left|right; by apply IH]|right; by apply IH]. }
      rewrite read_entries_insert_notin by (by apply notin_del).
      by apply read_entries_del.
    + split; [|split]; [| |done]; intros l Hl; cbn [mem];
        rewrite !lookup_insert_ne; try done; intros ->; first [lia | congruence].
  - exists (mkHeap (<[a := HArr (f :: fs)]> (mem h)) (top h)), es.
    split; [done|]. split; [|split].
    + split; [done|]. split; [cbn [mem]; rewrite lookup_insert_ne by congruence; done|]. done.
    + cbn [mem]. by apply read_entries_set_arr.
    + split; [|split]; [| |done]; intros l Hl; cbn [mem];
        rewrite !lookup_insert_ne; try done; intros ->; first [lia | congruence].
Qed.


Lemma frame_trans t h1 h2 h3 : frame t h1 h2 -> frame t h2 h3 -> frame t h1 h3.
Proof.
  intros (A1 & B1 & C1) (A2 & B2 & C2). split; [|split].
  - intros l Hl. rewrite A2, A1 by done. done.
  - intros l Hl. by apply B2, B1.
  - congruence.
Qed.

Lemma frame_refl t h : frame t h h.
Proof. split; [|split]; done. Qed.

Lemma for_keys_sweep t o hit ks : forall h es V acc,
  owned t h o es -> read_entries (mem h) es = Some V ->
  exists h' es',
    for_keys ks acc (DragCommit.sweep_color o hit) h = Some ((v_sweep_keys hit ks (V, acc)).2, h') /\
    owned t h' o es' /\ read_entries (mem h') es' = Some (v_sweep_keys hit ks (V, acc)).1 /\
    frame t h h'.
Proof.
  induction ks as [|k ks IH]; intros h es V acc Hown HV.
  - exists h, es. split; [done|]. split; [done|]. split; [done|]. apply frame_refl.
  - destruct (sweep_color_spec t h o es V hit k acc Hown HV) as (h1 & es1 & Hrun & Hown1 & HV1 & Hf1).
    destruct (IH h1 es1 _ (v_sweep_color hit k (V, acc)).2 Hown1 HV1) as (h2 & es2 & Hrun2 & Hown2 & HV2 & Hf2).
    exists h2, es2. cbn [for_keys]. rewrite bind_run, Hrun.
    unfold v_sweep_keys in *. cbn [fold_left].
    rewrite <- (surjective_pairing (v_sweep_color hit k (V, acc))) in Hrun2, HV2.
    split; [exact Hrun2|]. split; [done|]. split; [done|]. eapply frame_trans; eauto.
Qed.

Lemma sweep_all_spec t h o es V hit :
  owned t h o es -> read_entries (mem h) es = Some V ->
  exists h' es',
    DragCommit.sweep_all o hit h = Some ((v_sweep_all hit V).2, h') /\
    owned t h' o es' /\ read_entries (mem h') es' = Some (v_sweep_all hit V).1 /\
    frame t h h'.
Proof.
  intros Hown HV. pose proof Hown as (_ & Ho & _).
  unfold DragCommit.sweep_all, obj_entries, load. rewrite !bind_run. rewrite Ho. cbn.
  unfold v_sweep_all. rewrite (read_entries_keys _ _ _ HV).
  by apply (for_keys_sweep t o hit (map fst es) h es V false).
Qed.

(** ** Cloning *)

Lemma copySegment_id sg : DragCommit.copySegment sg = sg.
Proof.
  destruct sg as [i cs]. unfold DragCommit.copySegment. simpl. f_equal.
  induction cs as [|[cx cy] cs IH]; simpl; [done|]. by rewrite IH.
Qed.

Lemma map_copySegment_id s : map DragCommit.copySegment s = s.
Proof. induction s as [|sg s IH]; simpl; [done|]. by rewrite copySegment_id, IH. Qed.

Lemma read_entries_app m E1 E2 V1 V2 :
  read_entries m E1 = Some V1 -> read_entries m E2 = Some V2 ->
  read_entries m (E1 ++ E2) = Some (V1 ++ V2).
Proof.
  revert V1; induction E1 as [|[k a] E1 IH]; simpl; intros V1 H1 H2.
  - by inversion H1; subst.
  - destruct (m !! a) as [[|s]|]; try done.
    destruct (read_entries m E1) as [V1'|] eqn:E; try done.
    inversion H1; subst. by rewrite (IH V1' eq_refl H2).
Qed.

Lemma assoc_set_notin k a E : k ∉ map fst E -> assoc_set k a E = E ++ [(k, a)].
Proof.
  induction E as [|[k' a'] E IH]; simpl; intros Hnot; [done|].
  destruct (String.eqb_spec k' k) as [->|Hne]; [exfalso; apply Hnot; left|].
  rewrite IH; [done|]. intros Hin; apply Hnot; by right.
Qed.

Lemma read_entries_lt h E V :
  heap_wf h -> read_entries (mem h) E = Some V -> Forall (fun e => (e.2 < top h)%nat) E.
Proof.
  intros Hwf HE. apply Forall_forall. intros [k l] He.
  destruct (read_entries_arr _ _ _ l HE (elem_of_map snd (k, l) E He)) as [s Hs].
  simpl in *. destruct (Nat.lt_ge_cases l (top h)) as [|Hge]; [done|].
  pose proof (Hwf l Hge) as Hn. congruence.
Qed.

Lemma forall_notin_snd (P : loc -> Prop) (E : list (string * loc)) l :
  Forall (fun e => P e.2) E -> ~ P l -> l ∉ map snd E.
Proof.
  induction 1 as [|[k l'] E Hl' HE IH]; simpl; intros HP Hin;
    [inversion Hin|].
  apply elem_of_cons in Hin as [->|Hin]; [done|]. by apply IH.
Qed.

Lemma wf_lookup_lt h l v : heap_wf h -> mem h !! l = Some v -> (l < top h)%nat.
Proof.
  intros Hwf Hl. destruct (Nat.lt_ge_cases l (top h)) as [|Hge]; [done|].
  pose proof (Hwf l Hge) as Hn. congruence.
Qed.

Lemma clone_loop h src es : heap_wf h -> mem h !! src = Some (HObj es) -> NoDup (map fst es) ->
  forall suf hi E VE Vsuf,
  (forall e, e ∈ suf -> e ∈ es) -> read_entries (mem h) suf = Some Vsuf ->
  heap_wf hi -> (forall l, (l < top h)%nat -> mem hi !! l = mem h !! l) -> (top h < top hi)%nat ->
  mem hi !! top h = Some (HObj E) -> NoDup (map fst E ++ map fst suf) -> NoDup (map snd E) ->
  Forall (fun e => (top h < e.2)%nat) E -> read_entries (mem hi) E = Some VE ->
  exists hf Ef,
    forM_ (map fst suf) (DragCommit.clone_color src (top h)) hi = Some (tt, hf) /\
    heap_wf hf /\ (forall l, (l < top h)%nat -> mem hf !! l = mem h !! l) /\
    (top hi <= top hf)%nat /\ mem hf !! top h = Some (HObj Ef) /\
    NoDup (map fst Ef) /\ NoDup (map snd Ef) /\ Forall (fun e => (top h < e.2)%nat) Ef /\
    read_entries (mem hf) Ef = Some (VE ++ CommitSpec.clone Vsuf).
Proof.
  intros Hwf Hsrc Hnd suf. induction suf as [|[k a] suf IH];
    intros hi E VE Vsuf Hsub HVs Hwfi Hagree Htop HE HndE HsndE HltE HVE.
  - simpl in HVs. inversion HVs; subst. exists hi, E. rewrite !app_nil_r in *.
    repeat split; try done; lia.
  - simpl in HVs.
    destruct (mem h !! a) as [[|s]|] eqn:Ea; try done.
    destruct (read_entries (mem h) suf) as [Vs|] eqn:Es; try done.
    inversion HVs; subst Vsuf.
    assert (Hsrc_lt : (src < top h)%nat) by exact (wf_lookup_lt _ _ _ Hwf Hsrc).
    assert (Ha_lt : (a < top h)%nat) by exact (wf_lookup_lt _ _ _ Hwf Ea).
    assert (Hget : assoc_get k es = Some a) by (apply assoc_get_nodup; [done|]; apply Hsub; left).
    assert (Hsub' : forall e, e ∈ suf -> e ∈ es) by (intros e He; apply Hsub; by right).
    assert (HkE : (k ∉ map fst E) /\ NoDup (map fst E ++ map fst suf)).
    { simpl in HndE. apply NoDup_app in HndE as (HndE1 & Hdisj & HndE2).
      inversion HndE2 as [|? ? Hnot Hnd2]; subst. split.
      - intros Hin. by apply (Hdisj k Hin); left.
      - apply NoDup_app. split; [done|]. split; [|done].
        intros x Hx Hx'. apply (Hdisj x Hx). by right. }
    destruct HkE as [HkE HndE'].
    simpl. rewrite bind_run.
    unfold DragCommit.clone_color at 1. unfold obj_get, obj_entries, load, arr_get.
    rewrite !bind_run. rewrite (Hagree src Hsrc_lt), Hsrc. cbn. rewrite Hget. cbn.
    rewrite !bind_run. unfold load. rewrite (Hagree a Ha_lt), Ea. cbn.
    destruct s as [|sg s'].
    + (* an empty list is skipped *)
      cbn. destruct (IH hi E VE Vs Hsub' eq_refl Hwfi Hagree Htop HE HndE' HsndE HltE HVE)
        as (hf & Ef & Hrun & R). exists hf, Ef. rewrite Hrun. split; [done|].
      unfold CommitSpec.clone in *. simpl. exact R.
    + cbn. rewrite bind_run. unfold alloc at 1. cbn. unfold obj_set, obj_entries, load, store.
      rewrite !bind_run. cbn.
      assert (Hne : top h <> top hi) by lia.
      rewrite lookup_insert_ne by done. rewrite HE. cbn. rewrite lookup_insert_ne by done.
      rewrite HE. cbn. rewrite (assoc_set_notin k (top hi) E HkE).
      rewrite copySegment_id, map_copySegment_id.
      pose proof (read_entries_lt _ _ _ Hwfi HVE) as HltE'.
      assert (Hfresh : top hi ∉ map snd E)
        by (apply (forall_notin_snd (fun l => (l < top hi)%nat)); [done|lia]).
      set (hi' := mkHeap (<[top h := HObj (E ++ [(k, top hi)])]>
                           (<[top hi := HArr (sg :: s')]> (mem hi)))
                         (S (top hi))).
      destruct (IH hi' (E ++ [(k, top hi)]) (VE ++ [(k, sg :: s')]) Vs Hsub' eq_refl)
        as (hf & Ef & Hrun & Hwff & Hagf & Htopf & R).
      * intros l Hl. simpl in Hl. unfold hi'; simpl.
        rewrite !lookup_insert_ne by lia. apply Hwfi. simpl. lia.
      * intros l Hl. unfold hi'; simpl. rewrite !lookup_insert_ne by lia. by apply Hagree.
      * simpl. lia.
      * unfold hi'; simpl. by rewrite lookup_insert_eq.
      * by rewrite map_app, <- app_assoc.
      * rewrite map_app. apply NoDup_app. split; [done|]. split; [|apply NoDup_singleton].
        intros x Hx Hx'. apply list_elem_of_singleton in Hx'. subst. done.
      * apply Forall_app. split; [done|]. constructor; [simpl; lia|constructor].
      * unfold hi'; simpl. rewrite read_entries_insert_notin.
        -- apply read_entries_app.
           ++ by rewrite read_entries_insert_notin.
           ++ simpl. by rewrite lookup_insert_eq.
        -- apply (forall_notin_snd (fun l => (top h < l)%nat)); [|lia].
           apply Forall_app. split; [done|]. constructor; [simpl; lia|constructor].
      * exists hf, Ef. split; [exact Hrun|].
        do 2 (split; [done|]). split; [simpl in Htopf; lia|].
        rewrite <- app_assoc in R. unfold CommitSpec.clone in *. simpl.
        rewrite ?bool_decide_false by done. exact R.
Qed.

(** [clonePaths] allocates a fresh object at the old top whose value is the
    clone of the source; nothing below the old top changes. *)
Lemma clone_spec h src es V :
  heap_wf h -> mem h !! src = Some (HObj es) -> NoDup (map fst es) ->
  read_entries (mem h) es = Some V ->
  exists h' es',
    DragCommit.clonePaths src h = Some (top h, h') /\
    owned (top h) h' (top h) es' /\ read_entries (mem h') es' = Some (CommitSpec.clone V) /\
    heap_wf h' /\ (forall l, (l < top h)%nat -> mem h' !! l = mem h !! l) /\ (top h < top h')%nat.
Proof.
  intros Hwf Hsrc Hnd HV.
  unfold DragCommit.clonePaths, obj_entries, load. rewrite !bind_run, Hsrc. cbn.
  rewrite bind_run. unfold alloc at 1. cbn.
  set (h1 := mkHeap (<[top h := HObj []]> (mem h)) (S (top h))).
  destruct (clone_loop h src es Hwf Hsrc Hnd es h1 [] [] V) as
    (hf & Ef & Hrun & Hwff & Hag & Htop & HEf & Hnd1 & Hnd2 & Hlt & HVf).
  - done.
  - done.
  - intros l Hl. unfold h1 in *; simpl in *. rewrite lookup_insert_ne by lia. apply Hwf. lia.
  - intros l Hl. unfold h1; simpl. by rewrite lookup_insert_ne by lia.
  - simpl. lia.
  - unfold h1; simpl. by rewrite lookup_insert_eq.
  - done.
  - constructor.
  - constructor.
  - done.
  - exists hf, Ef. rewrite bind_run, Hrun. cbn. split; [done|].
    split.
    { split; [lia|]. split; [done|]. split; [done|]. split; [done|].
      rewrite Forall_forall in Hlt |- *. intros e He. specialize (Hlt e He). lia. }
    split; [done|]. split; [done|]. split; [done|]. simpl in Htop. lia.
Qed.

End HeapFacts.

(** ** The value-level removal algebra *)

Module ValueFacts.
Import StoreValue CommitSpec.

Lemma filter_ext' {A} (p q : A -> bool) (l : list A) :
  (forall a, a ∈ l -> p a = q a) -> List.filter p l = List.filter q l.
Proof.
  induction l as [|a l IH]; simpl; intros H; [done|].
  rewrite (H a) by left. rewrite IH; [done|]. intros b Hb; apply H; by right.
Qed.

Lemma filter_filter' {A} (p q : A -> bool) (l : list A) :
  List.filter p (List.filter q l) = List.filter (fun a => q a && p a) l.
Proof.
  induction l as [|a l IH]; simpl; [done|].
  destruct (q a); simpl; [destruct (p a)|]; simpl; by rewrite IH.
Qed.

Lemma filter_true' {A} (p : A -> bool) (l : list A) :
  (forall a, a ∈ l -> p a = true) -> List.filter p l = l.
Proof.
  induction l as [|a l IH]; simpl; intros H; [done|].
  rewrite (H a) by left. rewrite IH; [done|]. intros b Hb; apply H; by right.
Qed.

Lemma remove_where_cons p k s V :
  remove_where p ((k, s) :: V) =
  let s' := List.filter (fun sg => negb (p k sg)) s in
  if bool_decide (s' = []) then remove_where p V else (k, s') :: remove_where p V.
Proof. unfold remove_where. simpl. by destruct (bool_decide _). Qed.

Lemma remove_where_keys p V k : k ∉ map fst V -> k ∉ map fst (remove_where p V).
Proof.
  induction V as [|[k' s] V IH]; intros Hk; rewrite ?remove_where_cons; simpl; [done|].
  assert (k ∉ map fst V) as Hk' by (intros Hin; apply Hk; by right).
  case_bool_decide; [by apply IH|].
  simpl. intros Hin. apply elem_of_cons in Hin as [->|Hin]; [apply Hk; left|by apply IH].
Qed.

Lemma remove_where_ext p q V :
  (forall k s sg, (k, s) ∈ V -> sg ∈ s -> p k sg = q k sg) -> remove_where p V = remove_where q V.
Proof.
  induction V as [|[k s] V IH]; intros H; [done|]. rewrite !remove_where_cons. simpl.
  rewrite (filter_ext' (fun sg => negb (p k sg)) (fun sg => negb (q k sg))).
  - rewrite IH; [done|]. intros k' s' sg Hin Hsg. apply (H k' s'); [by right|done].
  - intros sg Hsg. by rewrite (H k s sg) by (done || left).
Qed.

Lemma remove_where_compose p q V :
  remove_where q (remove_where p V) = remove_where (fun k sg => p k sg || q k sg) V.
Proof.
  induction V as [|[k s] V IH]; [done|]. rewrite !remove_where_cons. simpl.
  case_bool_decide as H1; case_bool_decide as H2.
  - done.
  - exfalso. apply H2. rewrite (filter_ext' _ (fun a => negb (p k a) && negb (q k a))).
    + by rewrite <- filter_filter', H1.
    + intros a _. by destruct (p k a), (q k a).
  - rewrite remove_where_cons. simpl. rewrite filter_filter'.
    rewrite (filter_ext' (fun a => negb (p k a) && negb (q k a)) (fun sg => negb (p k sg || q k sg))).
    + by rewrite bool_decide_true.
    + intros a _. by destruct (p k a), (q k a).
  - rewrite remove_where_cons. simpl. rewrite filter_filter'.
    rewrite (filter_ext' (fun a => negb (p k a) && negb (q k a)) (fun sg => negb (p k sg || q k sg))).
    + rewrite bool_decide_false by done. by rewrite IH.
    + intros a _. by destruct (p k a), (q k a).
Qed.

Lemma remove_where_canonical p V : canonical V -> canonical (remove_where p V).
Proof.
  intros [Hk Hne]. unfold keys_nodup in Hk. split.
  - unfold keys_nodup. induction V as [|[k s] V IH]; [constructor|].
    rewrite remove_where_cons. simpl. inversion Hk; subst. inversion Hne; subst.
    case_bool_decide; [by apply IH|]. simpl. constructor; [by apply remove_where_keys|by apply IH].
  - unfold remove_where. apply Forall_forall. intros e He.
    apply list_elem_of_In, filter_In in He as [_ He]. apply negb_true_iff, bool_decide_eq_false in He. done.
Qed.

Lemma remove_where_false V : canonical V -> remove_where (fun _ _ => false) V = V.
Proof.
  intros [Hk Hne]. induction V as [|[k s] V IH]; [done|].
  inversion Hk; subst. inversion Hne; subst. rewrite remove_where_cons. simpl.
  rewrite filter_true' by done. rewrite bool_decide_false by done. by rewrite IH.
Qed.

Lemma vget_in V k s : keys_nodup V -> vget k V = Some s <-> (k, s) ∈ V.
Proof.
  unfold keys_nodup. induction V as [|[k' s'] V IH]; simpl; intros Hk.
  - split; [done|]. intros H; inversion H.
  - inversion Hk as [|? ? Hnot Hk']; subst. destruct (String.eqb_spec k' k) as [->|Hne].
    + split.
      * intros [= ->]. left.
      * intros Hin. apply elem_of_cons in Hin as [[= ->]|Hin]; [done|].
        exfalso. apply Hnot. apply (HeapFacts.elem_of_map fst (k, s) V Hin).
    + rewrite IH by done. split; [intros; by right|].
      intros Hin. apply elem_of_cons in Hin as [[= -> ->]|Hin]; [done|done].
Qed.

Lemma vget_none V k : vget k V = None <-> k ∉ map fst V.
Proof.
  induction V as [|[k' s'] V IH]; simpl.
  - split; [intros _ H; inversion H|done].
  - destruct (String.eqb_spec k' k) as [->|Hne].
    + split; [done|]. intros H. exfalso. apply H. left.
    + rewrite IH. split.
      * intros H Hin. apply elem_of_cons in Hin as [->|Hin]; [done|by apply H].
      * intros H Hin. apply H. by right.
Qed.

Lemma vdel_notin c V : c ∉ map fst V -> vdel c V = V.
Proof.
  unfold vdel. intros Hc. apply filter_true'. intros [k s] Hin. simpl.
  destruct (String.eqb_spec k c) as [->|]; [|done].
  exfalso. apply Hc, (HeapFacts.elem_of_map fst (c, s) V Hin).
Qed.

Lemma vset_notin c s V : c ∉ map fst V -> vset c s V = V.
Proof.
  unfold vset. induction V as [|[k s'] V IH]; simpl; intros Hc; [done|].
  destruct (String.eqb_spec k c) as [->|]; [exfalso; apply Hc; left|].
  rewrite IH; [done|]. intros Hin; apply Hc; by right.
Qed.

(** One color of a sweep on a canonical value removes that color's hits. *)
Lemma v_sweep_color_rw hit c V acc :
  canonical V ->
  v_sweep_color hit c (V, acc) =
  (remove_where (fun k sg => String.eqb k c && hit sg) V,
   acc || match vget c V with Some s => existsb hit s | None => false end).
Proof.
  intros [Hk Hne]. unfold keys_nodup in Hk.
  induction V as [|[k s] V IH].
  - simpl. by rewrite orb_false_r.
  - inversion Hk as [|? ? Hnot Hk']; subst. inversion Hne as [|? ? Hs Hne']; subst.
    simpl in Hs. rewrite remove_where_cons. cbn zeta.
    destruct (String.eqb_spec k c) as [->|Hkc].
    + unfold v_sweep_color. cbn [vget]. rewrite String.eqb_refl.
      destruct s as [|sg0 s0]; [done|].
      change (fun sg => negb (true && hit sg)) with (fun sg => negb (hit sg)).
      rewrite (remove_where_ext _ (fun _ _ => false)).
      2:{ intros k' s' sg' Hin _. destruct (String.eqb_spec k' c) as [->|]; [|done].
          exfalso. apply Hnot, (HeapFacts.elem_of_map fst (c, s') V Hin). }
      rewrite remove_where_false by done.
      remember (List.filter (fun sg => negb (hit sg)) (sg0 :: s0)) as s' eqn:Ef.
      destruct s' as [|sg1 s1].
      * rewrite bool_decide_true by done. unfold vdel. simpl. rewrite String.eqb_refl. simpl.
        fold (vdel c V). by rewrite vdel_notin.
      * rewrite bool_decide_false by done. unfold vset. simpl. rewrite String.eqb_refl.
        fold (vset c (sg1 :: s1) V). by rewrite vset_notin.
    + assert (Hkc' : String.eqb k c = false) by (by apply String.eqb_neq).
      change (fun sg => negb (false && hit sg)) with (fun (_ : Segment) => true).
      rewrite (filter_true' _ s) by done.
      rewrite bool_decide_false by done.
      specialize (IH Hk' Hne'). unfold v_sweep_color in IH |- *. cbn [vget]. rewrite Hkc'.
      destruct (vget c V) as [[|sg0 s0]|] eqn:Eg.
      * injection IH as E1 E2. rewrite <- E1. simpl in *. congruence.
      * remember (List.filter (fun sg => negb (hit sg)) (sg0 :: s0)) as s' eqn:Ef.
        destruct s' as [|sg1 s1]; unfold vdel, vset in *; simpl; rewrite Hkc'; simpl;
          injection IH; intros; f_equal; congruence.
      * injection IH as E1 E2. rewrite <- E1. simpl in *. congruence.
Qed.

Lemma existsb_ext' {A} (f g : A -> bool) (l : list A) :
  (forall a, a ∈ l -> f a = g a) -> existsb f l = existsb g l.
Proof.
  induction l as [|a l IH]; simpl; intros H; [done|].
  rewrite (H a) by left. rewrite IH; [done|]. intros b Hb; apply H; by right.
Qed.

Lemma vget_rw_other hit c k V :
  canonical V -> k <> c ->
  vget k (remove_where (fun k' sg => String.eqb k' c && hit sg) V) = vget k V.
Proof.
  intros [Hk Hne] Hkc. unfold keys_nodup in Hk.
  induction V as [|[k' s] V IH]; [done|].
  inversion Hk; subst. inversion Hne as [|? ? Hs Hne']; subst. simpl in Hs.
  rewrite remove_where_cons. cbn zeta. simpl.
  destruct (String.eqb_spec k' c) as [->|Hk'c].
  - assert (String.eqb c k = false) as E by (apply String.eqb_neq; congruence).
    rewrite E. case_bool_decide; [by apply IH|]. simpl. rewrite E. by apply IH.
  - change (fun sg => negb (false && hit sg)) with (fun (_ : Segment) => true).
    rewrite (filter_true' _ s) by done. rewrite bool_decide_false by done. simpl.
    destruct (String.eqb k' k); [done|]. by apply IH.
Qed.

Lemma v_sweep_keys_rw hit ks : forall V acc,
  NoDup ks -> canonical V ->
  v_sweep_keys hit ks (V, acc) =
  (remove_where (fun k sg => existsb (String.eqb k) ks && hit sg) V,
   acc || existsb (fun k => match vget k V with Some s => existsb hit s | None => false end) ks).
Proof.
  induction ks as [|c ks IH]; intros V acc Hnd Hcan.
  - unfold v_sweep_keys. simpl. rewrite orb_false_r.
    change (fun (k : string) (sg : Segment) => false && hit sg) with
      (fun (_ : string) (_ : Segment) => false).
    by rewrite remove_where_false.
  - inversion Hnd as [|? ? Hc Hnd']; subst.
    change (v_sweep_keys hit (c :: ks) (V, acc)) with (v_sweep_keys hit ks (v_sweep_color hit c (V, acc))).
    rewrite v_sweep_color_rw by done. rewrite IH by (done || by apply remove_where_canonical).
    rewrite remove_where_compose. f_equal.
    + apply remove_where_ext. intros k s sg _ _.
      destruct (hit sg); [rewrite !andb_true_r|rewrite !andb_false_r]; done.
    + rewrite <- orb_assoc. f_equal. simpl. f_equal. apply existsb_ext'. intros k Hk.
      rewrite vget_rw_other; [done|done|]. intros ->. done.
Qed.

Lemma existsb_keys hit V :
  keys_nodup V ->
  existsb (fun k => match vget k V with Some s => existsb hit s | None => false end) (map fst V) =
  existsb (fun e => existsb hit e.2) V.
Proof.
  unfold keys_nodup. induction V as [|[k s] V IH]; simpl; intros Hk; [done|].
  inversion Hk as [|? ? Hnot Hk']; subst. rewrite String.eqb_refl. f_equal.
  rewrite <- IH by done. apply existsb_ext'. intros k' Hk'in.
  assert (String.eqb k k' = false) as E by (apply String.eqb_neq; intros ->; done).
  by rewrite E.
Qed.

(** A sweep over all colors on a canonical value removes every hit; its flag
    tells whether some segment was hit. *)
Lemma v_sweep_all_rw hit V :
  canonical V ->
  v_sweep_all hit V = (remove_where (fun _ sg => hit sg) V, existsb (fun e => existsb hit e.2) V).
Proof.
  intros Hcan. pose proof Hcan as [Hk _]. unfold v_sweep_all.
  rewrite v_sweep_keys_rw by done. simpl. rewrite existsb_keys by done. f_equal.
  apply remove_where_ext. intros k s sg Hin _.
  assert (existsb (String.eqb k) (map fst V) = true) as E.
  { apply existsb_exists. exists k. split; [|apply String.eqb_refl].
    apply list_elem_of_In, (HeapFacts.elem_of_map fst (k, s) V Hin). }
  by rewrite E.
Qed.

End ValueFacts.

(** ** The commit, step by step *)

Module CommitFacts.
Import StoreValue CommitSpec HeapFacts ValueFacts.

Lemma read_entries_assoc_set m es V c l s' :
  NoDup (map fst es) -> l ∉ map snd es -> read_entries m es = Some V ->
  read_entries (<[l := HArr s']> m) (assoc_set c l es) =
  Some (match vget c V with Some _ => vset c s' V | None => V ++ [(c, s')] end).
Proof.
  revert V; induction es as [|[k a] es IH]; simpl; intros V Hnd Hl HV.
  - inversion HV; subst. simpl. by rewrite lookup_insert_eq.
  - inversion Hnd as [|? ? Hnot Hnd']; subst.
    destruct (m !! a) as [[|s]|] eqn:Ea; try done.
    destruct (read_entries m es) as [V'|] eqn:Es; try done. inversion HV; subst V.
    assert (Hl' : l ∉ map snd es) by (intros Hin; apply Hl; by right).
    assert (Hla : l <> a) by (intros ->; apply Hl; left).
    simpl. destruct (String.eqb_spec k c) as [->|Hkc].
    + simpl. rewrite lookup_insert_eq, read_entries_insert_notin, Es by done.
      unfold vset. simpl. fold (vset c s' V').
      rewrite vset_notin; [done|]. by rewrite (read_entries_keys _ _ _ Es).
    + simpl. rewrite lookup_insert_ne by done. rewrite Ea.
      rewrite (IH V' Hnd' Hl' eq_refl).
      assert (String.eqb k c = false) as E by (by apply String.eqb_neq).
      by destruct (vget c V').
Qed.

Lemma assoc_set_snd c l es x : x ∈ map snd (assoc_set c l es) -> x = l \/ x ∈ map snd es.
Proof.
  induction es as [|[k a] es IH]; simpl; intros Hin.
  - apply list_elem_of_singleton in Hin. by left.
  - destruct (String.eqb k c); simpl in Hin; apply elem_of_cons in Hin as [->|Hin].
    + by left.
    + right. by right.
    + right. left.
    + destruct (IH Hin) as [|Hx]; [by left|right; by right].
Qed.

Lemma assoc_set_fst c l es x : x ∈ map fst (assoc_set c l es) -> x = c \/ x ∈ map fst es.
Proof.
  induction es as [|[k a] es IH]; simpl; intros Hin.
  - apply list_elem_of_singleton in Hin. by left.
  - destruct (String.eqb k c); simpl in Hin; apply elem_of_cons in Hin as [->|Hin].
    + right. left.
    + right. by right.
    + right. left.
    + destruct (IH Hin) as [|Hx]; [by left|right; by right].
Qed.

Lemma assoc_set_nodup_fst c l es : NoDup (map fst es) -> NoDup (map fst (assoc_set c l es)).
Proof.
  induction es as [|[k a] es IH]; simpl; intros Hnd.
  - constructor; [intros H; inversion H|constructor].
  - inversion Hnd as [|? ? Hnot Hnd']; subst.
    destruct (String.eqb_spec k c) as [->|Hkc]; simpl; constructor; try done.
    + intros Hin. destruct (assoc_set_fst c l es k Hin) as [->|]; done.
    + by apply IH.
Qed.

Lemma assoc_set_nodup_snd c l es :
  NoDup (map snd es) -> l ∉ map snd es -> NoDup (map snd (assoc_set c l es)).
Proof.
  induction es as [|[k a] es IH]; simpl; intros Hnd Hl.
  - constructor; [intros H; inversion H|constructor].
  - inversion Hnd as [|? ? Hnot Hnd']; subst.
    assert (Hl' : l ∉ map snd es) by (intros Hin; apply Hl; by right).
    destruct (String.eqb k c); simpl; constructor; try done.
    + intros Hin. destruct (assoc_set_snd c l es a Hin) as [->|]; [apply Hl; left|done].
    + by apply IH.
Qed.

Lemma assoc_set_forall (P : loc -> Prop) c l es :
  Forall (fun e => P e.2) es -> P l -> Forall (fun e => P e.2) (assoc_set c l es).
Proof.
  induction 1 as [|[k a] es Ha Hes IH]; simpl; intros Hl.
  - by repeat constructor.
  - destruct (String.eqb k c); constructor; try done. by apply IH.
Qed.

Lemma appendSegment_spec t h o es V col sg :
  heap_wf h -> (t <= top h)%nat -> owned t h o es -> read_entries (mem h) es = Some V ->
  exists h' es',
    DragCommit.appendSegment o col sg h = Some (tt, h') /\
    owned t h' o es' /\ read_entries (mem h') es' = Some (append_segment col sg V) /\
    heap_wf h' /\ (forall l, (l < t)%nat -> mem h' !! l = mem h !! l) /\ (top h <= top h')%nat.
Proof.
  intros Hwf Ht Hown HV. pose proof Hown as (Hto & Ho & Hnd1 & Hnd2 & Hall).
  assert (Ho_lt : (o < top h)%nat) by exact (wf_lookup_lt _ _ _ Hwf Ho).
  assert (Hfresh : top h ∉ map snd es).
  { apply (forall_notin_snd (fun l => (l < top h)%nat)); [|lia].
    exact (read_entries_lt _ _ _ Hwf HV). }
  assert (Hexist : exists s, (match assoc_get col es with Some a => arr_get a | None => ret [] end) h
            = Some (s, h) /\ match vget col V with Some s0 => s = s0 | None => s = [] end).
  { pose proof (read_entries_get _ _ _ col HV) as Hg.
    destruct (assoc_get col es) as [a|].
    - destruct Hg as (s & Ha & Hv). exists s. unfold arr_get, load. rewrite bind_run, Ha.
      cbn. by rewrite Hv.
    - exists []. rewrite Hg. done. }
  destruct Hexist as (s & Hs & Hsv).
  unfold DragCommit.appendSegment, obj_get, obj_entries, load.
  rewrite !bind_run, Ho. cbn. rewrite bind_run, Hs. rewrite bind_run. unfold alloc at 1. cbn.
  unfold obj_set, obj_entries, load, store. rewrite !bind_run. cbn.
  rewrite lookup_insert_ne by lia. rewrite Ho. cbn. rewrite lookup_insert_ne by lia. rewrite Ho.
  eexists _, (assoc_set col (top h) es). split; [reflexivity|]. unfold owned, heap_wf. cbn.
  assert (Ho_not : o ∉ map snd (assoc_set col (top h) es)).
  { intros Hin. destruct (assoc_set_snd _ _ _ _ Hin) as [->|Hin']; [lia|].
    exact (obj_not_arr _ _ _ _ _ HV Ho Hin'). }
  split; [|split; [|split; [|split]]].
  - split; [done|]. split; [by rewrite lookup_insert_eq|]. split; [by apply assoc_set_nodup_fst|].
    split; [by apply assoc_set_nodup_snd|]. apply assoc_set_forall; [done|lia].
  - cbn. rewrite read_entries_insert_notin by done.
    rewrite (read_entries_assoc_set _ _ _ _ _ _ Hnd1 Hfresh HV).
    unfold append_segment. destruct (vget col V); by subst.
  - intros l Hl. cbn in *. rewrite !lookup_insert_ne by lia. apply Hwf. lia.
  - intros l Hl. cbn. rewrite !lookup_insert_ne by lia. done.
  - cbn. lia.
Qed.

(** ** The removal tests of the code against the spec's predicates *)

Lemma list_last_default {A} (b d d' : A) l : List.last (b :: l) d = List.last (b :: l) d'.
Proof. revert b; induction l as [|c l IH]; intros b; [done|]. exact (IH c). Qed.

Lemma last_cons_some {A} (a : A) l : last (a :: l) = Some (List.last (a :: l) a).
Proof.
  revert a; induction l as [|b l IH]; intros a; [done|].
  change (last (a :: b :: l)) with (last (b :: l)). rewrite IH.
  f_equal. exact (list_last_default b b a l).
Qed.

Lemma endpoint_terminates (test : Key -> bool) (P : Cell -> bool) sg :
  (forall c, test (cellKey (x c) (y c)) = P c) ->
  DragCommit.endpoint_test test sg = terminates_where P sg.
Proof.
  intros H. unfold DragCommit.endpoint_test, terminates_where, first_cell, last_cell.
  destruct (cells sg) as [|f cs]; [done|]. rewrite last_cons_some. simpl. by rewrite !H.
Qed.

Lemma key_eqb_same (c d : Cell) :
  key_eqb (DragCommit.keyOf c) (DragCommit.keyOf d) = same_cell c d.
Proof.
  unfold key_eqb, same_cell, DragCommit.keyOf, cellKey. apply bool_decide_ext.
  split; [intros [= -> ->]|intros [-> ->]]; done.
Qed.

Lemma key_mem_map (c : Cell) (p : list Cell) :
  key_mem (DragCommit.keyOf c) (map DragCommit.keyOf p) = existsb (same_cell c) p.
Proof.
  induction p as [|d p IH]; [done|]. unfold key_mem in *. simpl. by rewrite key_eqb_same, IH.
Qed.

Lemma intersects_meets (p : list Cell) sg :
  DragCommit.intersects (map DragCommit.keyOf p) sg = meets p sg.
Proof.
  unfold DragCommit.intersects, meets. apply existsb_ext'. intros c _.
  exact (key_mem_map c p).
Qed.

Lemma str_is_decide o s : str_is o s = bool_decide (o = Some s).
Proof.
  destruct o as [s'|]; simpl; [|done].
  destruct (String.eqb_spec s' s) as [->|Hne]; [by rewrite bool_decide_true|].
  rewrite bool_decide_false; [done|]. intros [= ->]. done.
Qed.

(** ** The sweeps on a canonical store *)

Lemma sweep_color_rw_spec t h o es W hit c acc :
  owned t h o es -> read_entries (mem h) es = Some W -> canonical W ->
  exists h' es' b,
    DragCommit.sweep_color o hit c acc h = Some (b, h') /\
    owned t h' o es' /\
    read_entries (mem h') es' = Some (remove_where (fun k sg => String.eqb k c && hit sg) W) /\
    frame t h h'.
Proof.
  intros Hown HW Hcan.
  destruct (sweep_color_spec t h o es W hit c acc Hown HW) as (h' & es' & Hrun & Hown' & HW' & Hfr).
  rewrite v_sweep_color_rw in Hrun, HW' by done.
  eexists h', es', _. done.
Qed.

Lemma sweep_all_rw_spec t h o es W hit :
  owned t h o es -> read_entries (mem h) es = Some W -> canonical W ->
  exists h' es',
    DragCommit.sweep_all o hit h = Some (existsb (fun e => existsb hit e.2) W, h') /\
    owned t h' o es' /\
    read_entries (mem h') es' = Some (remove_where (fun _ sg => hit sg) W) /\
    frame t h h'.
Proof.
  intros Hown HW Hcan.
  destruct (sweep_all_spec t h o es W hit Hown HW) as (h' & es' & Hrun & Hown' & HW' & Hfr).
  rewrite v_sweep_all_rw in Hrun, HW' by done.
  exists h', es'. done.
Qed.

Lemma clone_canonical V : keys_nodup V -> canonical (clone V).
Proof.
  intros Hk. split.
  - by apply nodup_map_filter.
  - unfold clone. apply Forall_forall. intros e He.
    apply list_elem_of_In, filter_In in He as [_ He]. by apply negb_true_iff, bool_decide_eq_false in He.
Qed.

Lemma frame_wf t h h' : frame t h h' -> heap_wf h -> heap_wf h'.
Proof.
  intros (_ & Hnone & Htop) Hwf l Hl. apply Hnone, Hwf. lia.
Qed.

Lemma map_copyCell_id (cs : list Cell) : map DragCommit.copyCell cs = cs.
Proof. induction cs as [|[cx cy] cs IH]; simpl; [done|]. by rewrite IH. Qed.

Lemma rw_congr p q W W' :
  (forall k sg, p k sg = q k sg) -> W = W' -> remove_where p W = remove_where q W'.
Proof. intros Hpq ->. apply remove_where_ext. intros; apply Hpq. Qed.

Lemma key_mem_self k ks : key_mem k (k :: ks) = true.
Proof. unfold key_mem, key_eqb. simpl. by rewrite bool_decide_true. Qed.

Ltac rw_areas :=
  repeat (apply rw_congr; [intros; f_equal; apply endpoint_terminates; intros; reflexivity|]);
  reflexivity.

Lemma commit_path_spec h P V session dots areas seed n :
  heap_wf h -> store_at h P V -> (2 <= length (path session))%nat ->
  exists h',
    DragCommit.commitDragWorklet P session dots areas seed n h =
      Some (DragCommit.mkResult (top h) true (n + 1), h') /\
    store_at h' (top h) (commit_path V session dots areas seed n) /\
    heap_wf h' /\ (forall l, (l < top h)%nat -> mem h' !! l = mem h !! l).
Proof.
  intros Hwf (es & Hes & Hnd & HV) Hlen.
  assert (Hk : keys_nodup V) by (unfold keys_nodup; by rewrite (read_entries_keys _ _ _ HV)).
  pose proof (clone_canonical V Hk) as Hcan1.
  destruct (clone_spec h P es V Hwf Hes Hnd HV) as (h1 & es1 & Hcl & Hown1 & HV1 & Hwf1 & Hag1 & Htop1).
  unfold DragCommit.commitDragWorklet, commit_path.
  destruct (path session) as [|start [|s2 rest]] eqn:Ep; [simpl in Hlen; lia|simpl in Hlen; lia|].
  rewrite bind_run, Hcl. cbn zeta.
  change ((length (start :: s2 :: rest) =? 1)%nat) with false. cbn iota beta.
  rewrite (last_cons_some start (s2 :: rest)).
  set (p := start :: s2 :: rest) in *.
  set (col := color session).
  rewrite !str_is_decide. unfold DragCommit.keyOf.
  change (head p) with (Some start). cbn iota beta.
  set (e := List.last p start).
  remember (if bool_decide (dots (cellKey (x start) (y start)) = Some col)
            then areas (cellKey (x start) (y start)) else None) as sA eqn:HsA.
  remember (if bool_decide (dots (cellKey (x e) (y e)) = Some col)
            then areas (cellKey (x e) (y e)) else None) as eA eqn:HeA.
  set (t := top h) in *.
  rewrite andb_false_l. cbn iota. rewrite bind_run.
  (* the start area *)
  set (W1 := match sA with
             | Some a => remove_where (fun k sg => String.eqb k col &&
                           DragCommit.endpoint_test (DragCommit.in_area areas a) sg) (clone V)
             | None => clone V
             end).
  match goal with |- context [match ?m h1 with Some _ => _ | None => None end] =>
    assert (Ph1 : exists (b : bool) (h2 : heap) es2, m h1 = Some (b, h2) /\ owned t h2 t es2 /\
              read_entries (mem h2) es2 = Some W1 /\ frame t h1 h2) end.
  { unfold W1. destruct sA as [a1|].
    - unfold DragCommit.removeSegmentsWithColorInArea. rewrite bind_run.
      destruct (sweep_color_rw_spec t h1 t es1 (clone V)
                  (DragCommit.endpoint_test (DragCommit.in_area areas a1))
                  col false Hown1 HV1 Hcan1) as (h2 & es2 & b2 & Hrun2 & Hown2 & HV2 & Hfr2).
      rewrite Hrun2. cbn. by exists (b2 || false), h2, es2.
    - exists false, h1, es1. split; [done|]. split; [done|]. split; [done|]. apply frame_refl. }
  destruct Ph1 as (b1 & h2 & es2 & Hrun2 & Hown2 & HV2 & Hfr2). rewrite Hrun2. cbn iota beta.
  assert (Hcan2 : canonical W1) by (unfold W1; destruct sA; [by apply remove_where_canonical|done]).
  (* the end area *)
  rewrite bind_run.
  set (W2 := match eA with
             | Some a =>
                 if negb (DragCommit.opt_Z_eqb eA sA)
                 then remove_where (fun k sg => String.eqb k col &&
                        DragCommit.endpoint_test (DragCommit.in_area areas a) sg) W1
                 else W1
             | None => W1
             end).
  match goal with |- context [match ?m h2 with Some _ => _ | None => None end] =>
    assert (Ph2 : exists (b : bool) (h3 : heap) es3, m h2 = Some (b, h3) /\ owned t h3 t es3 /\
              read_entries (mem h3) es3 = Some W2 /\ frame t h2 h3) end.
  { unfold W2. destruct eA as [a2|]; [destruct (negb (DragCommit.opt_Z_eqb (Some a2) sA))|].
    - unfold DragCommit.removeSegmentsWithColorInArea. rewrite bind_run.
      destruct (sweep_color_rw_spec t h2 t es2 W1
                  (DragCommit.endpoint_test (DragCommit.in_area areas a2))
                  col false Hown2 HV2 Hcan2) as (h3 & es3 & b3 & Hrun3 & Hown3 & HV3 & Hfr3).
      rewrite Hrun3. cbn. by exists (b3 || b1), h3, es3.
    - exists b1, h2, es2. split; [done|]. split; [done|]. split; [done|]. apply frame_refl.
    - exists b1, h2, es2. split; [done|]. split; [done|]. split; [done|]. apply frame_refl. }
  destruct Ph2 as (b2 & h3 & es3 & Hrun3 & Hown3 & HV3 & Hfr3). rewrite Hrun3. cbn iota beta.
  assert (Hcan3 : canonical W2).
  { unfold W2. destruct eA; [destruct (negb _); [by apply remove_where_canonical|done]|done]. }
  (* the dot endpoints *)
  rewrite bind_run.
  set (epk := (if truthy (dots (cellKey (x start) (y start))) then [cellKey (x start) (y start)] else []) ++
              (if truthy (dots (cellKey (x e) (y e))) then [cellKey (x e) (y e)] else [])).
  set (hasEK := key_mem (cellKey (x start) (y start)) epk || key_mem (cellKey (x e) (y e)) epk).
  set (W3 := if hasEK then remove_where (fun _ sg =>
                DragCommit.endpoint_test (fun k => key_mem k epk) sg) W2 else W2).
  match goal with |- context [match ?m h3 with Some _ => _ | None => None end] =>
    assert (Ph3 : exists (b : bool) (h4 : heap) es4, m h3 = Some (b, h4) /\ owned t h4 t es4 /\
              read_entries (mem h4) es4 = Some W3 /\ frame t h3 h4) end.
  { unfold W3. destruct hasEK.
    - unfold DragCommit.removeSegmentsWithEndpoints. rewrite bind_run.
      destruct (sweep_all_rw_spec t h3 t es3 W2
                  (DragCommit.endpoint_test (fun k => key_mem k epk))
                  Hown3 HV3 Hcan3) as (h4 & es4 & Hrun4 & Hown4 & HV4 & Hfr4).
      rewrite Hrun4. cbn. by eexists _, h4, es4.
    - exists b2, h3, es3. split; [done|]. split; [done|]. split; [done|]. apply frame_refl. }
  destruct Ph3 as (b3 & h4 & es4 & Hrun4 & Hown4 & HV4 & Hfr4). rewrite Hrun4. cbn iota beta.
  assert (Hcan4 : canonical W3) by (unfold W3; destruct hasEK; [by apply remove_where_canonical|done]).
  (* the cells of the path *)
  rewrite bind_run. unfold DragCommit.removeSegmentsIntersecting.
  destruct (sweep_all_rw_spec t h4 t es4 W3
              (DragCommit.intersects (map (fun c => cellKey (x c) (y c)) p))
              Hown4 HV4 Hcan4) as (h5 & es5 & Hrun5 & Hown5 & HV5 & Hfr5).
  rewrite Hrun5. cbn iota beta.
  set (W4 := remove_where (fun _ sg => DragCommit.intersects (map (fun c => cellKey (x c) (y c)) p) sg) W3) in *.
  (* the new segment *)
  rewrite map_copyCell_id, bind_run.
  assert (Hfr15 : frame t h1 h5) by
    (apply (frame_trans _ _ h4); [apply (frame_trans _ _ h3); [apply (frame_trans _ _ h2)|]|]; done).
  assert (Hwf5 : heap_wf h5) by (by apply (frame_wf t h1)).
  assert (Htop5 : (t <= top h5)%nat) by (destruct Hfr15 as (_ & _ & ->); lia).
  destruct (appendSegment_spec t h5 t es5 W4 col (mkSegment (DragCommit.segmentIdOf seed n) p)
              Hwf5 Htop5 Hown5 HV5) as (h6 & es6 & Hrun6 & Hown6 & HV6 & Hwf6 & Hag6 & _).
  rewrite Hrun6. cbn iota beta. rewrite ret_run.
  exists h6. split; [done|]. split; [|split; [done|]].
  2:{ intros l Hl. rewrite Hag6 by done. destruct Hfr15 as (Hag15 & _). rewrite Hag15 by done.
      by apply Hag1. }
  destruct Hown6 as (_ & Ho6 & Hnd6 & _). exists es6. split; [done|]. split; [done|].
  rewrite HV6. do 2 f_equal.
  unfold W4. apply rw_congr; [intros; apply intersects_meets|].
  unfold W3, hasEK, epk, W2, W1, DragCommit.opt_Z_eqb. clearbody W4 W3 W2 W1 hasEK epk.
  change (option_list (Some start) ++ option_list (Some e)) with [start; e].
  cbn [List.filter].
  destruct (truthy (dots (cellKey (x start) (y start)))) eqn:T1;
    destruct (truthy (dots (cellKey (x e) (y e)))) eqn:T2;
    cbn [app]; rewrite ?key_mem_self, ?orb_true_l, ?orb_true_r; cbn [key_mem existsb orb]; cbn iota;
    [apply rw_congr; [intros; apply endpoint_terminates; intros c; exact (key_mem_map c [start; e])|]
    |apply rw_congr; [intros; apply endpoint_terminates; intros c; exact (key_mem_map c [start])|]
    |apply rw_congr; [intros; apply endpoint_terminates; intros c; exact (key_mem_map c [e])|]
    |];
    destruct eA as [a2|]; destruct sA as [a1|];
    repeat match goal with |- context [bool_decide (Some ?a = Some ?b)] =>
      destruct (bool_decide (Some a = Some b)) end;
    cbn [negb]; cbn iota; rw_areas.
Qed.

(** ** The store given to commit *)

Lemma read_entries_agree m m' es :
  Forall (fun e => m' !! e.2 = m !! e.2) es -> read_entries m' es = read_entries m es.
Proof.
  induction 1 as [|[k a] es Ha Hes IH]; [done|]. simpl in *. by rewrite Ha, IH.
Qed.

Lemma store_at_agree h h' P V :
  heap_wf h -> store_at h P V -> (forall l, (l < top h)%nat -> mem h' !! l = mem h !! l) ->
  store_at h' P V.
Proof.
  intros Hwf (es & Hes & Hnd & HV) Hag. exists es.
  rewrite (Hag P (wf_lookup_lt _ _ _ Hwf Hes)). split; [done|]. split; [done|].
  rewrite (read_entries_agree (mem h)); [done|].
  eapply Forall_impl; [exact (read_entries_lt _ _ _ Hwf HV)|]. intros e He. by apply Hag.
Qed.

Lemma remove_where_clone p V : remove_where p (clone V) = remove_where p V.
Proof.
  induction V as [|[k s] V IH]; [done|]. unfold clone in *. simpl.
  case_bool_decide as Hs; simpl.
  - rewrite remove_where_cons, Hs. simpl. by rewrite IH.
  - rewrite !remove_where_cons. simpl. by rewrite IH.
Qed.

Lemma existsb_clone (f : Segment -> bool) V :
  existsb (fun e => existsb f e.2) (clone V) = existsb (fun e => existsb f e.2) V.
Proof.
  induction V as [|[k s] V IH]; [done|]. unfold clone in *. simpl.
  case_bool_decide as Hs; simpl; [subst; done|]. by rewrite IH.
Qed.

Lemma tap_test_ends_at start sg :
  DragCommit.endpoint_test (fun k => key_eqb k (DragCommit.keyOf start)) sg = ends_at start sg.
Proof. apply endpoint_terminates. intros c. exact (key_eqb_same c start). Qed.

Lemma commit_spec h P V session dots areas seed n :
  heap_wf h -> store_at h P V ->
  exists r h',
    DragCommit.commitDragWorklet P session dots areas seed n h = Some (r, h') /\
    store_at h' (DragCommit.paths r) (commit_value V session dots areas seed n).1.1 /\
    DragCommit.didChange r = (commit_value V session dots areas seed n).1.2 /\
    DragCommit.nextSegmentId r = (commit_value V session dots areas seed n).2 /\
    (DragCommit.didChange r = false -> DragCommit.paths r = P) /\
    (DragCommit.didChange r = true -> DragCommit.paths r = top h) /\
    heap_wf h' /\ (forall l, (l < top h)%nat -> mem h' !! l = mem h !! l).
Proof.
  intros Hwf Hst. pose proof Hst as (es & Hes & Hnd & HV).
  assert (Hk : keys_nodup V) by (unfold keys_nodup; by rewrite (read_entries_keys _ _ _ HV)).
  pose proof (clone_canonical V Hk) as Hcan1.
  destruct (path session) as [|start [|s2 rest]] eqn:Ep.
  - (* the empty path *)
    exists (DragCommit.mkResult P false n), h.
    unfold DragCommit.commitDragWorklet, commit_value. rewrite Ep. cbn.
    repeat split; done.
  - destruct (clone_spec h P es V Hwf Hes Hnd HV) as (h1 & es1 & Hcl & Hown1 & HV1 & Hwf1 & Hag1 & Htop1).
    unfold DragCommit.commitDragWorklet, commit_value. rewrite Ep.
    rewrite bind_run, Hcl. cbn zeta. cbn [length Nat.eqb].
    destruct (hasMoved session) eqn:Hm; cbn [negb andb]; cbn iota.
    + (* a one-cell drag *)
      eexists _, h1. split; [done|]. cbn.
      split; [by apply (store_at_agree h)|]. repeat split; try done.
    + (* a tap *)
      destruct (truthy (dots (DragCommit.keyOf start))) eqn:T; unfold DragCommit.keyOf in T |- *;
        rewrite T; cbn iota zeta.
      * rewrite bind_run. unfold DragCommit.removeSegmentsAtEndpoint.
        destruct (sweep_all_rw_spec (top h) h1 (top h) es1 (clone V)
                    (DragCommit.endpoint_test (fun k => key_eqb k (cellKey (x start) (y start))))
                    Hown1 HV1 Hcan1) as (h2 & es2 & Hrun2 & Hown2 & HV2 & Hfr2).
        rewrite Hrun2. rewrite ret_run.
        rewrite existsb_clone.
        rewrite (existsb_ext' _ (fun e => existsb (ends_at start) e.2)).
        2:{ intros e _. apply existsb_ext'. intros sg _. exact (tap_test_ends_at start sg). }
        eexists _, h2. split; [reflexivity|]. cbn [DragCommit.paths DragCommit.didChange DragCommit.nextSegmentId fst snd].
        assert (Hag2 : forall l, (l < top h)%nat -> mem h2 !! l = mem h !! l).
        { intros l Hl. destruct Hfr2 as (Hf & _). rewrite Hf by done. by apply Hag1. }
        assert (Hwf2 : heap_wf h2) by exact (frame_wf _ _ _ Hfr2 Hwf1).
        destruct (existsb (fun e => existsb (ends_at start) e.2) V).
        -- split.
           { exists es2. destruct Hown2 as (_ & Ho2 & Hnd2 & _). split; [done|]. split; [done|].
             rewrite HV2, remove_where_clone. f_equal. apply rw_congr; [|done].
             intros _ sg. exact (tap_test_ends_at start sg). }
           repeat split; done.
        -- split; [by apply (store_at_agree h)|]. repeat split; done.
      * eexists _, h1. split; [reflexivity|]. cbn.
        split; [by apply (store_at_agree h)|]. repeat split; done.
  - destruct (commit_path_spec h P V session dots areas seed n Hwf Hst) as (h' & Hrun & Hst' & Hwf' & Hag').
    { rewrite Ep. simpl. lia. }
    eexists _, h'. split; [exact Hrun|]. unfold commit_value. rewrite Ep. cbn.
    repeat split; done.
Qed.

End CommitFacts.

(** ** No self-overlap *)

Module OverlapFacts.
Import StoreValue CommitSpec HeapFacts ValueFacts CommitFacts.

Lemma share_cell_sym s1 s2 : share_cell s1 s2 -> share_cell s2 s1.
Proof. intros (c & H1 & H2). by exists c. Qed.

Lemma disjoint_cons a l :
  segments_disjoint (a :: l) <-> (forall b, b ∈ l -> ~ share_cell a b) /\ segments_disjoint l.
Proof.
  split.
  - intros H. split.
    + intros b Hb. apply list_elem_of_lookup_1 in Hb as [j Hj].
      exact (H 0%nat (S j) a b ltac:(lia) eq_refl Hj).
    + intros i j s1 s2 Hij Hi Hj. exact (H (S i) (S j) s1 s2 ltac:(lia) Hi Hj).
  - intros [Ha Hl] [|i] [|j] s1 s2 Hij Hi Hj; simpl in *.
    + lia.
    + injection Hi as <-. eapply Ha, list_elem_of_lookup_2; eauto.
    + injection Hj as <-. intros Hs. apply share_cell_sym in Hs. revert Hs.
      eapply Ha, list_elem_of_lookup_2; eauto.
    + apply (Hl i j); [lia|done|done].
Qed.

Lemma disjoint_filter (f : Segment -> bool) l :
  segments_disjoint l -> segments_disjoint (List.filter f l).
Proof.
  induction l as [|a l IH]; simpl; intros H; [done|].
  apply disjoint_cons in H as [Ha Hl]. destruct (f a); [|by apply IH].
  apply disjoint_cons. split; [|by apply IH].
  intros b Hb. apply Ha. apply list_elem_of_In, filter_In in Hb as [Hb _]. by apply list_elem_of_In.
Qed.

Lemma disjoint_snoc l s :
  segments_disjoint l -> (forall b, b ∈ l -> ~ share_cell b s) -> segments_disjoint (l ++ [s]).
Proof.
  induction l as [|a l IH]; simpl; intros H Hs.
  - intros [|i] [|j] s1 s2 Hij Hi Hj; simpl in *; try lia; rewrite ?lookup_nil in Hi, Hj; done.
  - apply disjoint_cons in H as [Ha Hl]. apply disjoint_cons. split.
    + intros b Hb. apply elem_of_app in Hb as [Hb|Hb]; [by apply Ha|].
      apply list_elem_of_singleton in Hb as ->. apply Hs. left.
    + apply IH; [done|]. intros b Hb. apply Hs. by right.
Qed.

Lemma in_remove_where p V c segs :
  (c, segs) ∈ remove_where p V ->
  exists s0, (c, s0) ∈ V /\ segs = List.filter (fun sg => negb (p c sg)) s0.
Proof.
  unfold remove_where. intros Hin.
  apply list_elem_of_In, filter_In in Hin as [Hin _]. apply in_map_iff in Hin as [[k s0] [Heq Hin]].
  simpl in Heq. injection Heq as -> <-. exists s0. split; [by apply list_elem_of_In|done].
Qed.

Lemma all_disjoint_remove_where p V : all_disjoint V -> all_disjoint (remove_where p V).
Proof.
  intros H c segs Hin. destruct (in_remove_where p V c segs Hin) as (s0 & Hs0 & ->).
  apply disjoint_filter. exact (H c s0 Hs0).
Qed.

Lemma all_disjoint_clone V : all_disjoint V -> all_disjoint (clone V).
Proof.
  intros H c segs Hin. apply (H c segs). unfold clone in Hin.
  apply list_elem_of_In, filter_In in Hin as [Hin _]. by apply list_elem_of_In.
Qed.

Lemma vget_some_in c V s : vget c V = Some s -> (c, s) ∈ V.
Proof.
  induction V as [|[k s'] V IH]; simpl; [done|].
  destruct (String.eqb_spec k c) as [->|_]; [intros [= ->]; left|intros H; right; by apply IH].
Qed.

Lemma in_vset c s' V k segs :
  (k, segs) ∈ vset c s' V -> (k, segs) ∈ V \/ (k = c /\ segs = s').
Proof.
  unfold vset. intros Hin. apply list_elem_of_In, in_map_iff in Hin as [[k0 s0] [Heq Hin]].
  simpl in Heq. destruct (String.eqb_spec k0 c) as [->|_].
  - right. by injection Heq as <- <-.
  - left. rewrite <- Heq. by apply list_elem_of_In.
Qed.

Lemma in_append_segment c sg V k segs :
  (k, segs) ∈ append_segment c sg V ->
  (k, segs) ∈ V \/ (k = c /\ exists s, (c, s) ∈ V /\ segs = s ++ [sg]) \/ (k = c /\ segs = [sg]).
Proof.
  unfold append_segment. destruct (vget c V) as [s|] eqn:Eg; intros Hin.
  - apply in_vset in Hin as [Hin|[-> ->]]; [by left|].
    right; left. split; [done|]. exists s. split; [by apply vget_some_in|done].
  - apply elem_of_app in Hin as [Hin|Hin]; [by left|].
    apply list_elem_of_singleton in Hin. injection Hin as -> ->. by right; right.
Qed.

Lemma disjoint_single s : segments_disjoint [s].
Proof. intros [|i] [|j] s1 s2 Hij Hi Hj; simpl in *; try lia; rewrite ?lookup_nil in Hi, Hj; done. Qed.

Lemma all_disjoint_append_segment c sg V :
  all_disjoint V -> (forall k segs b, (k, segs) ∈ V -> b ∈ segs -> ~ share_cell b sg) ->
  all_disjoint (append_segment c sg V).
Proof.
  intros H Hsg k segs Hin.
  destruct (in_append_segment c sg V k segs Hin) as [Hin'|[[-> (s & Hs & ->)]|[-> ->]]].
  - exact (H k segs Hin').
  - apply disjoint_snoc; [exact (H c s Hs)|]. intros b Hb. exact (Hsg c s b Hs Hb).
  - apply disjoint_single.
Qed.

Lemma removed_not_hit q V c segs b :
  (c, segs) ∈ remove_where q V -> b ∈ segs -> q c b = false.
Proof.
  intros Hin Hb. destruct (in_remove_where q V c segs Hin) as (s0 & _ & ->).
  apply list_elem_of_In, filter_In in Hb as [_ Hb]. by apply negb_true_iff in Hb.
Qed.

Lemma same_cell_refl c : same_cell c c = true.
Proof. unfold same_cell. by apply bool_decide_true. Qed.

Lemma meets_share p sg i : share_cell sg (mkSegment i p) -> meets p sg = true.
Proof.
  intros (c & Hc1 & Hc2). unfold meets. apply existsb_exists. exists c.
  split; [by apply list_elem_of_In|]. apply existsb_exists. exists c.
  split; [by apply list_elem_of_In|]. apply same_cell_refl.
Qed.

Lemma no_self_overlap_all_disjoint V : keys_nodup V -> no_self_overlap V -> all_disjoint V.
Proof. intros Hk H c segs Hin. apply (H c segs). by apply vget_in. Qed.

Lemma all_disjoint_no_self_overlap V : all_disjoint V -> no_self_overlap V.
Proof. intros H c segs Hg. apply (H c segs). by apply vget_some_in. Qed.

Lemma all_disjoint_commit_path V session dots areas seed n :
  all_disjoint V -> all_disjoint (commit_path V session dots areas seed n).
Proof.
  intros H. unfold commit_path. cbv zeta. apply all_disjoint_append_segment.
  - apply all_disjoint_remove_where.
    repeat first
      [ apply all_disjoint_remove_where
      | apply all_disjoint_clone
      | match goal with |- all_disjoint (match ?x with _ => _ end) => destruct x end ];
      exact H.
  - intros k segs b Hin Hb Hs. apply meets_share in Hs.
    rewrite (removed_not_hit _ _ k segs b Hin Hb) in Hs. done.
Qed.

Lemma all_disjoint_commit_value V session dots areas seed n :
  all_disjoint V -> all_disjoint (commit_value V session dots areas seed n).1.1.
Proof.
  intros H. unfold commit_value.
  destruct (path session) as [|c [|c2 rest]]; simpl; [done| |by apply all_disjoint_commit_path].
  destruct (hasMoved session); [done|]. destruct (truthy _); [|done].
  destruct (existsb _ V); [by apply all_disjoint_remove_where|done].
Qed.

End OverlapFacts.

(** ** The new segment of a path commit *)

Module RedrawFacts.
Import StoreValue CommitSpec OverlapFacts.

Lemma vget_vset_same c s s0 V : vget c V = Some s0 -> vget c (vset c s V) = Some s.
Proof.
  induction V as [|[k s'] V IH]; simpl; [done|]. unfold vset in *. simpl.
  destruct (String.eqb_spec k c) as [->|Hne]; simpl.
  - by rewrite String.eqb_refl.
  - intros H. apply String.eqb_neq in Hne. rewrite Hne. by apply IH.
Qed.

Lemma vget_app_none c s V : vget c V = None -> vget c (V ++ [(c, s)]) = Some s.
Proof.
  induction V as [|[k s'] V IH]; simpl.
  - by rewrite String.eqb_refl.
  - destruct (String.eqb k c); [done|]. exact IH.
Qed.

Lemma vget_append_segment c sg V : exists segs, vget c (append_segment c sg V) = Some (segs ++ [sg]).
Proof.
  unfold append_segment. destruct (vget c V) as [s|] eqn:Eg.
  - exists s. by apply (vget_vset_same c _ s).
  - exists []. by apply vget_app_none.
Qed.

Lemma commit_path_last V session dots areas seed n :
  exists segs, vget (color session) (commit_path V session dots areas seed n) =
    Some (segs ++ [mkSegment (DragCommit.segmentIdOf seed n) (path session)]).
Proof. unfold commit_path. cbv zeta. apply vget_append_segment. Qed.

Lemma commit_path_meets V session dots areas seed n k segs b :
  (k, segs) ∈ commit_path V session dots areas seed n -> b ∈ segs ->
  meets (path session) b = true ->
  k = color session /\ b = mkSegment (DragCommit.segmentIdOf seed n) (path session).
Proof.
  unfold commit_path. cbv zeta. intros Hin Hb Hm.
  apply in_append_segment in Hin as [Hin|[[-> (s & Hs & ->)]|[-> ->]]].
  - rewrite (removed_not_hit _ _ k segs b Hin Hb) in Hm. done.
  - apply elem_of_app in Hb as [Hb|Hb].
    + rewrite (removed_not_hit _ _ _ s b Hs Hb) in Hm. done.
    + by apply list_elem_of_singleton in Hb.
  - by apply list_elem_of_singleton in Hb.
Qed.

End RedrawFacts.

(** ** Segment ids along a sequence of commits *)

Module RunFacts.
Import StoreValue CommitSpec CommitRuns HeapFacts ValueFacts CommitFacts.

Lemma segmentIdOf_inj seed m1 m2 :
  DragCommit.segmentIdOf seed m1 = DragCommit.segmentIdOf seed m2 -> m1 = m2.
Proof.
  unfold DragCommit.segmentIdOf. intros H.
  apply (inj (String.app _)) in H. apply (inj (String.app _)) in H.
  apply (inj (String.app _)) in H. by apply (inj pretty) in H.
Qed.

Lemma created_ids_from seed n ss :
  Forall (fun i => exists m, n <= m /\ i = DragCommit.segmentIdOf seed m) (created_ids seed n ss).
Proof.
  revert n; induction ss as [|s ss IH]; intros n; cbn [created_ids]; [constructor|].
  destruct (Nat.leb 2 (length (path s))).
  - constructor; [exists n; split; [lia|done]|].
    eapply Forall_impl; [apply IH|]. intros i (m & Hm & ->). exists m. split; [lia|done].
  - apply IH.
Qed.

Lemma created_ids_nodup seed n ss : NoDup (created_ids seed n ss).
Proof.
  revert n; induction ss as [|s ss IH]; intros n; cbn [created_ids]; [constructor|].
  destruct (Nat.leb 2 (length (path s))); [|apply IH].
  constructor; [|apply IH].
  intros Hin. pose proof (created_ids_from seed (n + 1) ss) as HF.
  rewrite Forall_forall in HF. destruct (HF _ Hin) as (m & Hm & Heq).
  apply segmentIdOf_inj in Heq. lia.
Qed.

Lemma commit_counter V session dots areas seed n :
  (commit_value V session dots areas seed n).2 =
  if Nat.leb 2 (length (path session)) then n + 1 else n.
Proof.
  unfold commit_value. destruct (path session) as [|c [|c2 rest]]; simpl; [done| |done].
  destruct (hasMoved session); [done|]. destruct (truthy _); [|done]. by destruct (existsb _ V).
Qed.

Lemma commits_spec gs : forall h P V seed n,
  heap_wf h -> store_at h P V ->
  exists rs h',
    commits P gs seed n h = Some (rs, h') /\
    map DragCommit.nextSegmentId rs = expected_counters n (map gesture_session gs).
Proof.
  induction gs as [|[[session dots] areas] gs IH]; intros h P V seed n Hwf Hst.
  - exists [], h. done.
  - destruct (commit_spec h P V session dots areas seed n Hwf Hst)
      as (r & h1 & Hrun & Hst1 & _ & Hn & _ & _ & Hwf1 & _).
    destruct (IH h1 _ _ seed (DragCommit.nextSegmentId r) Hwf1 Hst1) as (rs & h2 & Hrun2 & Hns).
    exists (r :: rs), h2. simpl. rewrite bind_run, Hrun, bind_run, Hrun2. split; [done|].
    rewrite Hn, commit_counter in Hns |- *. unfold gesture_session at 1. simpl. by rewrite Hns.
Qed.

Lemma filter_submseteq {A} (f : A -> bool) (l : list A) : List.filter f l ⊆+ l.
Proof.
  induction l as [|a l IH]; simpl; [done|].
  destruct (f a); [by apply submseteq_skip|by apply submseteq_cons].
Qed.

Lemma store_segments_clone V : store_segments (clone V) = store_segments V.
Proof.
  induction V as [|[k s] V IH]; [done|]. unfold clone, store_segments in *. simpl.
  case_bool_decide as Hs; simpl; [subst; done|]. by rewrite IH.
Qed.

Lemma store_segments_remove_where p V : store_segments (remove_where p V) ⊆+ store_segments V.
Proof.
  induction V as [|[k s] V IH]; [done|]. rewrite remove_where_cons. cbv zeta.
  unfold store_segments in *. case_bool_decide as Hs; simpl.
  - by apply submseteq_inserts_l.
  - apply submseteq_app; [apply filter_submseteq|exact IH].
Qed.

Lemma store_segments_vset_append c s sg V :
  NoDup (map fst V) -> vget c V = Some s ->
  store_segments (vset c (s ++ [sg]) V) ⊆+ sg :: store_segments V.
Proof.
  induction V as [|[k s0] V IH]; [done|]. intros Hnd Hg. cbn [map fst] in Hnd.
  apply NoDup_cons in Hnd as [Hk Hnd]. cbn [vget] in Hg.
  unfold store_segments in *. unfold vset in *. cbn [map fst snd concat].
  destruct (String.eqb_spec k c) as [->|Hne].
  - injection Hg as ->. cbn [snd]. fold (vset c (s ++ [sg]) V). rewrite (vset_notin c _ V Hk).
    rewrite <- app_assoc. cbn [app]. apply Permutation_submseteq.
    symmetry. apply Permutation_middle.
  - cbn [snd]. transitivity (s0 ++ sg :: concat (map snd V)).
    + apply submseteq_app; [done|]. by apply IH.
    + apply Permutation_submseteq. symmetry. apply Permutation_middle.
Qed.

Lemma store_segments_append c sg V :
  keys_nodup V -> store_segments (append_segment c sg V) ⊆+ sg :: store_segments V.
Proof.
  intros Hk. unfold append_segment. destruct (vget c V) as [s|] eqn:Eg.
  - by apply store_segments_vset_append.
  - unfold store_segments. rewrite map_app, concat_app. cbn [map snd concat]. rewrite ?app_nil_r.
    apply Permutation_submseteq. symmetry. apply Permutation_cons_append.
Qed.

Lemma commit_path_adds V session dots areas seed n : keys_nodup V ->
  store_segments (commit_path V session dots areas seed n) ⊆+
    mkSegment (DragCommit.segmentIdOf seed n) (path session) :: store_segments V.
Proof.
  intros Hk. unfold commit_path. cbv zeta.
  match goal with |- store_segments (append_segment _ _ ?W) ⊆+ _ =>
    assert (HW : canonical W /\ store_segments W ⊆+ store_segments V) end.
  { assert (H0 : canonical (clone V) /\ store_segments (clone V) ⊆+ store_segments V)
      by (split; [by apply clone_canonical|by rewrite store_segments_clone]).
    assert (Hstep : forall p W, canonical W /\ store_segments W ⊆+ store_segments V ->
              canonical (remove_where p W) /\ store_segments (remove_where p W) ⊆+ store_segments V).
    { intros p W [Hc Hs]. split; [by apply remove_where_canonical|].
      etrans; [apply store_segments_remove_where|exact Hs]. }
    repeat case_match; repeat apply Hstep; exact H0. }
  destruct HW as [[HWk _] HWs]. etrans; [apply store_segments_append; exact HWk|].
  by apply submseteq_skip.
Qed.

Lemma commit_value_adds V session dots areas seed n : keys_nodup V ->
  let W := (commit_value V session dots areas seed n).1.1 in
  if Nat.leb 2 (length (path session)) then
    (exists segs, vget (color session) W =
       Some (segs ++ [mkSegment (DragCommit.segmentIdOf seed n) (path session)])) /\
    store_segments W ⊆+ mkSegment (DragCommit.segmentIdOf seed n) (path session) :: store_segments V
  else store_segments W ⊆+ store_segments V.
Proof.
  intros Hk W. subst W. pose proof (RedrawFacts.commit_path_last V session dots areas seed n) as Hl.
  pose proof (commit_path_adds V session dots areas seed n Hk) as Ha.
  unfold commit_value. destruct (path session) as [|c [|c2 rest]]; cbn [length Nat.leb fst].
  - reflexivity.
  - destruct (hasMoved session); cbn [fst]; [reflexivity|]. destruct (truthy _); cbn [fst]; [|reflexivity].
    destruct (existsb _ V); [apply store_segments_remove_where|reflexivity].
  - split; [exact Hl|exact Ha].
Qed.

Lemma read_entries_incl m m' es V :
  (forall l v, m !! l = Some v -> m' !! l = Some v) ->
  read_entries m es = Some V -> read_entries m' es = Some V.
Proof.
  intros Hi. revert V; induction es as [|[k a] es IH]; intros V H; [done|]. cbn [read_entries] in *.
  destruct (m !! a) as [v|] eqn:Ea; [|discriminate]. rewrite (Hi _ _ Ea).
  destruct v; try discriminate. destruct (read_entries m es) eqn:Er; [|discriminate].
  by rewrite (IH _ eq_refl).
Qed.

Lemma store_at_incl h h' P V :
  store_at h P V -> (forall l v, mem h !! l = Some v -> mem h' !! l = Some v) -> store_at h' P V.
Proof.
  intros (es & Hes & Hnd & HV) Hi. exists es. split; [by apply Hi|]. split; [done|].
  by apply (read_entries_incl (mem h)).
Qed.

Lemma commits_stores gs : forall h P V seed n,
  heap_wf h -> store_at h P V ->
  exists rs h' Ws,
    commits P gs seed n h = Some (rs, h') /\
    map DragCommit.nextSegmentId rs = expected_counters n (map gesture_session gs) /\
    Forall2 (fun r W => store_at h' (DragCommit.paths r) W) rs Ws /\
    adds_along V (map gesture_session gs) Ws (created_ids seed n (map gesture_session gs)) /\
    (forall l v, mem h !! l = Some v -> mem h' !! l = Some v).
Proof.
  induction gs as [|[[session dots] areas] gs IH]; intros h P V seed n Hwf Hst.
  - exists [], h, []. repeat split; auto.
  - pose proof Hst as (es & _ & Hnd0 & HV).
    assert (Hk : keys_nodup V) by (unfold keys_nodup; by rewrite (read_entries_keys _ _ _ HV)).
    destruct (commit_spec h P V session dots areas seed n Hwf Hst)
      as (r & h1 & Hrun & Hst1 & _ & Hn & _ & _ & Hwf1 & Hag).
    assert (Hi1 : forall l v, mem h !! l = Some v -> mem h1 !! l = Some v).
    { intros l v Hl. rewrite (Hag l (wf_lookup_lt _ _ _ Hwf Hl)). exact Hl. }
    destruct (IH h1 _ _ seed (DragCommit.nextSegmentId r) Hwf1 Hst1)
      as (rs & h2 & Ws & Hrun2 & Hns & HF & Had & Hi2).
    exists (r :: rs), h2, ((commit_value V session dots areas seed n).1.1 :: Ws).
    split; [simpl; rewrite bind_run, Hrun, bind_run, Hrun2; done|].
    split.
    { cbn [map]. rewrite Hn, commit_counter in Hns |- *. unfold gesture_session at 1. simpl. by rewrite Hns. }
    split; [constructor; [exact (store_at_incl _ _ _ _ Hst1 Hi2)|exact HF]|].
    split; [|intros l v Hl; apply Hi2, Hi1, Hl].
    pose proof (commit_value_adds V session dots areas seed n Hk) as Hadd. cbv zeta in Hadd.
    rewrite Hn, commit_counter in Had.
    cbn [map]. change (gesture_session (session, dots, areas)) with session.
    cbn [adds_along created_ids].
    revert Had Hadd. destruct (Nat.leb 2 (length (path session))); intros Had Hadd.
    + destruct Hadd as [Hl Hs]. split; [exact Hl|]. split; [exact Hs|exact Had].
    + split; [exact Hadd|exact Had].
Qed.

End RunFacts.

(** ** The splice loops of the controller *)

Module SpliceFacts.
Import StoreValue CommitSpec HeapFacts ValueFacts CommitFacts.

Section Splice.
Variables (h : heap) (a : loc) (s : list Segment) (hit : Segment -> bool).
Hypothesis (Ha : mem h !! a = Some (HArr s)).

Local Abbreviation keep := (fun sg => negb (hit sg)).
Local Abbreviation F n := (List.filter keep (drop n s)).
Local Abbreviation H_at n := (mkHeap (<[a := HArr (take n s ++ F n)]> (mem h)) (top h)).

Lemma splice_step m sm acc :
  s !! m = Some sm ->
  GestureController.splice_body a hit m acc (H_at (S m)) =
  Some (if hit sm then true else acc, H_at m).
Proof using Ha.
  intros Hm.
  assert (Hlt : (m < length s)%nat) by (apply lookup_lt_is_Some; eauto).
  assert (Hcur : (take (S m) s ++ F (S m)) !! m = Some sm).
  { rewrite lookup_app_l by (rewrite length_take; lia). rewrite lookup_take_lt by lia. exact Hm. }
  assert (HF := filter_drop_cons keep s m sm Hm).
  unfold GestureController.splice_body, arr_get, load, store, mbind, M_bind, ret, mret, M_ret.
  cbn. rewrite lookup_insert_eq. cbn. rewrite Hcur.
  destruct (hit sm) eqn:Hhit; cbn in HF; rewrite ?Hhit in HF; cbn in HF.
  - cbn. rewrite lookup_insert_eq. cbn. rewrite insert_insert_eq.
    rewrite splice1_take_drop.
    assert (Htk : take m (take (S m) s ++ F (S m)) = take m s).
    { rewrite take_app_le by (rewrite length_take; lia). rewrite take_take. f_equal. lia. }
    assert (Hdr : drop (S m) (take (S m) s ++ F (S m)) = F (S m)).
    { apply drop_app_length'. rewrite length_take. lia. }
    by rewrite Htk, Hdr, <- HF.
  - assert (Heq : take (S m) s ++ F (S m) = take m s ++ F m).
    { rewrite (take_S_r s m sm Hm), HF, <- app_assoc. done. }
    by rewrite Heq.
Qed.

Lemma splice_loop m acc :
  (S m <= length s)%nat ->
  for_down (S m) acc (GestureController.splice_body a hit) (H_at (S m)) =
  Some (acc || existsb hit (take (S m) s), H_at 0).
Proof using Ha.
  revert acc; induction m as [|m IH]; intros acc Hle.
  - destruct (lookup_lt_is_Some_2 s 0 ltac:(lia)) as [s0 Hs0].
    simpl for_down. rewrite bind_run. rewrite (splice_step 0 s0 acc Hs0). simpl.
    rewrite ret_run. rewrite (take_S_r s 0 s0 Hs0), take_0. simpl.
    destruct (hit s0), acc; done.
  - destruct (lookup_lt_is_Some_2 s (S m) ltac:(lia)) as [sm Hsm].
    change (for_down (S (S m)) acc (GestureController.splice_body a hit))
      with (GestureController.splice_body a hit (S m) acc ≫=
            (fun acc' => for_down (S m) acc' (GestureController.splice_body a hit))).
    rewrite bind_run, (splice_step (S m) sm acc Hsm).
    rewrite IH by lia. rewrite (take_S_r s (S m) sm Hsm), existsb_app. simpl.
    f_equal. f_equal. destruct (hit sm), acc, (existsb hit (take (S m) s)); done.
Qed.

End Splice.

Lemma splice_color_spec t h o es V hit c acc :
  owned t h o es -> read_entries (mem h) es = Some V ->
  exists h' es',
    GestureController.splice_color o hit c acc h = Some ((v_sweep_color hit c (V, acc)).2, h') /\
    owned t h' o es' /\ read_entries (mem h') es' = Some (v_sweep_color hit c (V, acc)).1 /\
    frame t h h'.
Proof.
  intros (Hto & Ho & Hk & Hs & Ht) HV.
  pose proof (read_entries_get _ _ _ c HV) as Hg.
  unfold GestureController.splice_color, obj_get, obj_entries. rewrite !bind_run.
  unfold load at 1. rewrite Ho. cbn.
  destruct (assoc_get c es) as [a|] eqn:Hget.
  2:{ exists h, es. unfold v_sweep_color. rewrite Hg. split; [done|].
      split; [repeat split; done|]. split; [done|]. apply frame_refl. }
  destruct Hg as (s & Ha & Hvs).
  rewrite bind_run. unfold arr_get at 1. rewrite bind_run. unfold load at 1. cbn beta. rewrite Ha. cbn iota beta.
  unfold v_sweep_color. rewrite Hvs.
  assert (Hao : a <> o) by congruence.
  assert (Hta : (t <= a)%nat).
  { apply assoc_get_in in Hget. rewrite Forall_forall in Ht. apply (Ht _ Hget). }
  assert (Hnota : o ∉ map snd es) by (eapply obj_not_arr; eauto).
  destruct s as [|s0 s'] eqn:Es.
  { exists h, es. split; [done|]. split; [repeat split; done|]. split; [done|]. apply frame_refl. }
  rewrite <- Es in Ha |- *.
  assert (Hloop : for_down (length s) acc (GestureController.splice_body a hit) h =
    Some (acc || existsb hit s,
          mkHeap (<[a := HArr (List.filter (fun sg => negb (hit sg)) s)]> (mem h)) (top h))).
  { pose proof (splice_loop h a s hit Ha (length s') acc ltac:(subst s; simpl; lia)) as HL.
    replace (S (length s')) with (length s) in HL by (subst s; done).
    rewrite take_ge, drop_ge in HL by lia. cbn [List.filter] in HL.
    rewrite app_nil_r, insert_id, heap_eta in HL by exact Ha.
    rewrite drop_0, take_0 in HL. exact HL. }
  rewrite Es in Hloop |- *. rewrite ret_run. cbn iota. rewrite bind_run, Hloop. rewrite <- Es.
  unfold arr_get, load. rewrite !bind_run. cbn [mem]. rewrite lookup_insert_eq. cbn.
  destruct (List.filter (fun sg => negb (hit sg)) s) as [|f fs] eqn:EF.
  - unfold obj_delete, obj_entries, load, store. rewrite !bind_run. cbn [mem].
    rewrite lookup_insert_ne by congruence. rewrite Ho. cbn.
    rewrite lookup_insert_ne by congruence. rewrite Ho. cbn.
    exists (mkHeap (<[o := HObj (assoc_del c es)]> (<[a := HArr []]> (mem h))) (top h)), (assoc_del c es).
    split; [done|]. split; [|split].
    + split; [done|]. split; [cbn [mem]; by rewrite lookup_insert_eq|]. split; [by apply nodup_map_filter|].
      split; [by apply nodup_map_filter|]. by apply forall_filter.
    + cbn [mem]. rewrite read_entries_insert_notin.
      2:{ intros Hin. apply Hnota. clear -Hin. unfold assoc_del in Hin.
          induction es as [|e es IH]; simpl in *; [inversion Hin|].
          destruct (negb _); simpl in *; [apply elem_of_cons in Hin as [->|Hin]; [left|right; by apply IH]|right; by apply IH]. }
      rewrite read_entries_insert_notin by (by apply notin_del).
      by apply read_entries_del.
    + split; [|split]; [| |done]; intros l Hl; cbn [mem];
        rewrite !lookup_insert_ne; try done; intros ->; first [lia | congruence].
  - exists (mkHeap (<[a := HArr (f :: fs)]> (mem h)) (top h)), es.
    split; [done|]. split; [|split].
    + split; [done|]. split; [cbn [mem]; rewrite lookup_insert_ne by congruence; done|]. done.
    + cbn [mem]. by apply read_entries_set_arr.
    + split; [|split]; [| |done]; intros l Hl; cbn [mem];
        rewrite !lookup_insert_ne; try done; intros ->; first [lia | congruence].
Qed.

Lemma for_keys_splice t o hit ks : forall h es V acc,
  owned t h o es -> read_entries (mem h) es = Some V ->
  exists h' es',
    for_keys ks acc (GestureController.splice_color o hit) h = Some ((v_sweep_keys hit ks (V, acc)).2, h') /\
    owned t h' o es' /\ read_entries (mem h') es' = Some (v_sweep_keys hit ks (V, acc)).1 /\
    frame t h h'.
Proof.
  induction ks as [|k ks IH]; intros h es V acc Hown HV.
  - exists h, es. split; [done|]. split; [done|]. split; [done|]. apply frame_refl.
  - destruct (splice_color_spec t h o es V hit k acc Hown HV) as (h1 & es1 & Hrun & Hown1 & HV1 & Hf1).
    destruct (IH h1 es1 _ (v_sweep_color hit k (V, acc)).2 Hown1 HV1) as (h2 & es2 & Hrun2 & Hown2 & HV2 & Hf2).
    exists h2, es2. cbn [for_keys]. rewrite bind_run, Hrun.
    unfold v_sweep_keys in *. cbn [fold_left].
    rewrite <- (surjective_pairing (v_sweep_color hit k (V, acc))) in Hrun2, HV2.
    split; [exact Hrun2|]. split; [done|]. split; [done|]. eapply frame_trans; eauto.
Qed.

(** [removeSegmentsWithEndpoint(paths, key, true)]: a fresh clone of the store
    without the segments, of any color, with an endpoint at [key]. *)
Lemma gc_endpoint_spec h P V key :
  heap_wf h -> store_at h P V ->
  exists h' es',
    GestureController.removeSegmentsWithEndpoint P key true h =
      Some ((top h, existsb (fun e => existsb (DragCommit.endpoint_test (fun k => key_eqb k key)) e.2)
                              (clone V)), h') /\
    owned (top h) h' (top h) es' /\
    read_entries (mem h') es' =
      Some (remove_where (fun _ sg => DragCommit.endpoint_test (fun k => key_eqb k key) sg) (clone V)) /\
    heap_wf h' /\ (forall l, (l < top h)%nat -> mem h' !! l = mem h !! l) /\ (top h < top h')%nat.
Proof.
  intros Hwf (es & Hes & Hnd & HV).
  assert (Hk : keys_nodup V) by (unfold keys_nodup; by rewrite (read_entries_keys _ _ _ HV)).
  pose proof (clone_canonical V Hk) as Hcan1.
  destruct (clone_spec h P es V Hwf Hes Hnd HV) as (h1 & es1 & Hcl & Hown1 & HV1 & Hwf1 & Hag1 & Htop1).
  unfold GestureController.removeSegmentsWithEndpoint, GestureController.clonePaths.
  rewrite bind_run, Hcl. cbn iota beta.
  pose proof Hown1 as (_ & Ho1 & _).
  unfold obj_entries at 1. rewrite !bind_run. unfold load at 1. rewrite Ho1. cbn iota beta.
  rewrite ret_run. cbn iota beta. rewrite bind_run.
  set (hit := DragCommit.endpoint_test (fun k => key_eqb k key)).
  destruct (for_keys_splice (top h) (top h) hit (map fst es1) h1 es1 (clone V) false Hown1 HV1)
    as (h2 & es2 & Hrun & Hown2 & HV2 & Hfr2).
  rewrite <- (read_entries_keys _ _ _ HV1) in Hrun, HV2 |- *.
  change (v_sweep_keys hit (map fst (clone V)) (clone V, false)) with (v_sweep_all hit (clone V)) in Hrun, HV2.
  rewrite v_sweep_all_rw in Hrun, HV2 by done.
  rewrite Hrun. rewrite ret_run. exists h2, es2.
  split; [done|]. split; [done|]. split; [done|]. split; [exact (frame_wf _ _ _ Hfr2 Hwf1)|].
  split; [|destruct Hfr2 as (_ & _ & ->); done].
  intros l Hl. destruct Hfr2 as (Hf & _). rewrite Hf by done. by apply Hag1.
Qed.

(** [removeSegmentsWithColorInArea(paths, color, areaId, areaByKey, false)] on
    a store owned above [t]. *)
Lemma gc_area_inplace_spec t h o es W col aid areas :
  owned t h o es -> read_entries (mem h) es = Some W -> canonical W ->
  exists h' es',
    GestureController.removeSegmentsWithColorInArea o col aid areas false h =
      Some ((o, match vget col W with
                | Some s => existsb (DragCommit.endpoint_test (DragCommit.in_area areas aid)) s
                | None => false end), h') /\
    owned t h' o es' /\
    read_entries (mem h') es' =
      Some (remove_where (fun k sg => String.eqb k col &&
              DragCommit.endpoint_test (DragCommit.in_area areas aid) sg) W) /\
    frame t h h'.
Proof.
  intros Hown HW Hcan.
  unfold GestureController.removeSegmentsWithColorInArea. rewrite bind_run, ret_run. cbn iota beta.
  rewrite bind_run.
  destruct (splice_color_spec t h o es W (DragCommit.endpoint_test (DragCommit.in_area areas aid))
              col false Hown HW) as (h' & es' & Hrun & Hown' & HW' & Hfr).
  rewrite v_sweep_color_rw in Hrun, HW' by done.
  rewrite Hrun. rewrite ret_run. exists h', es'. done.
Qed.

(** The same with [clone = true] on the store given. *)
Lemma gc_area_clone_spec h P V col aid areas :
  heap_wf h -> store_at h P V ->
  exists h' es',
    GestureController.removeSegmentsWithColorInArea P col aid areas true h =
      Some ((top h, match vget col (clone V) with
                    | Some s => existsb (DragCommit.endpoint_test (DragCommit.in_area areas aid)) s
                    | None => false end), h') /\
    owned (top h) h' (top h) es' /\
    read_entries (mem h') es' =
      Some (remove_where (fun k sg => String.eqb k col &&
              DragCommit.endpoint_test (DragCommit.in_area areas aid) sg) (clone V)) /\
    heap_wf h' /\ (forall l, (l < top h)%nat -> mem h' !! l = mem h !! l).
Proof.
  intros Hwf (es & Hes & Hnd & HV).
  assert (Hk : keys_nodup V) by (unfold keys_nodup; by rewrite (read_entries_keys _ _ _ HV)).
  pose proof (clone_canonical V Hk) as Hcan1.
  destruct (clone_spec h P es V Hwf Hes Hnd HV) as (h1 & es1 & Hcl & Hown1 & HV1 & Hwf1 & Hag1 & _).
  unfold GestureController.removeSegmentsWithColorInArea, GestureController.clonePaths.
  rewrite bind_run, Hcl. cbn iota beta. rewrite bind_run.
  destruct (splice_color_spec (top h) h1 (top h) es1 (clone V)
              (DragCommit.endpoint_test (DragCommit.in_area areas aid)) col false Hown1 HV1)
    as (h2 & es2 & Hrun & Hown2 & HV2 & Hfr2).
  rewrite v_sweep_color_rw in Hrun, HV2 by done.
  rewrite Hrun. rewrite ret_run. exists h2, es2.
  split; [done|]. split; [done|]. split; [done|]. split; [exact (frame_wf _ _ _ Hfr2 Hwf1)|].
  intros l Hl. destruct Hfr2 as (Hf & _). rewrite Hf by done. by apply Hag1.
Qed.

End SpliceFacts.

(** ** Starting a drag on a dot *)

Module StartFacts.
Import StoreValue CommitSpec HeapFacts ValueFacts CommitFacts SpliceFacts GestureController.

Lemma find_in_entries_total h es V px py :
  read_entries (mem h) es = Some V ->
  exists r, GestureController.find_in_entries es px py h = Some (r, h).
Proof.
  revert V; induction es as [|[k a] es IH]; intros V HV; simpl.
  - by eexists.
  - simpl in HV. destruct (mem h !! a) as [[|s]|] eqn:Ea; try done.
    destruct (read_entries (mem h) es) as [V'|] eqn:E; try done.
    unfold arr_get, load. rewrite !bind_run, Ea. cbn.
    destruct (GestureController.find_in_segments s px py) as [[sg i]|].
    + by eexists.
    + exact (IH V' eq_refl).
Qed.

Lemma findSegmentAt_total h o V px py :
  store_at h o V -> exists r, GestureController.findSegmentAt o px py h = Some (r, h).
Proof.
  intros (es & Ho & _ & HV). unfold GestureController.findSegmentAt, obj_entries, load.
  rewrite !bind_run, Ho. cbn. exact (find_in_entries_total h es V px py HV).
Qed.

Lemma remove_where_nohit p V :
  (forall k s sg, (k, s) ∈ V -> sg ∈ s -> p k sg = false) -> remove_where p V = clone V.
Proof.
  induction V as [|[k s] V IH]; intros H; [done|].
  rewrite remove_where_cons. simpl.
  rewrite filter_true'.
  2:{ intros sg Hsg. by rewrite (H k s sg) by (done || left). }
  unfold clone. simpl. rewrite IH; [|intros k' s' sg Hin Hsg; apply (H k' s'); [by right|done]].
  by destruct (bool_decide (s = [])).
Qed.

Lemma clone_canonical_id W : canonical W -> clone W = W.
Proof.
  intros [_ Hne]. unfold clone. apply filter_true'. intros e He.
  rewrite Forall_forall in Hne. apply negb_true_iff, bool_decide_false. exact (Hne e He).
Qed.

Lemma existsb_false_hit (f : Segment -> bool) (V : PathsV) k s sg :
  existsb (fun e => existsb f e.2) V = false -> (k, s) ∈ V -> sg ∈ s -> f sg = false.
Proof.
  intros H Hin Hsg. destruct (f sg) eqn:Ef; [|done]. exfalso.
  assert (existsb (fun e => existsb f e.2) V = true) as H'; [|congruence].
  apply existsb_exists. exists (k, s). split; [by apply list_elem_of_In|].
  apply existsb_exists. exists sg. split; [by apply list_elem_of_In|done].
Qed.

Lemma vget_false_hit (f : Segment -> bool) W d :
  keys_nodup W ->
  match vget d W with Some s => existsb f s | None => false end = false ->
  remove_where (fun k sg => String.eqb k d && f sg) W = clone W.
Proof.
  intros Hk H. apply remove_where_nohit. intros k s sg Hin Hsg.
  destruct (String.eqb_spec k d) as [->|_]; [|done]. cbn [andb].
  apply (vget_in W d s Hk) in Hin. rewrite Hin in H.
  destruct (f sg) eqn:Ef; [|done]. exfalso.
  assert (existsb f s = true) as H'; [|congruence].
  apply existsb_exists. exists sg. split; [by apply list_elem_of_In|done].
Qed.

Lemma area_test_terminates areas aid sg :
  DragCommit.endpoint_test (DragCommit.in_area areas aid) sg =
  terminates_where (fun c => bool_decide (areas (cellKey (x c) (y c)) = Some aid)) sg.
Proof. apply endpoint_terminates. intros c. reflexivity. Qed.

Lemma start_evict_spec openSet dots areas sh start h V d :
  heap_wf h -> store_at h (pathsShared sh) V ->
  openSet (cellKey (x start) (y start)) = true ->
  dots (cellKey (x start) (y start)) = Some d -> truthy (Some d) = true ->
  exists res h' W,
    GestureController.startDragSession openSet dots areas sh start h = Some (res, h') /\
    store_at h' (pathsShared res.2) W /\ clone W = StartSpec.evict V start d areas /\
    store_at h' (pathsShared sh) V.
Proof.
  intros Hwf Hst Hopen Hdot Htr.
  pose proof Hst as (es & Hes & Hnd & HV).
  assert (Hk : keys_nodup V) by (unfold keys_nodup; by rewrite (read_entries_keys _ _ _ HV)).
  pose proof (clone_canonical V Hk) as Hcan1.
  unfold GestureController.startDragSession. cbn zeta. rewrite Hopen. cbn [negb]. cbn iota.
  rewrite Hdot, Htr. cbn iota. rewrite bind_run, bind_run.
  set (key := cellKey (x start) (y start)) in *.
  set (hitE := DragCommit.endpoint_test (fun k => key_eqb k key)).
  set (hitA := fun aid => DragCommit.endpoint_test (DragCommit.in_area areas aid)).
  assert (HE : forall W, remove_where (fun _ sg => hitE sg) W = remove_where (fun _ sg => ends_at start sg) W).
  { intros W. apply rw_congr; [|done]. intros _ sg. exact (tap_test_ends_at start sg). }
  assert (HA : forall aid W,
    remove_where (fun k sg => String.eqb k d && hitA aid sg) W =
    remove_where (fun k sg => String.eqb k d &&
      terminates_where (fun c => bool_decide (areas (cellKey (x c) (y c)) = Some aid)) sg) W).
  { intros aid W. apply rw_congr; [|done]. intros k sg. f_equal. apply area_test_terminates. }
  destruct (gc_endpoint_spec h (pathsShared sh) V key Hwf Hst)
    as (h1 & es1 & Hrun1 & Hown1 & HV1 & Hwf1 & Hag1 & Htop1).
  fold hitE in Hrun1, HV1. rewrite Hrun1. cbn iota beta.
  assert (Hcan2 : canonical (remove_where (fun _ sg => hitE sg) (clone V)))
    by (by apply remove_where_canonical).
  assert (Hkeep : forall h', (forall l, (l < top h)%nat -> mem h' !! l = mem h !! l) ->
                  store_at h' (pathsShared sh) V)
    by (intros h' Hag; by apply (store_at_agree h)).
  unfold StartSpec.evict. fold key.
  destruct (existsb (fun e => existsb hitE e.2) (clone V)) eqn:B1; cbn [fst snd]; cbn iota beta zeta;
    destruct (areas key) as [aid|] eqn:Ea; cbn iota beta; cbn [negb].
  - (* segments ended at the start cell; the area sweep runs on the clone *)
    rewrite bind_run.
    destruct (gc_area_inplace_spec (top h) h1 (top h) es1 _ d aid areas Hown1 HV1 Hcan2)
      as (h2 & es2 & Hrun2 & Hown2 & HV2 & Hfr2).
    fold (hitA aid) in Hrun2, HV2. rewrite bind_run, Hrun2, ret_run. cbn [fst snd]. cbn iota beta.
    match goal with |- context [if ?b then (top h, true) else (top h, true)] =>
      replace (if b then (top h, true) else (top h, true)) with (top h, true) by (by destruct b) end.
    cbn iota beta. rewrite ret_run. cbn iota beta.
    assert (Hst2 : store_at h2 (top h) (remove_where (fun k sg => String.eqb k d && hitA aid sg)
                                         (remove_where (fun _ sg => hitE sg) (clone V)))).
    { destruct Hown2 as (_ & Ho2 & Hnd2 & _). by exists es2. }
    destruct (findSegmentAt_total _ _ _ (x start) (y start) Hst2) as [r Hr].
    rewrite bind_run, Hr. cbn iota beta.
    eexists _, h2, _. split; [reflexivity|]. cbn [snd pathsShared]. split; [exact Hst2|].
    split.
    + rewrite clone_canonical_id by (by apply remove_where_canonical).
      by rewrite HA, remove_where_clone, HE.
    + apply Hkeep. intros l Hl. destruct Hfr2 as (Hf & _). rewrite Hf by done. by apply Hag1.
  - (* segments ended at the start cell, no area *)
    rewrite bind_run, ret_run. cbn iota beta. rewrite ret_run. cbn iota beta.
    assert (Hst1 : store_at h1 (top h) (remove_where (fun _ sg => hitE sg) (clone V))).
    { destruct Hown1 as (_ & Ho1 & Hnd1 & _). by exists es1. }
    destruct (findSegmentAt_total _ _ _ (x start) (y start) Hst1) as [r Hr].
    rewrite bind_run, Hr. cbn iota beta.
    eexists _, h1, _. split; [reflexivity|]. cbn [snd pathsShared]. split; [exact Hst1|].
    split.
    + rewrite clone_canonical_id by done. by rewrite remove_where_clone, HE.
    + by apply Hkeep.
  - (* nothing ended at the start cell; the area sweep clones the store again *)
    assert (HnoE : remove_where (fun _ sg => ends_at start sg) V = clone V).
    { rewrite <- HE. apply remove_where_nohit. intros k s sg Hin Hsg.
      rewrite existsb_clone in B1. exact (existsb_false_hit hitE V k s sg B1 Hin Hsg). }
    rewrite HnoE.
    rewrite bind_run.
    destruct (gc_area_clone_spec h1 (pathsShared sh) V d aid areas Hwf1 (Hkeep h1 Hag1))
      as (h2 & es2 & Hrun2 & Hown2 & HV2 & Hwf2 & Hag2).
    fold (hitA aid) in Hrun2, HV2. rewrite bind_run, Hrun2, ret_run. cbn [fst snd]. cbn iota beta.
    assert (Hag12 : forall l, (l < top h)%nat -> mem h2 !! l = mem h !! l).
    { intros l Hl. rewrite Hag2 by lia. by apply Hag1. }
    destruct (match vget d (clone V) with Some s => existsb (hitA aid) s | None => false end) eqn:B2;
      cbn iota beta; rewrite ret_run; cbn iota beta.
    + assert (Hst2 : store_at h2 (top h1) (remove_where (fun k sg => String.eqb k d && hitA aid sg) (clone V))).
      { destruct Hown2 as (_ & Ho2 & Hnd2 & _). by exists es2. }
      destruct (findSegmentAt_total _ _ _ (x start) (y start) Hst2) as [r Hr].
      rewrite bind_run, Hr. cbn iota beta.
      eexists _, h2, _. split; [reflexivity|]. cbn [snd pathsShared]. split; [exact Hst2|].
      split.
      * rewrite clone_canonical_id by (by apply remove_where_canonical). by rewrite HA.
      * by apply Hkeep.
    + assert (Hst2 : store_at h2 (pathsShared sh) V) by (by apply Hkeep).
      destruct (findSegmentAt_total _ _ _ (x start) (y start) Hst2) as [r Hr].
      rewrite bind_run, Hr. cbn iota beta.
      eexists _, h2, _. split; [reflexivity|]. cbn [snd pathsShared]. split; [exact Hst2|].
      split; [|exact Hst2].
      rewrite <- HA. rewrite (vget_false_hit (hitA aid) (clone V) d (proj1 Hcan1) B2).
      by rewrite (clone_canonical_id (clone V) Hcan1).
  - (* nothing to evict *)
    rewrite bind_run, ret_run. cbn iota beta. rewrite ret_run. cbn iota beta.
    assert (Hst1 : store_at h1 (pathsShared sh) V) by (by apply Hkeep).
    destruct (findSegmentAt_total _ _ _ (x start) (y start) Hst1) as [r Hr].
    rewrite bind_run, Hr. cbn iota beta.
    eexists _, h1, _. split; [reflexivity|]. cbn [snd pathsShared]. split; [exact Hst1|].
    split; [|exact Hst1].
    rewrite <- HE. symmetry. apply remove_where_nohit. intros k s sg Hin Hsg.
    rewrite existsb_clone in B1. exact (existsb_false_hit hitE V k s sg B1 Hin Hsg).
Qed.

End StartFacts.

(** ** The stepping loop of [updateDragSession] *)

Module DragFacts.
Import GestureController.

Lemma removelast_length_le {A} (l : list A) : (length (removelast l) <= length l)%nat.
Proof.
  induction l as [|a [|b l] IH]; simpl in *; [lia|lia|]. lia.
Qed.

(** Every iteration advances the guard by one and adds at most one cell. *)
Lemma step_body_measure openSet dots col ax target st :
  match step_body openSet dots col ax target st with
  | Continue st' | Break st' =>
      guard st' = guard st + 1 /\ (length (lpath st') <= S (length (lpath st)))%nat
  end.
Proof.
  unfold step_body. cbv zeta.
  repeat match goal with
         | |- context [if ?b then _ else _] => destruct b
         | |- context [match findIndex ?p ?c with Some _ => _ | None => _ end] => destruct (findIndex p c)
         end;
    cbn [guard lpath]; split; try reflexivity;
    rewrite ?length_app, ?length_firstn; cbn [length];
    try pose proof (removelast_length_le (lpath st)); lia.
Qed.

Lemma step_loop_bound fuel openSet dots col ax target : forall st,
  0 <= guard st <= 256 ->
  let st' := step_loop fuel openSet dots col ax target st in
  guard st <= guard st' <= 256 /\
  (Z.of_nat (length (lpath st')) <= Z.of_nat (length (lpath st)) + (guard st' - guard st)).
Proof.
  induction fuel as [|fuel IH]; intros st Hg; cbn zeta; simpl step_loop; [lia|].
  destruct (Z.ltb_spec (guard st) 256) as [Hlt|Hge]; [|lia].
  pose proof (step_body_measure openSet dots col ax target st) as Hm.
  destruct (step_body openSet dots col ax target st) as [st1|st1]; destruct Hm as [Hg1 Hl1].
  - specialize (IH st1 ltac:(lia)). cbn zeta in IH. lia.
  - lia.
Qed.

(** More fuel changes nothing once [256 - guard] iterations are fuelled:
    the [while (guard < 256)] loop ends by its own test. *)
Lemma step_loop_fuel fuel k openSet dots col ax target : forall st,
  0 <= guard st -> 256 - guard st <= Z.of_nat fuel ->
  step_loop (fuel + k) openSet dots col ax target st = step_loop fuel openSet dots col ax target st.
Proof.
  induction fuel as [|fuel IH]; intros st Hg Hf.
  - simpl. destruct k as [|k]; [done|]. simpl.
    destruct (Z.ltb_spec (guard st) 256); [lia|done].
  - simpl. destruct (Z.ltb (guard st) 256) eqn:Hlt; [|done].
    pose proof (step_body_measure openSet dots col ax target st) as Hm.
    destruct (step_body openSet dots col ax target st) as [st1|st1]; [|done].
    destruct Hm as [Hg1 _]. apply IH; lia.
Qed.

Lemma update_stepping_growth fitCellSize openBounds openSet dots session localX localY :
  (length (lpath (update_stepping fitCellSize openBounds openSet dots session localX localY).1.2)
    <= length (path session) + 256)%nat.
Proof.
  unfold update_stepping. cbv zeta.
  match goal with |- context [resolveAxis ?a ?b ?c ?d ?e ?f] => destruct (resolveAxis a b c d e f) as [ax|] end;
    cbn [fst snd lpath].
  - match goal with |- context [step_loop 256 ?o ?d ?cl ?ax ?t ?st] =>
      pose proof (step_loop_bound 256 o d cl ax t st ltac:(simpl; lia)) as Hb end.
    cbn zeta in Hb. cbn [guard lpath] in Hb. lia.
  - lia.
Qed.

Lemma update_path_growth fitCellSize openBounds openSet dots session localX localY :
  (length (path (usession (updateDragSession fitCellSize openBounds openSet dots session localX localY)))
    <= length (path session) + 256)%nat.
Proof.
  pose proof (update_stepping_growth fitCellSize openBounds openSet dots session localX localY) as Hg.
  unfold updateDragSession.
  destruct (path session) as [|c cs] eqn:Ep; [simpl; rewrite Ep; simpl; lia|].
  destruct (update_stepping fitCellSize openBounds openSet dots session localX localY) as [[ax st] d].
  cbn [fst snd] in Hg. cbn [usession path]. lia.
Qed.

End DragFacts.

(** ** The concrete stores are well formed *)

Module WitnessFacts.
Import StoreValue Scenarios OverlapFacts.

Lemma red_heap_wf : heap_wf red_heap.
Proof.
  intros l Hl. unfold red_heap in *. cbn [mem top] in *.
  rewrite !lookup_insert_ne by lia. apply lookup_empty.
Qed.

Lemma blue_heap_wf : heap_wf blue_heap.
Proof.
  intros l Hl. unfold blue_heap in *. cbn [mem top] in *.
  rewrite !lookup_insert_ne by lia. apply lookup_empty.
Qed.

Lemma red_store_at : store_at red_heap 0 red_store.
Proof.
  exists [("red"%string, 1%nat)]. split; [reflexivity|]. split; [apply NoDup_singleton|reflexivity].
Qed.

Lemma blue_store_at : store_at blue_heap 0 blue_store.
Proof.
  exists [("blue"%string, 1%nat)]. split; [reflexivity|]. split; [apply NoDup_singleton|reflexivity].
Qed.

Lemma red_store_no_self_overlap : no_self_overlap red_store.
Proof.
  intros c segs H. unfold red_store in H. cbn [vget] in H.
  destruct (String.eqb "red" c); cbn [vget] in H; [|discriminate].
  inversion H; subst. apply disjoint_single.
Qed.

End WitnessFacts.

(** * The claims *)

Module Claims.
Import DragCommit StoreValue CommitSpec CommitRuns Scenarios WitnessFacts.

(** C1: for a session whose path has two or more cells, commit succeeds,
    returns a fresh Path Store, [didChange = true] and the counter plus one,
    and the returned store is [commit_path]: the clone of the input, then the
    start-area sweep of the session's color (start a dot of that color with
    an area id), the end-area sweep (end a dot of that color whose area id
    differs from the start's handled one), the sweep of every segment of any
    color ending on a dot endpoint, the sweep of every segment meeting the
    path, and last the new segment of id [segmentIdOf idSeed n] whose cells
    are the whole path, appended to the color's list. *)
Theorem commit_path_case h P V session dots areas seed n :
  heap_wf h -> store_at h P V -> (2 <= length (path session))%nat ->
  exists h',
    commitDragWorklet P session dots areas seed n h = Some (mkResult (top h) true (n + 1), h') /\
    store_at h' (top h) (commit_path V session dots areas seed n).
Proof.
  intros Hwf Hst Hlen.
  destruct (CommitFacts.commit_path_spec h P V session dots areas seed n Hwf Hst Hlen)
    as (h' & Hrun & Hst' & _).
  eauto.
Qed.

Lemma commit_path_case_witness :
  heap_wf red_heap /\ store_at red_heap 0 red_store /\ (2 <= length (path red_drag))%nat /\
  exists h',
    commitDragWorklet 0 red_drag red_dot_00 no_areas 1 0 red_heap =
      Some (mkResult (top red_heap) true (0 + 1), h') /\
    store_at h' (top red_heap) (commit_path red_store red_drag red_dot_00 no_areas 1 0).
Proof.
  split; [exact red_heap_wf|]. split; [exact red_store_at|]. split; [simpl; lia|].
  apply (commit_path_case red_heap 0 red_store red_drag red_dot_00 no_areas 1 0);
    [exact red_heap_wf | exact red_store_at | simpl; lia].
Defined.

(** C2: if no color of the input Path Store has two segments sharing a
    cell, the Path Store returned by commit has no such pair either, for
    every session, dot map, area map, seed and counter. *)
Theorem commit_no_self_overlap h P V session dots areas seed n :
  heap_wf h -> store_at h P V -> no_self_overlap V ->
  exists r h' V',
    commitDragWorklet P session dots areas seed n h = Some (r, h') /\
    store_at h' (paths r) V' /\ no_self_overlap V'.
Proof.
  intros Hwf Hst Hno.
  destruct (CommitFacts.commit_spec h P V session dots areas seed n Hwf Hst)
    as (r & h' & Hrun & Hst' & _).
  exists r, h', (commit_value V session dots areas seed n).1.1.
  split; [exact Hrun|]. split; [exact Hst'|].
  apply OverlapFacts.all_disjoint_no_self_overlap, OverlapFacts.all_disjoint_commit_value.
  apply OverlapFacts.no_self_overlap_all_disjoint; [|exact Hno].
  destruct Hst as (es & _ & Hnd & HV). unfold keys_nodup.
  by rewrite (HeapFacts.read_entries_keys _ _ _ HV).
Qed.

Lemma commit_no_self_overlap_witness :
  heap_wf red_heap /\ store_at red_heap 0 red_store /\ no_self_overlap red_store /\
  exists r h' V',
    commitDragWorklet 0 redraw_session red_dot_00 no_areas 1 0 red_heap = Some (r, h') /\
    store_at h' (paths r) V' /\ no_self_overlap V'.
Proof.
  split; [exact red_heap_wf|]. split; [exact red_store_at|]. split; [exact red_store_no_self_overlap|].
  apply (commit_no_self_overlap red_heap 0 red_store redraw_session red_dot_00 no_areas 1 0);
    [exact red_heap_wf | exact red_store_at | exact red_store_no_self_overlap].
Defined.

(** C3: with the red segment (0,0)-(0,1)-(0,2)-(0,3), a red dot at (0,0)
    and no dot at (0,3), a drag started at (0,1) picks the segment up with
    the initial path [(0,0),(0,1)]: the dot side is kept, ordered from the
    dot to the picked cell, which is the tip; the Path Store is left as it
    was. *)
Theorem pickup_keeps_dot_side :
  GestureController.startDragSession open_all red_dot_00 no_areas
    (GestureController.mkShared 0 0) (mkCell 0 1) red_heap =
  Some ((Some (mkSession "red" [mkCell 0 0; mkCell 0 1] None false false),
         GestureController.mkShared 0 0), red_heap).
Proof. vm_compute. reflexivity. Qed.

(** C3, counterexample: the same pickup does not give the path
    [(0,1),(0,0)]. *)
Lemma pickup_not_from_picked_cell :
  match GestureController.startDragSession open_all red_dot_00 no_areas
          (GestureController.mkShared 0 0) (mkCell 0 1) red_heap with
  | Some ((Some s, _), _) => path s <> [mkCell 0 1; mkCell 0 0]
  | _ => False
  end.
Proof. vm_compute. intros H. discriminate H. Qed.

(** C4: a drag started on an open cell holding a dot of color [d] leaves
    the store it read unchanged and publishes a store whose value (up to
    colors left without segments) is [StartSpec.evict]: first every segment
    of ANY color whose first or last cell is the start cell is removed, then,
    if the start cell has an area id, every segment of color [d] terminating
    in that area. *)
Theorem start_eviction openSet dots areas sh start h V d :
  heap_wf h -> store_at h (GestureController.pathsShared sh) V ->
  openSet (cellKey (x start) (y start)) = true ->
  dots (cellKey (x start) (y start)) = Some d -> truthy (Some d) = true ->
  exists res h' W,
    GestureController.startDragSession openSet dots areas sh start h = Some (res, h') /\
    store_at h' (GestureController.pathsShared res.2) W /\
    clone W = StartSpec.evict V start d areas /\
    store_at h' (GestureController.pathsShared sh) V.
Proof.
  intros Hwf Hst Hopen Hdot Htr.
  exact (StartFacts.start_evict_spec openSet dots areas sh start h V d Hwf Hst Hopen Hdot Htr).
Qed.

Lemma start_eviction_witness :
  heap_wf blue_heap /\ store_at blue_heap (GestureController.pathsShared (GestureController.mkShared 0 0)) blue_store /\
  open_all (cellKey 0 0) = true /\ red_dot_00 (cellKey 0 0) = Some "red"%string /\
  truthy (Some "red"%string) = true /\
  exists res h' W,
    GestureController.startDragSession open_all red_dot_00 no_areas
      (GestureController.mkShared 0 0) (mkCell 0 0) blue_heap = Some (res, h') /\
    store_at h' (GestureController.pathsShared res.2) W /\
    clone W = StartSpec.evict blue_store (mkCell 0 0) "red" no_areas /\
    store_at h' (GestureController.pathsShared (GestureController.mkShared 0 0)) blue_store.
Proof.
  split; [exact blue_heap_wf|]. split; [exact blue_store_at|].
  split; [reflexivity|]. split; [reflexivity|]. split; [reflexivity|].
  apply (start_eviction open_all red_dot_00 no_areas (GestureController.mkShared 0 0)
           (mkCell 0 0) blue_heap blue_store "red");
    [exact blue_heap_wf | exact blue_store_at | reflexivity | reflexivity | reflexivity].
Defined.

(** C4, counterexample: a blue segment ending on the red dot at (0,0) is
    removed when a drag starts there: the store read holds it, the store
    published after the start is empty. *)
Lemma start_evicts_other_color :
  read blue_heap 0 = Some blue_store /\
  match GestureController.startDragSession open_all red_dot_00 no_areas
          (GestureController.mkShared 0 0) (mkCell 0 0) blue_heap with
  | Some ((_, sh'), h') => read h' (GestureController.pathsShared sh') = Some []
  | None => False
  end.
Proof. split; vm_compute; reflexivity. Qed.

(** C5: for a one-cell path [c]: a tap ([hasMoved = false]) on a dot
    reports [didChange] exactly when some segment of any color has its first
    or last cell at [c], and the returned store is the input without all such
    segments (the input itself when none); a tap on a non-dot cell, and a
    one-cell drag ([hasMoved = true]), return the input store unchanged with
    [didChange = false]; the counter is returned as received. *)
Theorem commit_single_cell h P V session dots areas seed n c :
  heap_wf h -> store_at h P V -> path session = [c] ->
  exists r h',
    commitDragWorklet P session dots areas seed n h = Some (r, h') /\
    nextSegmentId r = n /\
    (hasMoved session = false -> truthy (dots (cellKey (x c) (y c))) = true ->
       didChange r = existsb (fun e => existsb (ends_at c) e.2) V /\
       store_at h' (paths r)
         (if didChange r then remove_where (fun _ sg => ends_at c sg) V else V)) /\
    (hasMoved session = false -> truthy (dots (cellKey (x c) (y c))) = false ->
       didChange r = false /\ paths r = P /\ store_at h' P V) /\
    (hasMoved session = true -> didChange r = false /\ paths r = P /\ store_at h' P V).
Proof.
  intros Hwf Hst Hp.
  destruct (CommitFacts.commit_spec h P V session dots areas seed n Hwf Hst)
    as (r & h' & Hrun & Hst' & Hd & Hn & Hf & _ & _ & Hag).
  pose proof (CommitFacts.store_at_agree h h' P V Hwf Hst Hag) as HP.
  exists r, h'. split; [exact Hrun|].
  unfold commit_value in Hst', Hd, Hn. rewrite Hp in Hst', Hd, Hn.
  destruct (hasMoved session); [|destruct (truthy (dots (cellKey (x c) (y c))))];
    cbn [fst snd] in Hst', Hd, Hn; (split; [exact Hn|]).
  - split; [discriminate|]. split; [discriminate|].
    intros _. split; [exact Hd|]. split; [exact (Hf Hd)|exact HP].
  - split; [|split; discriminate].
    intros _ _. split; [exact Hd|]. rewrite Hd. exact Hst'.
  - split; [discriminate|]. split; [|discriminate].
    intros _ _. split; [exact Hd|]. split; [exact (Hf Hd)|exact HP].
Qed.

Lemma commit_single_cell_witness :
  heap_wf blue_heap /\ store_at blue_heap 0 blue_store /\ path red_tap = [mkCell 0 0] /\
  exists r h',
    commitDragWorklet 0 red_tap red_dot_00 no_areas 1 0 blue_heap = Some (r, h') /\
    nextSegmentId r = 0 /\
    (hasMoved red_tap = false -> truthy (red_dot_00 (cellKey 0 0)) = true ->
       didChange r = existsb (fun e => existsb (ends_at (mkCell 0 0)) e.2) blue_store /\
       store_at h' (paths r)
         (if didChange r then remove_where (fun _ sg => ends_at (mkCell 0 0) sg) blue_store
          else blue_store)) /\
    (hasMoved red_tap = false -> truthy (red_dot_00 (cellKey 0 0)) = false ->
       didChange r = false /\ paths r = 0%nat /\ store_at h' 0 blue_store) /\
    (hasMoved red_tap = true -> didChange r = false /\ paths r = 0%nat /\ store_at h' 0 blue_store).
Proof.
  split; [exact blue_heap_wf|]. split; [exact blue_store_at|]. split; [reflexivity|].
  apply (commit_single_cell blue_heap 0 blue_store red_tap red_dot_00 no_areas 1 0 (mkCell 0 0));
    [exact blue_heap_wf | exact blue_store_at | reflexivity].
Defined.

(** C6: commit never changes the Path Store it is given: after the call
    the input reference still holds the same value; with [didChange = false]
    the returned reference is the input one, with [didChange = true] it is a
    freshly allocated object. *)
Theorem commit_keeps_input h P V session dots areas seed n :
  heap_wf h -> store_at h P V ->
  exists r h',
    commitDragWorklet P session dots areas seed n h = Some (r, h') /\
    store_at h' P V /\
    (didChange r = false -> paths r = P) /\
    (didChange r = true -> paths r = top h /\ mem h !! paths r = None).
Proof.
  intros Hwf Hst.
  destruct (CommitFacts.commit_spec h P V session dots areas seed n Hwf Hst)
    as (r & h' & Hrun & _ & _ & _ & Hf & Ht & _ & Hag).
  exists r, h'. split; [exact Hrun|].
  split; [exact (CommitFacts.store_at_agree h h' P V Hwf Hst Hag)|].
  split; [exact Hf|].
  intros Hd. rewrite (Ht Hd). split; [reflexivity|]. apply Hwf. lia.
Qed.

Lemma commit_keeps_input_witness :
  heap_wf red_heap /\ store_at red_heap 0 red_store /\
  exists r h',
    commitDragWorklet 0 red_drag red_dot_00 no_areas 1 0 red_heap = Some (r, h') /\
    store_at h' 0 red_store /\
    (didChange r = false -> paths r = 0%nat) /\
    (didChange r = true -> paths r = top red_heap /\ mem red_heap !! paths r = None).
Proof.
  split; [exact red_heap_wf|]. split; [exact red_store_at|].
  apply (commit_keeps_input red_heap 0 red_store red_drag red_dot_00 no_areas 1 0);
    [exact red_heap_wf | exact red_store_at].
Defined.

(** C7: along a sequence of commits threaded with one [idSeed], each call
    returns the counter it received plus one when its path has two or more
    cells and the same counter otherwise (so the counters never decrease but
    need not increase).  The Path Store values [Ws] the calls return are
    still held, after the whole sequence, by the references they return;
    each commit of a path of two or more cells adds to the store it received
    exactly one segment, at the end of its color list, whose id is the next
    of [created_ids], and the other commits add none; these ids are
    pairwise distinct.  So no two segments created by the sequence share an
    id. *)
Theorem commit_counters h P V gs seed n :
  heap_wf h -> store_at h P V ->
  exists rs h' Ws,
    commits P gs seed n h = Some (rs, h') /\
    map nextSegmentId rs = expected_counters n (map gesture_session gs) /\
    Forall2 (fun r W => store_at h' (paths r) W) rs Ws /\
    adds_along V (map gesture_session gs) Ws (created_ids seed n (map gesture_session gs)) /\
    NoDup (created_ids seed n (map gesture_session gs)).
Proof.
  intros Hwf Hst.
  destruct (RunFacts.commits_stores gs h P V seed n Hwf Hst)
    as (rs & h' & Ws & Hrun & Hc & HF & Had & _).
  exists rs, h', Ws. split; [exact Hrun|]. split; [exact Hc|]. split; [exact HF|].
  split; [exact Had|]. apply RunFacts.created_ids_nodup.
Qed.

Lemma commit_counters_witness :
  heap_wf red_heap /\ store_at red_heap 0 red_store /\
  created_ids 1 0 [red_drag; red_tap; row_session] = ["segment-1-0"; "segment-1-1"]%string /\
  exists rs h' Ws,
    commits 0 [(red_drag, red_dot_00, no_areas); (red_tap, red_dot_00, no_areas);
               (row_session, red_dot_00, no_areas)] 1 0 red_heap = Some (rs, h') /\
    map nextSegmentId rs = expected_counters 0 [red_drag; red_tap; row_session] /\
    Forall2 (fun r W => store_at h' (paths r) W) rs Ws /\
    adds_along red_store [red_drag; red_tap; row_session] Ws
      (created_ids 1 0 [red_drag; red_tap; row_session]) /\
    NoDup (created_ids 1 0 [red_drag; red_tap; row_session]).
Proof.
  split; [exact red_heap_wf|]. split; [exact red_store_at|]. split; [vm_compute; reflexivity|].
  apply (commit_counters red_heap 0 red_store
           [(red_drag, red_dot_00, no_areas); (red_tap, red_dot_00, no_areas);
            (row_session, red_dot_00, no_areas)] 1 0);
    [exact red_heap_wf | exact red_store_at].
Defined.

(** C7, counterexample: two commits of empty sessions return the counters
    0 and 0, which do not strictly increase. *)
Lemma commit_counters_not_strict :
  match commits 0 [(empty_session, red_dot_00, no_areas); (empty_session, red_dot_00, no_areas)]
          1 0 red_heap with
  | Some (rs, _) => map nextSegmentId rs = [0; 0]
  | None => False
  end.
Proof. vm_compute. reflexivity. Qed.

(** C8: when an iteration of the stepping loop runs ([guard < 256]), the
    tip is not on the target and the candidate next cell is the
    second-to-last cell of the path, the iteration pops the last cell, sets
    [locked] (the same-color dot lock) to false, marks the path changed and
    the loop goes on stepping along the SAME axis: the axis chosen for the
    update is not cleared by a backtrack. *)
Theorem backtrack_step fuel openSet dots col ax target st prev :
  GestureController.guard st < 256 ->
  target - GestureController.coord ax (GestureController.lastCell (GestureController.lpath st)) <> 0 ->
  GestureController.prevCell (GestureController.lpath st) = Some prev ->
  GestureController.same_xy prev
    (GestureController.stepCell ax (GestureController.lastCell (GestureController.lpath st))
       (Z.sgn (target - GestureController.coord ax
                          (GestureController.lastCell (GestureController.lpath st))))) = true ->
  GestureController.step_loop (S fuel) openSet dots col ax target st =
  GestureController.step_loop fuel openSet dots col ax target
    (GestureController.mkLoop (removelast (GestureController.lpath st)) false
       (GestureController.lhasMoved st) true (GestureController.guard st + 1)).
Proof.
  intros Hg Hd Hp Hs. cbn [GestureController.step_loop].
  replace (Z.ltb (GestureController.guard st) 256) with true by (symmetry; apply Z.ltb_lt; exact Hg).
  unfold GestureController.step_body. cbv zeta.
  replace (Z.eqb _ 0) with false by (symmetry; apply Z.eqb_neq; exact Hd).
  rewrite Hp, Hs. reflexivity.
Qed.

Lemma backtrack_step_witness :
  GestureController.guard (GestureController.mkLoop (path row_session) false true false 0) < 256 /\
  1 - GestureController.coord AxisX (GestureController.lastCell (path row_session)) <> 0 /\
  GestureController.prevCell (path row_session) = Some (mkCell 1 0) /\
  GestureController.same_xy (mkCell 1 0)
    (GestureController.stepCell AxisX (GestureController.lastCell (path row_session))
       (Z.sgn (1 - GestureController.coord AxisX (GestureController.lastCell (path row_session))))) = true /\
  GestureController.step_loop 255 open_all no_dots "red" AxisX 1
    (GestureController.mkLoop (path row_session) false true false 0) =
  GestureController.step_loop 254 open_all no_dots "red" AxisX 1
    (GestureController.mkLoop (removelast (path row_session)) false true true (0 + 1)).
Proof.
  split; [simpl; lia|]. split; [simpl; lia|]. split; [reflexivity|]. split; [reflexivity|].
  apply (backtrack_step 254 open_all no_dots "red" AxisX 1
           (GestureController.mkLoop (path row_session) false true false 0) (mkCell 1 0));
    [simpl; lia | simpl; lia | reflexivity | reflexivity].
Defined.

(** C8, counterexample: the red path (0,0)-(1,0)-(2,0) moving along x,
    with the pointer over (1,0), backtracks to (0,0)-(1,0); the axis x is
    still set after the update. *)
Lemma backtrack_keeps_axis :
  GestureController.usession
    (GestureController.updateDragSession 1 board5 open_all no_dots row_session (3#2) (1#2)) =
  mkSession "red" [mkCell 0 0; mkCell 1 0] (Some AxisX) false true.
Proof. vm_compute. reflexivity. Qed.

(** C9: every update is a terminating function; its stepping loop, started
    at [guard = 0], has ended by its own [guard < 256] test within 256
    iterations (more fuel gives the same state), and one update lengthens
    the path by at most 256 cells.  It may shorten it by more (see the
    counterexample). *)
Theorem update_step_bound fitCellSize openBounds openSet dots session localX localY :
  (length (path (GestureController.usession
     (GestureController.updateDragSession fitCellSize openBounds openSet dots session localX localY)))
     <= length (path session) + 256)%nat /\
  (forall k col ax target p lk hm pc,
     GestureController.step_loop (256 + k) openSet dots col ax target (GestureController.mkLoop p lk hm pc 0) =
     GestureController.step_loop 256 openSet dots col ax target (GestureController.mkLoop p lk hm pc 0)).
Proof.
  split; [apply DragFacts.update_path_growth|].
  intros k col ax target p lk hm pc. apply DragFacts.step_loop_fuel; simpl; lia.
Qed.

(** C9, counterexample: on the 66 x 66 board, the 260-cell ring ending at
    (0,1), pulled down onto its first cell (0,0), is cut back to that one
    cell by the self-intersection truncation: one update shortens the path
    by 259 cells. *)
Lemma update_shrinks_by_259 :
  length (path ring_session) = 260%nat /\
  length (path (GestureController.usession
    (GestureController.updateDragSession 1 board65 open_all no_dots ring_session (1#2) (1#2)))) = 1%nat.
Proof. split; vm_compute; reflexivity. Qed.

(** C10: a commit of a path of two or more cells always reports
    [didChange = true]; its color's list ends with the new segment of id
    [segmentIdOf idSeed n] and cells the path, and that new segment is the
    only segment of the result, of any color, meeting the path: a redrawn
    identical segment is gone and replaced by one with the fresh id. *)
Theorem commit_redraw_changes h P V session dots areas seed n :
  heap_wf h -> store_at h P V -> (2 <= length (path session))%nat ->
  exists r h' V',
    commitDragWorklet P session dots areas seed n h = Some (r, h') /\
    didChange r = true /\ store_at h' (paths r) V' /\
    (exists segs, vget (color session) V' =
       Some (segs ++ [mkSegment (segmentIdOf seed n) (path session)])) /\
    (forall k segs b, (k, segs) ∈ V' -> b ∈ segs -> meets (path session) b = true ->
       k = color session /\ b = mkSegment (segmentIdOf seed n) (path session)).
Proof.
  intros Hwf Hst Hlen.
  destruct (CommitFacts.commit_path_spec h P V session dots areas seed n Hwf Hst Hlen)
    as (h' & Hrun & Hst' & _).
  exists (mkResult (top h) true (n + 1)), h', (commit_path V session dots areas seed n).
  split; [exact Hrun|]. split; [reflexivity|]. split; [exact Hst'|].
  split; [apply RedrawFacts.commit_path_last|].
  intros k segs b. apply RedrawFacts.commit_path_meets.
Qed.

Lemma commit_redraw_changes_witness :
  heap_wf red_heap /\ store_at red_heap 0 red_store /\ (2 <= length (path redraw_session))%nat /\
  exists r h' V',
    commitDragWorklet 0 redraw_session red_dot_00 no_areas 1 0 red_heap = Some (r, h') /\
    didChange r = true /\ store_at h' (paths r) V' /\
    (exists segs, vget (color redraw_session) V' =
       Some (segs ++ [mkSegment (segmentIdOf 1 0) (path redraw_session)])) /\
    (forall k segs b, (k, segs) ∈ V' -> b ∈ segs -> meets (path redraw_session) b = true ->
       k = color redraw_session /\ b = mkSegment (segmentIdOf 1 0) (path redraw_session)).
Proof.
  split; [exact red_heap_wf|]. split; [exact red_store_at|]. split; [simpl; lia|].
  apply (commit_redraw_changes red_heap 0 red_store redraw_session red_dot_00 no_areas 1 0);
    [exact red_heap_wf | exact red_store_at | simpl; lia].
Defined.

End Claims.

(** ** Pointer arithmetic *)


(** ** Serialization between threads *)

Module PayloadFacts.
Import StoreValue CommitSpec Payload HeapFacts.

Lemma unflatten_flatten p : unflatten (flattenPath p) = Some p.
Proof.
  induction p as [|[cx cy] p IH]; [reflexivity|]. cbn [flattenPath flat_map app unflatten].
  fold (flattenPath p). rewrite IH. reflexivity.
Qed.

Lemma length_flattenPath p : length (flattenPath p) = (2 * length p)%nat.
Proof. induction p as [|c p IH]; [reflexivity|]. cbn [flattenPath flat_map app length]. fold (flattenPath p). lia. Qed.

Lemma deserialize_serialize_segments segs :
  deserialize_segments (map serialize_segment segs) = Some segs.
Proof.
  induction segs as [|[i cs] segs IH]; [reflexivity|]. cbn [map deserialize_segments].
  unfold deserialize_segment, serialize_segment. cbn [fst snd id cells].
  change (flat_map (fun c => [x c; y c]) cs) with (flattenPath cs). rewrite unflatten_flatten. cbn [option_map]. fold serialize_segment. rewrite IH.
  reflexivity.
Qed.

Lemma arr_get_run h a segs : mem h !! a = Some (HArr segs) -> arr_get a h = Some (segs, h).
Proof. intros Ha. unfold arr_get. rewrite bind_run. unfold load. rewrite Ha. reflexivity. Qed.

Lemma existsb_key_false (k : string) (acc : PathsV) :
  k ∉ map fst acc -> existsb (fun e => String.eqb e.1 k) acc = false.
Proof.
  induction acc as [|[k' s] acc IH]; intros Hn; [reflexivity|]. cbn [existsb fst].
  destruct (String.eqb_spec k' k) as [->|Hne]; [exfalso; apply Hn; left|].
  apply IH. intros Hin. apply Hn. right. exact Hin.
Qed.

Lemma serialize_entries_spec h es : forall V acc,
  read_entries (mem h) es = Some V -> NoDup (map fst es) ->
  (forall k, k ∈ map fst V -> k ∉ map fst acc) ->
  exists pl, serialize_entries es h = Some (pl, h) /\
    fold_left deserialize_entry pl (Some acc) = Some (acc ++ clone V).
Proof.
  induction es as [|[k a] es IH]; intros V acc HV Hnd Hfresh.
  - cbn in HV. injection HV as <-. exists []. split; [reflexivity|]. cbn. by rewrite app_nil_r.
  - cbn [read_entries] in HV.
    destruct (mem h !! a) as [[es'|segs]|] eqn:Ha; try discriminate.
    destruct (read_entries (mem h) es) as [V'|] eqn:HV'; [|discriminate].
    injection HV as <-. cbn [map] in Hnd. apply NoDup_cons in Hnd as [Hk Hnd].
    pose proof (read_entries_keys _ _ _ HV') as Hkeys.
    cbn [serialize_entries]. rewrite bind_run, (arr_get_run h a segs Ha).
    destruct segs as [|sg segs].
    + destruct (IH V' acc eq_refl Hnd) as (pl & Hrun & Hfold).
      { intros k' Hin. apply Hfresh. right. exact Hin. }
      exists pl. rewrite bind_run, Hrun. split; [reflexivity|]. rewrite Hfold. reflexivity.
    + destruct (IH V' (acc ++ [(k, sg :: segs)]) eq_refl Hnd) as (pl & Hrun & Hfold).
      { intros k' Hin. rewrite map_app, elem_of_app. cbn [map fst]. intros [Hacc|Hs].
        - apply (Hfresh k'); [right; exact Hin|exact Hacc].
        - apply list_elem_of_singleton in Hs as ->. apply Hk. rewrite <- Hkeys. exact Hin. }
      exists ((k, map serialize_segment (sg :: segs)) :: pl).
      rewrite bind_run, Hrun. split; [reflexivity|].
      cbn [fold_left]. unfold deserialize_entry at 2. cbn [fst snd].
      rewrite deserialize_serialize_segments. unfold obj_assign.
      rewrite existsb_key_false by (apply Hfresh; left).
      refine (eq_trans Hfold _). cbn [clone List.filter fst snd]. rewrite <- app_assoc. reflexivity.
Qed.

(** The payload of a Path Store: what [serializePaths] returns. *)
Lemma serializePaths_spec h o V :
  store_at h o V ->
  exists pl, serializePaths o h = Some (pl, h) /\ deserializePaths pl = Some (clone V).
Proof.
  intros (es & Hes & Hnd & HV).
  destruct (serialize_entries_spec h es V [] HV Hnd) as (pl & Hrun & Hfold).
  { intros k _ Hin. inversion Hin. }
  exists pl. unfold serializePaths. rewrite bind_run. unfold obj_entries. rewrite bind_run.
  unfold load. rewrite Hes. cbn beta iota. split; [exact Hrun|]. exact Hfold.
Qed.

End PayloadFacts.

(** ** The callers of commit *)

Module GameFacts.
Import DragCommit StoreValue CommitSpec Payload GameScreen HeapFacts ValueFacts.

Lemma map_fst_vset c s V : map fst (vset c s V) = map fst V.
Proof.
  unfold vset. rewrite map_map. apply map_ext. intros [k s']. cbn. by destruct (String.eqb k c).
Qed.

Lemma remove_where_nodup_canonical p V : keys_nodup V -> canonical (remove_where p V).
Proof.
  intros Hk. unfold remove_where. apply CommitFacts.clone_canonical.
  unfold keys_nodup. rewrite map_map. cbn. exact Hk.
Qed.

Lemma append_segment_canonical c sg V : canonical V -> canonical (append_segment c sg V).
Proof.
  intros [Hk Hne]. unfold append_segment. destruct (vget c V) as [s|] eqn:Eg.
  - split; [unfold keys_nodup; by rewrite map_fst_vset|].
    unfold vset. apply Forall_map. eapply Forall_impl; [exact Hne|].
    intros [k s'] Hs. cbn. destruct (String.eqb k c); cbn; [|exact Hs].
    destruct s; discriminate.
  - apply vget_none in Eg. split.
    + unfold keys_nodup. rewrite map_app. cbn. apply NoDup_app. split; [exact Hk|].
      split; [|apply NoDup_singleton]. intros k Hin Hs. apply list_elem_of_singleton in Hs as ->.
      exact (Eg Hin).
    + apply Forall_app. split; [exact Hne|]. apply Forall_singleton. discriminate.
Qed.

Lemma canonical_keys V : canonical V -> keys_nodup V.
Proof. by intros [Hk _]. Qed.

Lemma commit_path_canonical V session dots areas seed n :
  keys_nodup V -> canonical (commit_path V session dots areas seed n).
Proof.
  intros Hk. unfold commit_path. cbv zeta. apply append_segment_canonical, remove_where_nodup_canonical.
  repeat first
    [ apply canonical_keys, remove_where_nodup_canonical
    | apply canonical_keys, CommitFacts.clone_canonical
    | match goal with |- keys_nodup (match ?x with _ => _ end) => destruct x end ];
    exact Hk.
Qed.

End GameFacts.

Module UpdateFacts.
Import GestureController.

(** A path whose consecutive cells are one unit step apart. *)
Local Abbreviation chained p :=
  (forall (j : nat) (c1 c2 : Cell), p !! j = Some c1 -> p !! S j = Some c2 ->
     (Z.abs (x c1 - x c2) + Z.abs (y c1 - y c2))%Z = 1%Z).

Local Abbreviation path_inv c0 p := (p !! 0%nat = Some c0 /\ NoDup p /\ chained p).

Lemma cell_eta c : mkCell (x c) (y c) = c.
Proof. by destruct c. Qed.

Lemma findIndex_none p c : findIndex p c = None -> c ∉ p.
Proof.
  induction p as [|c' p IH]; cbn [findIndex]; intros H Hin.
  - by apply not_elem_of_nil in Hin.
  - unfold same_xy in H. case_bool_decide as Hs; [discriminate|].
    destruct (findIndex p c) eqn:E; [discriminate|].
    apply elem_of_cons in Hin as [->|Hin]; [by apply Hs|exact (IH eq_refl Hin)].
Qed.

Lemma lastCell_lookup p : p <> [] -> p !! (length p - 1)%nat = Some (lastCell p).
Proof.
  unfold lastCell. induction p as [|a p IH]; intros Hne; [done|].
  destruct p as [|b p]; [reflexivity|].
  replace (length (a :: b :: p) - 1)%nat with (S (length (b :: p) - 1)) by (cbn; lia).
  change ((a :: b :: p) !! S (length (b :: p) - 1)) with ((b :: p) !! (length (b :: p) - 1)%nat).
  rewrite IH by done. reflexivity.
Qed.

Lemma inv_snoc c0 p c :
  path_inv c0 p -> c ∉ p ->
  (Z.abs (x (lastCell p) - x c) + Z.abs (y (lastCell p) - y c))%Z = 1%Z ->
  path_inv c0 (p ++ [c]).
Proof.
  intros (H0 & Hnd & Hch) Hn Hadj.
  assert (Hne : p <> []) by (intros ->; discriminate).
  assert (Hlen : (1 <= length p)%nat) by (destruct p; [done|cbn; lia]).
  split; [by apply lookup_app_l_Some|]. split.
  - apply NoDup_app. split; [done|]. split; [|apply NoDup_singleton].
    intros z Hz Hzc. apply list_elem_of_singleton in Hzc. subst. contradiction.
  - intros j c1 c2 H1 H2.
    assert (Hj : (S j < length (p ++ [c]))%nat) by (eapply lookup_lt_Some; eauto).
    rewrite length_app in Hj. cbn [length] in Hj.
    destruct (decide (S j < length p)%nat) as [Hlt|Hge].
    + rewrite lookup_app_l in H1 by lia. rewrite lookup_app_l in H2 by lia. eauto.
    + assert (j = length p - 1)%nat by lia. subst j.
      rewrite lookup_app_l in H1 by lia. rewrite lastCell_lookup in H1 by done.
      injection H1 as <-. rewrite lookup_app_r in H2 by lia.
      replace (S (length p - 1) - length p)%nat with 0%nat in H2 by lia.
      cbn in H2. injection H2 as <-. exact Hadj.
Qed.

Lemma inv_take c0 p k : path_inv c0 p -> path_inv c0 (firstn (k + 1) p).
Proof.
  intros (H0 & Hnd & Hch). split; [rewrite lookup_take_lt by lia; exact H0|]. split.
  - eapply sublist_NoDup; [exact Hnd|apply sublist_take].
  - intros j c1 c2 H1 H2.
    assert (Hj : (S j < length (take (k + 1) p))%nat) by (eapply lookup_lt_Some; eauto).
    rewrite length_take in Hj.
    rewrite lookup_take_lt in H1 by lia. rewrite lookup_take_lt in H2 by lia. eauto.
Qed.

Lemma inv_removelast c0 p : (2 <= length p)%nat -> path_inv c0 p -> path_inv c0 (removelast p).
Proof.
  intros Hlen. assert (Hne : p <> []) by (intros ->; cbn in Hlen; lia).
  assert (Hp := app_removelast_last (mkCell 0 0) Hne). revert Hp Hlen.
  generalize (removelast p) (List.last p (mkCell 0 0)). intros q z -> Hlen.
  rewrite length_app in Hlen. cbn [length] in Hlen.
  intros (H0 & Hnd & Hch). split; [rewrite lookup_app_l in H0 by lia; exact H0|]. split.
  - apply NoDup_app in Hnd as [Hq _]. exact Hq.
  - intros j c1 c2 H1 H2. apply (Hch j); apply lookup_app_l_Some; assumption.
Qed.

Lemma step_adjacent ax current d :
  d <> 0 ->
  (Z.abs (x current - x (stepCell ax current (Z.sgn d))) +
   Z.abs (y current - y (stepCell ax current (Z.sgn d))))%Z = 1%Z.
Proof.
  intros Hd. destruct (Z.lt_trichotomy d 0) as [H|[H|H]]; [|contradiction|].
  - rewrite (Z.sgn_neg d H). destruct ax; cbn; lia.
  - rewrite (Z.sgn_pos d H). destruct ax; cbn; lia.
Qed.

(** A step that keeps the loop state's path, and a step that changes it. *)
Local Ltac keep Hinv :=
  cbn [lpath lpathChanged lhasMoved];
  split; [exact Hinv|split; [intros Hf; split; [reflexivity|exact Hf]|intros Hm; exact Hm]].

Local Ltac changed :=
  cbn [lpath lpathChanged lhasMoved];
  split; [|split; [discriminate|try (intros Hm; exact Hm); reflexivity]].

Lemma step_body_inv openSet dots col ax target st c0 :
  path_inv c0 (lpath st) ->
  match step_body openSet dots col ax target st with
  | Continue st' | Break st' =>
      path_inv c0 (lpath st') /\
      (lpathChanged st' = false -> lpath st' = lpath st /\ lpathChanged st = false) /\
      (lhasMoved st = true -> lhasMoved st' = true)
  end.
Proof.
  intros Hinv. unfold step_body. cbv zeta.
  set (p := lpath st) in *.
  set (d := target - coord ax (lastCell p)).
  set (next := stepCell ax (lastCell p) (Z.sgn d)).
  destruct (Z.eqb d 0) eqn:Ed; [keep Hinv|].
  apply Z.eqb_neq in Ed. pose proof (step_adjacent ax (lastCell p) d Ed) as Hadj. fold next in Hadj.
  destruct (match prevCell p with Some prev => same_xy prev next | None => false end) eqn:Eb.
  { changed. apply inv_removelast; [|exact Hinv].
    destruct (prevCell p) eqn:Ep; [|discriminate]. unfold prevCell in Ep.
    destruct (Nat.leb 2 (length p)) eqn:El; [apply Nat.leb_le in El; exact El|discriminate]. }
  destruct (llocked st); [keep Hinv|].
  destruct (negb (openSet _)); [keep Hinv|].
  destruct (findIndex p next) as [k|] eqn:Ef; [changed; by apply inv_take|].
  apply findIndex_none in Ef.
  destruct (truthy _ && negb _); [keep Hinv|].
  destruct (truthy _ && str_is _ _); changed; rewrite cell_eta; by apply inv_snoc.
Qed.

Lemma step_loop_inv fuel openSet dots col ax target c0 : forall st,
  path_inv c0 (lpath st) ->
  let st' := step_loop fuel openSet dots col ax target st in
  path_inv c0 (lpath st') /\
  (lpathChanged st' = false -> lpath st' = lpath st /\ lpathChanged st = false) /\
  (lhasMoved st = true -> lhasMoved st' = true).
Proof.
  induction fuel as [|fuel IH]; intros st Hinv; cbn [step_loop].
  - split; [exact Hinv|split; [intros Hf; split; [reflexivity|exact Hf]|intros Hm; exact Hm]].
  - destruct (Z.ltb (guard st) 256).
    2: split; [exact Hinv|split; [intros Hf; split; [reflexivity|exact Hf]|intros Hm; exact Hm]].
    pose proof (step_body_inv openSet dots col ax target st c0 Hinv) as Hb.
    destruct (step_body openSet dots col ax target st) as [st1|st1]; [|exact Hb].
    destruct Hb as (Hi & Hc & Hm). destruct (IH st1 Hi) as (Hi' & Hc' & Hm').
    split; [exact Hi'|]. split; [|auto].
    intros Hf. destruct (Hc' Hf) as [Heq Hf1]. rewrite Heq. exact (Hc Hf1).
Qed.

Lemma update_stepping_inv fit ob openSet dots session lx ly c0 :
  path_inv c0 (path session) ->
  let st := (update_stepping fit ob openSet dots session lx ly).1.2 in
  path_inv c0 (lpath st) /\
  (lpathChanged st = false -> lpath st = path session) /\
  (hasMoved session = true -> lhasMoved st = true).
Proof.
  intros Hinv. unfold update_stepping. cbv zeta.
  destruct (resolveAxis _ _ _ _ _ _); cbn [fst snd].
  - match goal with |- context [step_loop 256 ?o ?dd ?c ?a ?t ?s] =>
      destruct (step_loop_inv 256 o dd c a t c0 s Hinv) as (Hi & Hc & Hm) end.
    split; [exact Hi|]. split; [intros Hf; exact (proj1 (Hc Hf))|exact Hm].
  - cbn [lpath lpathChanged lhasMoved].
    split; [exact Hinv|]. split; [intros _; reflexivity|intros Hm; exact Hm].
Qed.

End UpdateFacts.

Module PickupFacts.
Import GestureController StoreValue HeapFacts.

Lemma map_cell_copy (l : list Cell) : map (fun c => mkCell (x c) (y c)) l = l.
Proof. induction l as [|c l IH]; [reflexivity|]. cbn. rewrite IH. by destruct c. Qed.

Lemma last_default_irrel {A} (l : list A) (d d' : A) : l <> [] -> List.last l d = List.last l d'.
Proof.
  induction l as [|a l IH]; intros Hne; [done|]. destruct l as [|b l]; [reflexivity|].
  cbn [List.last]. apply IH. discriminate.
Qed.

Lemma take_last_lookup (cs : list Cell) i :
  (i < length cs)%nat -> last (firstn (i + 1) cs) = cs !! i.
Proof.
  intros Hi. rewrite last_lookup, length_take.
  replace (pred (Nat.min (i + 1) (length cs))) with i by lia.
  apply lookup_take_lt. lia.
Qed.

Lemma rev_drop_last_lookup (cs : list Cell) i : last (rev (skipn i cs)) = cs !! i.
Proof.
  rewrite rev_alt. change (rev_append (drop i cs) []) with (reverse (drop i cs)).
  rewrite last_reverse, head_lookup, lookup_drop. f_equal. lia.
Qed.

(** The pickup path ends on the picked cell. *)
Lemma buildPickupPath_last s i col dots :
  (i < length (cells s))%nat -> last (buildPickupPath s i col dots) = cells s !! i.
Proof.
  intros Hi. unfold buildPickupPath. destruct (cells s) as [|l0 rest]; [cbn in Hi; lia|].
  cbv zeta. rewrite map_cell_copy.
  match goal with |- context [if ?b then firstn _ _ else _] => destruct b end;
    [apply take_last_lookup, Hi|apply rev_drop_last_lookup].
Qed.

Lemma find_cell_some cs px py n j :
  find_cell cs px py n = Some j ->
  (n <= j)%nat /\ exists c, cs !! (j - n)%nat = Some c /\ x c = px /\ y c = py.
Proof.
  revert n. induction cs as [|c cs IH]; intros n H; cbn [find_cell] in H; [discriminate|].
  unfold same_cell in H. case_bool_decide as Hs.
  - injection H as <-. split; [lia|]. exists c. replace (n - n)%nat with 0%nat by lia. by split.
  - destruct (IH (S n) H) as (Hle & c' & Hc' & Hx & Hy). split; [lia|]. exists c'.
    replace (j - n)%nat with (S (j - S n)) by lia. by split.
Qed.

Lemma find_cell_none cs px py n :
  find_cell cs px py n = None -> forall c, c ∈ cs -> ~ (x c = px /\ y c = py).
Proof.
  revert n. induction cs as [|c cs IH]; intros n H c' Hin; [by apply not_elem_of_nil in Hin|].
  cbn [find_cell] in H. unfold same_cell in H. case_bool_decide as Hs; [discriminate|].
  apply elem_of_cons in Hin as [->|Hin]; [exact Hs|exact (IH (S n) H c' Hin)].
Qed.

Lemma find_in_segments_some segs px py s i :
  find_in_segments segs px py = Some (s, i) ->
  s ∈ segs /\ exists c, cells s !! i = Some c /\ x c = px /\ y c = py.
Proof.
  induction segs as [|sg segs IH]; intros H; cbn [find_in_segments] in H; [discriminate|].
  destruct (find_cell (cells sg) px py 0) as [j|] eqn:E.
  - injection H as <- <-. split; [left|].
    destruct (find_cell_some _ _ _ _ _ E) as (_ & c & Hc & Hx & Hy). exists c.
    rewrite Nat.sub_0_r in Hc. by split.
  - destruct (IH H) as [Hin Hc]. split; [right; exact Hin|exact Hc].
Qed.

Lemma find_in_segments_none segs px py :
  find_in_segments segs px py = None ->
  forall s c, s ∈ segs -> c ∈ cells s -> ~ (x c = px /\ y c = py).
Proof.
  induction segs as [|sg segs IH]; intros H s c Hs Hc; [by apply not_elem_of_nil in Hs|].
  cbn [find_in_segments] in H. destruct (find_cell (cells sg) px py 0) eqn:E; [discriminate|].
  apply elem_of_cons in Hs as [->|Hs]; [exact (find_cell_none _ _ _ _ E c Hc)|].
  exact (IH H s c Hs Hc).
Qed.

Lemma find_in_entries_some es px py h k s i h' :
  find_in_entries es px py h = Some (Some (k, s, i), h') ->
  exists c, cells s !! i = Some c /\ x c = px /\ y c = py.
Proof.
  revert h. induction es as [|[k' a] es IH]; intros h H; cbn [find_in_entries] in H.
  - discriminate.
  - rewrite bind_run in H. destruct (arr_get a h) as [[segs h1]|]; [|discriminate].
    destruct (find_in_segments segs px py) as [[sg j]|] eqn:E.
    + injection H as <- <- <- _. exact (proj2 (find_in_segments_some _ _ _ _ _ E)).
    + exact (IH h1 H).
Qed.

Lemma findSegmentAt_some o px py h k s i h' :
  findSegmentAt o px py h = Some (Some (k, s, i), h') ->
  exists c, cells s !! i = Some c /\ x c = px /\ y c = py.
Proof.
  unfold findSegmentAt. rewrite bind_run. destruct (obj_entries o h) as [[es h1]|]; [|discriminate].
  apply find_in_entries_some.
Qed.

Lemma find_in_entries_spec h es V px py :
  read_entries (mem h) es = Some V ->
  exists r, find_in_entries es px py h = Some (r, h) /\
  match r with
  | Some (k, s, i) =>
      (exists segs, (k, segs) ∈ V /\ s ∈ segs) /\
      exists c, cells s !! i = Some c /\ x c = px /\ y c = py
  | None => forall k segs s c, (k, segs) ∈ V -> s ∈ segs -> c ∈ cells s -> ~ (x c = px /\ y c = py)
  end.
Proof.
  revert V. induction es as [|[k a] es IH]; intros V HV; cbn [read_entries] in HV.
  - injection HV as <-. exists None. split; [reflexivity|].
    intros k segs s c Hin. by apply not_elem_of_nil in Hin.
  - destruct (mem h !! a) as [[|segs]|] eqn:Ea; try discriminate.
    destruct (read_entries (mem h) es) as [V'|] eqn:E; [|discriminate]. injection HV as <-.
    cbn [find_in_entries]. rewrite bind_run, (PayloadFacts.arr_get_run h a segs Ea).
    destruct (find_in_segments segs px py) as [[sg j]|] eqn:Ef.
    + eexists. split; [reflexivity|]. destruct (find_in_segments_some _ _ _ _ _ Ef) as [Hin Hc].
      split; [exists segs; split; [left|exact Hin]|exact Hc].
    + destruct (IH V' eq_refl) as (r & Hr & Hspec). exists r. split; [exact Hr|].
      destruct r as [[[k' sg] j]|]; [destruct Hspec as [(segs' & Hin & Hs) Hc];
        split; [exists segs'; split; [right; exact Hin|exact Hs]|exact Hc]|].
      intros k' segs' s c Hin. apply elem_of_cons in Hin as [Heq|Hin].
      * injection Heq as -> ->. exact (find_in_segments_none _ _ _ Ef s c).
      * exact (Hspec k' segs' s c Hin).
Qed.

End PickupFacts.

Module RemovalFacts.
Import StoreValue CommitSpec ValueFacts.

Lemma clone_keys_sub k V : k ∈ map fst (clone V) -> k ∈ map fst V.
Proof.
  unfold clone. intros Hin. apply list_elem_of_In in Hin. apply list_elem_of_In.
  apply in_map_iff in Hin as ([k' s'] & <- & Hin'). apply filter_In in Hin' as [Hin' _].
  apply in_map_iff. exists (k', s'). split; [reflexivity|exact Hin'].
Qed.

(** Looking a color up in the clone finds no hit exactly when looking it up
    in the store finds none. *)
Lemma vget_clone_hit (f : Segment -> bool) col V :
  keys_nodup V ->
  match vget col (clone V) with Some s => existsb f s | None => false end =
  match vget col V with Some s => existsb f s | None => false end.
Proof.
  induction V as [|[k s] V IH]; intros Hk; [reflexivity|].
  unfold keys_nodup in Hk. cbn [map fst] in Hk. apply NoDup_cons in Hk as [Hn Hk].
  unfold clone. cbn [List.filter fst snd]. fold (clone V).
  case_bool_decide as Hs; cbn [negb vget].
  - subst s. destruct (String.eqb_spec k col) as [->|Hne]; [|exact (IH Hk)].
    assert (Hnone : vget col (clone V) = None).
    { apply vget_none. intros Hin. apply Hn. exact (clone_keys_sub col V Hin). }
    rewrite Hnone. reflexivity.
  - destruct (String.eqb k col); [reflexivity|exact (IH Hk)].
Qed.

End RemovalFacts.

Module TipFacts.
Import GestureController GestureMath Tip.
Local Open Scope Q_scope.

Lemma sign_cases q :
  (sign q = 1%Z /\ 0 < q) \/ (sign q = (-1)%Z /\ q < 0) \/ (sign q = 0%Z /\ q == 0).
Proof.
  unfold sign. pose proof (Qle_bool_iff q 0) as H1. pose proof (Qle_bool_iff 0 q) as H2.
  destruct (Qle_bool q 0) eqn:E1; destruct (Qle_bool 0 q) eqn:E2; cbn [negb].
  - right; right. split; [reflexivity|]. apply Qle_antisym; [apply H1|apply H2]; reflexivity.
  - right; left. split; [reflexivity|]. apply Qnot_le_lt. intros H. apply H2 in H. discriminate.
  - left. split; [reflexivity|]. apply Qnot_le_lt. intros H. apply H1 in H. discriminate.
  - left. split; [reflexivity|]. apply Qnot_le_lt. intros H. apply H1 in H. discriminate.
Qed.

Lemma tip_scan_beyond openSet dots ax last d A size fuel : forall step l,
  (1 <= step)%Z -> tip_scan openSet dots ax last d A size fuel step = Some l ->
  exists k, (1 <= k)%Z /\
    (l = A + inject_Z d * (inject_Z k - (1#2)) * size \/ l = A + inject_Z d * inject_Z k * size).
Proof.
  induction fuel as [|fuel IH]; intros step l Hs H; cbn [tip_scan] in H; [discriminate|].
  destruct (negb (openSet _)); [injection H as <-; exists step; auto|].
  destruct (truthy _); [injection H as <-; exists step; auto|].
  destruct (IH (step + 1)%Z l ltac:(lia) H) as (k & Hk & Hl). exists k. split; [lia|exact Hl].
Qed.

Lemma one_le_inject k : (1 <= k)%Z -> 1 <= inject_Z k.
Proof. intros Hk. change 1 with (inject_Z 1). rewrite <- Zle_Qle. exact Hk. Qed.

(** The limit of the tip lies strictly beyond the anchor in the direction
    of the move. *)
Lemma limit_beyond openSet dots ax last d A size m :
  (d = 1 \/ d = -1)%Z -> 0 < size -> (1 <= m)%Z ->
  0 < inject_Z d *
      ((if Qeq_bool (match tip_scan openSet dots ax last d A size (Z.to_nat m) 1 with
                     | Some l => l | None => A end) A
        then A + inject_Z d * (inject_Z m - (1#2)) * size
        else match tip_scan openSet dots ax last d A size (Z.to_nat m) 1 with
             | Some l => l | None => A end) - A).
Proof.
  intros Hd Hs Hm.
  assert (Hd2 : inject_Z d * inject_Z d == 1) by (destruct Hd as [-> | ->]; reflexivity).
  assert (Hgen : forall P R, 0 < P * R -> 0 < inject_Z d * ((A + inject_Z d * P * R) - A)).
  { intros P R HP.
    setoid_replace (inject_Z d * ((A + inject_Z d * P * R) - A)) with
      ((inject_Z d * inject_Z d) * (P * R)) using relation Qeq by ring.
    rewrite Hd2. lra. }
  assert (HP1 : forall k, (1 <= k)%Z -> 0 < (inject_Z k - (1#2)) * size).
  { intros k Hk. apply Qmult_lt_0_compat; [|exact Hs]. pose proof (one_le_inject k Hk). lra. }
  assert (HP2 : forall k, (1 <= k)%Z -> 0 < inject_Z k * size).
  { intros k Hk. apply Qmult_lt_0_compat; [|exact Hs]. pose proof (one_le_inject k Hk). lra. }
  destruct (tip_scan openSet dots ax last d A size (Z.to_nat m) 1) as [l|] eqn:Es.
  - destruct (tip_scan_beyond _ _ _ _ _ _ _ _ 1 l ltac:(lia) Es) as (k & Hk & [-> | ->]);
      destruct (Qeq_bool _ A); apply Hgen; auto.
  - rewrite (proj2 (Qeq_bool_iff A A) (Qeq_refl A)). apply Hgen, HP1, Hm.
Qed.

End TipFacts.

(** * Further properties of the code *)

Module Extras.

Section Math.
Import GestureMath.
Local Open Scope Q_scope.

(** With [min <= max], [clampValue] lands in [[min, max]], leaves a value
    already there unchanged, and clamping twice is clamping once. *)
Theorem clampValue_spec v lo hi :
  lo <= hi ->
  lo <= clampValue v lo hi <= hi /\
  (lo <= v <= hi -> clampValue v lo hi == v) /\
  clampValue (clampValue v lo hi) lo hi == clampValue v lo hi.
Proof.
  intros Hle. unfold clampValue.
  assert (Hb : forall w, lo <= Qmin hi (Qmax lo w) <= hi).
  { intros w. split.
    - apply Q.min_glb; [exact Hle|apply Q.le_max_l].
    - apply Q.le_min_l. }
  assert (Hid : forall w, lo <= w <= hi -> Qmin hi (Qmax lo w) == w).
  { intros w [H1 H2]. rewrite (Q.max_r lo w H1). apply Q.min_r, H2. }
  split; [apply Hb|]. split; [apply Hid|]. apply Hid, Hb.
Qed.

Lemma clampValue_spec_witness :
  0 <= 10 /\
  0 <= clampValue 12 0 10 <= 10 /\
  (0 <= 12 <= 10 -> clampValue 12 0 10 == 12) /\
  clampValue (clampValue 12 0 10) 0 10 == clampValue 12 0 10.
Proof.
  split; [vm_compute; discriminate|].
  apply clampValue_spec. vm_compute. discriminate.
Defined.

End Math.

Section Serialization.
Import DragCommit StoreValue CommitSpec Payload GameScreen HeapFacts PayloadFacts GameFacts.

(** Decoding a flattened path ([stopDrawing]'s loop, [deserializePaths]'s
    cell loop) gives the path back: [unflatten (flattenPath p) = Some p],
    and the flat list has two numbers per cell. *)
Theorem flattenPath_roundtrip p :
  unflatten (flattenPath p) = Some p /\ length (flattenPath p) = (2 * length p)%nat.
Proof. split; [apply unflatten_flatten|apply length_flattenPath]. Qed.

(** [serializePaths] only reads the heap, and [deserializePaths] of its
    payload is the Path Store with the colors that have no segments left
    out, every other color with its segments in order. *)
Theorem serialize_deserialize h o V :
  store_at h o V ->
  exists pl, serializePaths o h = Some (pl, h) /\ deserializePaths pl = Some (clone V).
Proof.
  intros Hst. destruct (serializePaths_spec h o V Hst) as (pl & Hrun & Hde). eauto.
Qed.

Lemma serialize_deserialize_witness :
  store_at Scenarios.red_heap 0 Scenarios.red_store /\
  exists pl, serializePaths 0 Scenarios.red_heap = Some (pl, Scenarios.red_heap) /\
    deserializePaths pl = Some (clone Scenarios.red_store).
Proof.
  split; [exact WitnessFacts.red_store_at|].
  apply serialize_deserialize. exact WitnessFacts.red_store_at.
Defined.

(** At the end of a drag of a truthy color over a path of two or more cells,
    [stopDrawing]'s worklet commits the path with [hasMoved = true]: the new
    shared Path Store is [commit_path] of the old one, the counter goes up
    by one, and the payload sent to the JS thread decodes to exactly that new
    Path Store. *)
Theorem stopDrawing_commits h P V mutated col p dots areas seed n :
  heap_wf h -> store_at h P V -> truthy (Some col) = true -> (2 <= length p)%nat ->
  exists h' pl,
    stopDrawing P mutated (Some col) (flattenPath p) dots areas seed n h =
      Some ((top h, n + 1, (pl, true)), h') /\
    store_at h' (top h) (commit_path V (mkSession col p None false true) dots areas seed n) /\
    deserializePaths pl = Some (commit_path V (mkSession col p None false true) dots areas seed n).
Proof.
  intros Hwf Hst Htr Hlen.
  set (session := mkSession col p None false true).
  destruct (CommitFacts.commit_path_spec h P V session dots areas seed n Hwf Hst Hlen)
    as (h' & Hrun & Hst' & _).
  destruct (serializePaths_spec h' (top h) _ Hst') as (pl & Hser & Hde).
  exists h', pl. split; [|split; [exact Hst'|]].
  - unfold stopDrawing. cbv zeta. rewrite Htr, length_flattenPath, unflatten_flatten.
    replace (Nat.ltb (2 * length p) 4) with false by (symmetry; apply Nat.ltb_ge; lia).
    replace (Nat.ltb 1 (length p)) with true by (symmetry; apply Nat.ltb_lt; lia).
    cbn [negb orb default]. cbn [Datatypes.id]. rewrite bind_run. fold session. rewrite Hrun.
    cbn [didChange paths nextSegmentId]. rewrite (bind_run (serializePaths (top h)) _ h'), Hser. reflexivity.
  - rewrite Hde. f_equal. apply StartFacts.clone_canonical_id, commit_path_canonical.
    destruct Hst as (es & _ & Hnd & HV). unfold keys_nodup.
    by rewrite (HeapFacts.read_entries_keys _ _ _ HV).
Qed.

Lemma stopDrawing_commits_witness :
  heap_wf Scenarios.red_heap /\ store_at Scenarios.red_heap 0 Scenarios.red_store /\
  truthy (Some "red"%string) = true /\ (2 <= length [mkCell 1 0; mkCell 1 1])%nat /\
  exists h' pl,
    stopDrawing 0 0 (Some "red"%string) (flattenPath [mkCell 1 0; mkCell 1 1])
      Scenarios.red_dot_00 Scenarios.no_areas 1 0 Scenarios.red_heap =
      Some ((top Scenarios.red_heap, 0 + 1, (pl, true)), h') /\
    store_at h' (top Scenarios.red_heap)
      (commit_path Scenarios.red_store (mkSession "red" [mkCell 1 0; mkCell 1 1] None false true)
         Scenarios.red_dot_00 Scenarios.no_areas 1 0) /\
    deserializePaths pl =
      Some (commit_path Scenarios.red_store (mkSession "red" [mkCell 1 0; mkCell 1 1] None false true)
              Scenarios.red_dot_00 Scenarios.no_areas 1 0).
Proof.
  split; [exact WitnessFacts.red_heap_wf|]. split; [exact WitnessFacts.red_store_at|].
  split; [reflexivity|]. split; [simpl; lia|].
  apply stopDrawing_commits;
    [exact WitnessFacts.red_heap_wf | exact WitnessFacts.red_store_at | reflexivity | simpl; lia].
Defined.

(** When the drag has no truthy color or fewer than two cells (fewer than
    four numbers in [previewCells]), [stopDrawing]'s worklet commits
    nothing: the heap, the shared Path Store and the counter are unchanged,
    and the JS thread receives the current Path Store (decoding to its
    clone) if [pathsMutated] is 1, and no change otherwise. *)
Theorem stopDrawing_no_commit h P V mutated col flat dots areas seed n :
  store_at h P V -> truthy col = false \/ (length flat < 4)%nat ->
  exists msg,
    stopDrawing P mutated col flat dots areas seed n h = Some ((P, n, msg), h) /\
    (mutated = 1 -> msg.2 = true /\ deserializePaths msg.1 = Some (clone V)) /\
    (mutated <> 1 -> msg = ([], false)).
Proof.
  intros Hst Hcase.
  assert (Hg : negb (truthy col) || Nat.ltb (length flat) 4 = true).
  { destruct Hcase as [H|H]; [rewrite H; reflexivity|].
    apply orb_true_iff. right. apply Nat.ltb_lt. exact H. }
  unfold stopDrawing. cbv zeta. rewrite Hg.
  destruct (Z.eqb_spec mutated 1) as [Hm|Hm].
  - destruct (serializePaths_spec h P V Hst) as (pl & Hser & Hde).
    exists (pl, true). rewrite bind_run, Hser. split; [reflexivity|].
    split; [intros _; split; [reflexivity|exact Hde]|]. intros H. contradiction.
  - exists ([], false). split; [reflexivity|]. split; [intros H; contradiction|]. reflexivity.
Qed.

Lemma stopDrawing_no_commit_witness :
  store_at Scenarios.red_heap 0 Scenarios.red_store /\
  (truthy (Some "red"%string) = false \/ (length (flattenPath [mkCell 0 0]) < 4)%nat) /\
  exists msg,
    stopDrawing 0 1 (Some "red"%string) (flattenPath [mkCell 0 0]) Scenarios.red_dot_00
      Scenarios.no_areas 1 0 Scenarios.red_heap = Some ((0%nat, 0, msg), Scenarios.red_heap) /\
    (1 = 1 -> msg.2 = true /\ deserializePaths msg.1 = Some (clone Scenarios.red_store)) /\
    (1 <> 1 -> msg = ([], false)).
Proof.
  split; [exact WitnessFacts.red_store_at|]. split; [right; simpl; lia|].
  apply stopDrawing_no_commit; [exact WitnessFacts.red_store_at | right; simpl; lia].
Defined.

(** A tap on a dot cell runs [commitDragWorklet] with a one-cell session
    that has not moved. If some segment of the Path Store ends at the tapped
    cell, the worklet publishes a new store without those segments, keeps the
    counter, and sends a payload decoding to that store; otherwise it keeps
    the shared store and counter and sends no change. In both cases the old
    Path Store object is left untouched. *)
Theorem tapWorklet_spec h P V tx ty col dots areas seed n :
  heap_wf h -> store_at h P V ->
  exists res h',
    tapWorklet P tx ty col dots areas seed n h = Some (res, h') /\ store_at h' P V /\
    (truthy (dots (cellKey tx ty)) &&
       existsb (fun e => existsb (ends_at (mkCell tx ty)) e.2) V = true ->
     exists pl, res = (top h, n, (pl, true)) /\
       store_at h' (top h) (remove_where (fun _ sg => ends_at (mkCell tx ty) sg) V) /\
       deserializePaths pl = Some (remove_where (fun _ sg => ends_at (mkCell tx ty) sg) V)) /\
    (truthy (dots (cellKey tx ty)) &&
       existsb (fun e => existsb (ends_at (mkCell tx ty)) e.2) V = false ->
     res = (P, n, ([], false))).
Proof.
  intros Hwf Hst.
  set (session := mkSession col [mkCell tx ty] None false false).
  destruct (CommitFacts.commit_spec h P V session dots areas seed n Hwf Hst)
    as (r & h' & Hrun & Hst' & Hdc & Hns & Hkeep & Hnew & Hwf' & Hag).
  assert (HP : store_at h' P V) by exact (CommitFacts.store_at_agree h h' P V Hwf Hst Hag).
  assert (Hk : keys_nodup V).
  { destruct Hst as (es & _ & Hnd & HV). unfold keys_nodup.
    by rewrite (HeapFacts.read_entries_keys _ _ _ HV). }
  unfold commit_value in Hst', Hdc, Hns. cbn [path hasMoved session x y] in Hst', Hdc, Hns.
  cbn [negb] in Hst', Hdc, Hns.
  unfold tapWorklet. rewrite bind_run. fold session. rewrite Hrun.
  destruct (truthy (dots (cellKey tx ty))) eqn:Ed; cbn [andb].
  - destruct (existsb (fun e => existsb (ends_at (mkCell tx ty)) e.2) V) eqn:Ee;
      cbn [fst snd] in Hst', Hdc, Hns.
    + rewrite Hdc. rewrite (Hnew Hdc) in Hst' |- *.
      destruct (serializePaths_spec h' (top h) _ Hst') as (pl & Hser & Hde).
      rewrite (bind_run (serializePaths (top h)) _ h'), Hser.
      eexists; exists h'. split; [reflexivity|]. split; [exact HP|]. split; [|discriminate].
      intros _. exists pl. split; [by rewrite Hns|]. split; [exact Hst'|].
      rewrite Hde. f_equal. by apply StartFacts.clone_canonical_id, remove_where_nodup_canonical.
    + rewrite Hdc. eexists; exists h'. split; [reflexivity|]. split; [exact HP|].
      split; [discriminate|]. reflexivity.
  - cbn [fst snd] in Hst', Hdc, Hns. rewrite Hdc. eexists; exists h'. split; [reflexivity|].
    split; [exact HP|]. split; [discriminate|]. reflexivity.
Qed.

Lemma tapWorklet_spec_witness :
  heap_wf Scenarios.red_heap /\ store_at Scenarios.red_heap 0 Scenarios.red_store /\
  exists res h',
    tapWorklet 0 0 0 "red" Scenarios.red_dot_00 Scenarios.no_areas 1 0 Scenarios.red_heap =
      Some (res, h') /\ store_at h' 0 Scenarios.red_store /\
    (truthy (Scenarios.red_dot_00 (cellKey 0 0)) &&
       existsb (fun e => existsb (ends_at (mkCell 0 0)) e.2) Scenarios.red_store = true ->
     exists pl, res = (top Scenarios.red_heap, 0, (pl, true)) /\
       store_at h' (top Scenarios.red_heap)
         (remove_where (fun _ sg => ends_at (mkCell 0 0) sg) Scenarios.red_store) /\
       deserializePaths pl =
         Some (remove_where (fun _ sg => ends_at (mkCell 0 0) sg) Scenarios.red_store)) /\
    (truthy (Scenarios.red_dot_00 (cellKey 0 0)) &&
       existsb (fun e => existsb (ends_at (mkCell 0 0)) e.2) Scenarios.red_store = false ->
     res = (0%nat, 0, ([], false))).
Proof.
  split; [exact WitnessFacts.red_heap_wf|]. split; [exact WitnessFacts.red_store_at|].
  apply tapWorklet_spec; [exact WitnessFacts.red_heap_wf | exact WitnessFacts.red_store_at].
Defined.

End Serialization.

Section Update.
Import GestureController.

(** A path whose consecutive cells are one unit step apart. *)
Local Abbreviation chained p :=
  (forall (j : nat) (c1 c2 : Cell), p !! j = Some c1 -> p !! S j = Some c2 ->
     (Z.abs (x c1 - x c2) + Z.abs (y c1 - y c2))%Z = 1%Z).

(** [updateDragSession] keeps the shape of a drag path: if the path starts
    at [c0], has no repeated cell and moves one unit step at a time, the
    updated path still starts at [c0], still has no repeated cell and still
    moves one unit step at a time. When [pathChanged] is false the path is
    the old one. The color is kept, [hasMoved] never goes back to false, and
    a locked session ends on a dot of its color with at least two cells. *)
Theorem updateDragSession_path_invariant fit ob openSet dots session lx ly c0 :
  path session !! 0%nat = Some c0 -> NoDup (path session) -> chained (path session) ->
  let r := updateDragSession fit ob openSet dots session lx ly in
  let p' := path (usession r) in
  p' !! 0%nat = Some c0 /\ NoDup p' /\ chained p' /\
  (pathChanged r = false -> p' = path session) /\
  color (usession r) = color session /\
  (hasMoved session = true -> hasMoved (usession r) = true) /\
  (locked (usession r) = true ->
     str_is (dots (cellKey (x (lastCell p')) (y (lastCell p')))) (color session) = true /\
     (2 <= length p')%nat).
Proof.
  intros H0 Hnd Hch.
  pose proof (UpdateFacts.update_stepping_inv fit ob openSet dots session lx ly c0
                (conj H0 (conj Hnd Hch))) as Hs.
  destruct (update_stepping fit ob openSet dots session lx ly) as [[ax st] dd] eqn:Eu.
  cbn [fst snd] in Hs. destruct Hs as ((Hi0 & Hind & Hich) & Hc & Hm).
  unfold updateDragSession. rewrite Eu.
  destruct (path session) as [|c p] eqn:Ep; [discriminate H0|].
  cbv zeta. cbn [usession path pathChanged color hasMoved locked].
  split; [exact Hi0|]. split; [exact Hind|]. split; [exact Hich|].
  split; [exact Hc|]. split; [reflexivity|]. split; [exact Hm|].
  assert (Hl1 : (1 <= length (lpath st))%nat)
    by (apply lookup_lt_Some in Hi0; lia).
  destruct (negb (truthy _) || negb (str_is _ _) || Nat.eqb _ 1) eqn:Ec; [discriminate|].
  intros _. apply orb_false_iff in Ec as [Ec E1]. apply orb_false_iff in Ec as [_ Ed].
  apply negb_false_iff in Ed. apply Nat.eqb_neq in E1. split; [exact Ed|lia].
Qed.

Lemma updateDragSession_path_invariant_witness :
  path Scenarios.red_drag !! 0%nat = Some (mkCell 0 0) /\ NoDup (path Scenarios.red_drag) /\
  chained (path Scenarios.red_drag) /\
  let r := updateDragSession 1 Scenarios.board5 Scenarios.open_all Scenarios.red_dot_00
             Scenarios.red_drag (1#2) (7#2) in
  let p' := path (usession r) in
  p' !! 0%nat = Some (mkCell 0 0) /\ NoDup p' /\ chained p' /\
  (pathChanged r = false -> p' = path Scenarios.red_drag) /\
  color (usession r) = color Scenarios.red_drag /\
  (hasMoved Scenarios.red_drag = true -> hasMoved (usession r) = true) /\
  (locked (usession r) = true ->
     str_is (Scenarios.red_dot_00 (cellKey (x (lastCell p')) (y (lastCell p'))))
       (color Scenarios.red_drag) = true /\ (2 <= length p')%nat).
Proof.
  assert (Hnd : NoDup (path Scenarios.red_drag)).
  { cbn. constructor; [|apply NoDup_singleton].
    intros H. apply list_elem_of_singleton in H. discriminate. }
  assert (Hch : chained (path Scenarios.red_drag)).
  { intros [|[|j]] c1 c2 H1 H2; cbn in H1, H2; try discriminate.
    injection H1 as <-. injection H2 as <-. reflexivity. }
  split; [reflexivity|]. split; [exact Hnd|]. split; [exact Hch|].
  exact (updateDragSession_path_invariant 1 Scenarios.board5 Scenarios.open_all
           Scenarios.red_dot_00 Scenarios.red_drag (1#2) (7#2) (mkCell 0 0) eq_refl Hnd Hch).
Defined.

End Update.

Section Pickup.
Import GestureController StoreValue PickupFacts.

(** [resolveAxis] follows a move along a single line: when the candidate
    cell differs from the last cell in [x] only, the axis is [x], and when it
    differs in [y] only, the axis is [y], whatever the axis before and the
    pointer deltas. It returns no axis exactly when there was none and the
    candidate cell is the last cell. *)
Theorem resolveAxis_single_line axis0 deltaX deltaY last pointerCell (pointerInOpen : bool) :
  let cand := if pointerInOpen then pointerCell else last in
  let r := resolveAxis axis0 deltaX deltaY last pointerCell pointerInOpen in
  (y cand = y last -> x cand <> x last -> r = Some AxisX) /\
  (x cand = x last -> y cand <> y last -> r = Some AxisY) /\
  (r = None <-> axis0 = None /\ x cand = x last /\ y cand = y last).
Proof.
  cbv zeta. unfold resolveAxis. cbv zeta.
  set (cand := if pointerInOpen then pointerCell else last). unfold same_xy.
  destruct (Z.eqb_spec (x cand) (x last)) as [Ex|Ex];
  destruct (Z.eqb_spec (y cand) (y last)) as [Ey|Ey];
  [rewrite bool_decide_true by tauto|rewrite bool_decide_false by tauto ..];
  destruct axis0 as [[|]|]; cbn [negb andb orb];
  repeat match goal with |- context [Qle_bool ?a ?b] => destruct (Qle_bool a b) end;
  intuition congruence.
Qed.

(** [buildPickupPath] at an index inside the segment runs from one end of
    the segment to the picked cell, which is its last cell. When exactly one
    end of the segment is a dot of the color, that end's side is taken;
    otherwise the longer side is taken. *)
Theorem buildPickupPath_spec s i col dots :
  (i < length (cells s))%nat ->
  let cs := cells s in
  let r := buildPickupPath s i col dots in
  let leftDot := str_is (dots (cellKey (x (hd (mkCell 0 0) cs)) (y (hd (mkCell 0 0) cs)))) col in
  let rightDot :=
    str_is (dots (cellKey (x (List.last cs (mkCell 0 0))) (y (List.last cs (mkCell 0 0))))) col in
  last r = cs !! i /\
  (r = firstn (i + 1) cs \/ r = rev (skipn i cs)) /\
  (leftDot = true -> rightDot = false -> r = firstn (i + 1) cs) /\
  (rightDot = true -> leftDot = false -> r = rev (skipn i cs)) /\
  (leftDot = rightDot -> length r = Nat.max (i + 1) (length cs - i)).
Proof.
  intros Hi. cbv zeta. rewrite (buildPickupPath_last s i col dots Hi). split; [reflexivity|].
  unfold buildPickupPath. destruct (cells s) as [|l0 rest] eqn:Ec; [cbn in Hi; lia|].
  cbv zeta. rewrite map_cell_copy. cbn [hd].
  rewrite (last_default_irrel (l0 :: rest) l0 (mkCell 0 0)) by discriminate.
  set (cs := l0 :: rest) in *.
  destruct (str_is (dots (cellKey (x l0) (y l0))) col);
  destruct (str_is (dots (cellKey (x (List.last cs (mkCell 0 0))) (y (List.last cs (mkCell 0 0))))) col).
  all: cbn [andb negb].
  all: try destruct (Nat.leb_spec (length cs - i) (i + 1)) as [Hle|Hgt].
  all: split; [first [left; reflexivity | right; reflexivity]|].
  all: split; [intros; first [reflexivity | discriminate]|].
  all: split; [intros; first [reflexivity | discriminate]|].
  all: intros; first [discriminate | rewrite ?length_rev, ?length_drop, ?length_take; lia].
Qed.

Lemma buildPickupPath_spec_witness :
  (1 < length (cells Scenarios.red_column))%nat /\
  let cs := cells Scenarios.red_column in
  let r := buildPickupPath Scenarios.red_column 1 "red" Scenarios.red_dot_00 in
  let leftDot := str_is (Scenarios.red_dot_00
                   (cellKey (x (hd (mkCell 0 0) cs)) (y (hd (mkCell 0 0) cs)))) "red" in
  let rightDot :=
    str_is (Scenarios.red_dot_00
      (cellKey (x (List.last cs (mkCell 0 0))) (y (List.last cs (mkCell 0 0))))) "red" in
  last r = cs !! 1%nat /\
  (r = firstn (1 + 1) cs \/ r = rev (skipn 1 cs)) /\
  (leftDot = true -> rightDot = false -> r = firstn (1 + 1) cs) /\
  (rightDot = true -> leftDot = false -> r = rev (skipn 1 cs)) /\
  (leftDot = rightDot -> length r = Nat.max (1 + 1) (length cs - 1)).
Proof.
  split; [cbn; lia|].
  apply (buildPickupPath_spec Scenarios.red_column 1 "red" Scenarios.red_dot_00). cbn; lia.
Defined.

(** [findSegmentAt] reads the Path Store without changing the heap. A hit
    [(color, segment, index)] names a segment of that color in the store
    whose cell at [index] is the probed cell; no hit means that no segment
    of the store has a cell there. *)
Theorem findSegmentAt_spec h o V px py :
  store_at h o V ->
  exists r, findSegmentAt o px py h = Some (r, h) /\
  match r with
  | Some (k, s, i) =>
      (exists segs, (k, segs) ∈ V /\ s ∈ segs) /\
      exists c, cells s !! i = Some c /\ x c = px /\ y c = py
  | None => forall k segs s c, (k, segs) ∈ V -> s ∈ segs -> c ∈ cells s -> ~ (x c = px /\ y c = py)
  end.
Proof.
  intros (es & Ho & _ & HV). unfold findSegmentAt, obj_entries, load.
  rewrite !HeapFacts.bind_run, Ho. cbn. exact (find_in_entries_spec h es V px py HV).
Qed.

Lemma findSegmentAt_spec_witness :
  store_at Scenarios.red_heap 0 Scenarios.red_store /\
  exists r, findSegmentAt 0 0 2 Scenarios.red_heap = Some (r, Scenarios.red_heap) /\
  match r with
  | Some (k, s, i) =>
      (exists segs, (k, segs) ∈ Scenarios.red_store /\ s ∈ segs) /\
      exists c, cells s !! i = Some c /\ x c = 0 /\ y c = 2
  | None => forall k segs s c, (k, segs) ∈ Scenarios.red_store -> s ∈ segs -> c ∈ cells s ->
              ~ (x c = 0 /\ y c = 2)
  end.
Proof.
  split; [exact WitnessFacts.red_store_at|].
  exact (findSegmentAt_spec Scenarios.red_heap 0 Scenarios.red_store 0 2 WitnessFacts.red_store_at).
Defined.

(** A session returned by [startDragSession] starts on an open cell, ends
    on the start cell, has no axis, is not locked and has not moved; its
    color is not empty and, when the start cell is a dot, is the dot's color. *)
Theorem startDragSession_session openSet dots areas sh start h session sh' h' :
  startDragSession openSet dots areas sh start h = Some ((Some session, sh'), h') ->
  openSet (cellKey (x start) (y start)) = true /\
  last (path session) = Some start /\
  axis session = None /\ locked session = false /\ hasMoved session = false /\
  truthy (Some (color session)) = true /\
  (forall d, dots (cellKey (x start) (y start)) = Some d -> color session = d).
Proof.
  unfold startDragSession. cbv zeta.
  destruct (openSet (cellKey (x start) (y start))) eqn:Eo; cbn [negb]; [|discriminate].
  rewrite HeapFacts.bind_run.
  match goal with |- match ?X with Some _ => _ | None => _ end = _ -> _ =>
    destruct X as [[[paths1 sh1] h1]|]; [|discriminate] end.
  cbn iota beta. rewrite HeapFacts.bind_run.
  destruct (findSegmentAt paths1 (x start) (y start) h1) as [[hit h2]|] eqn:Ef; [|discriminate].
  pose proof (fun k s i => findSegmentAt_some paths1 (x start) (y start) h1 k s i h2) as Hf.
  destruct (dots (cellKey (x start) (y start))) as [d|] eqn:Ed;
    destruct hit as [[[hc s] i]|]; cbn [option_map fst snd].
  all: destruct (truthy _) eqn:Et; cbn [negb]; intros H; rewrite HeapFacts.ret_run in H;
    [injection H as <- _ _|discriminate H].
  all: cbn [path axis locked hasMoved color].
  all: try (cbn in Et; discriminate Et).
  all: split; [reflexivity|].
  all: split; [|split; [reflexivity|split; [reflexivity|split; [reflexivity|split; [exact Et|]]]]].
  all: try (intros d0 Hd0; first [discriminate Hd0 | injection Hd0 as <-; reflexivity]).
  all: try (destruct (String.eqb _ _)).
  all: try (cbn [last]; rewrite UpdateFacts.cell_eta; reflexivity).
  all: destruct (Hf _ _ _ Ef) as (c & Hc & Hx & Hy).
  all: rewrite buildPickupPath_last by (eapply lookup_lt_Some; exact Hc).
  all: rewrite Hc; f_equal; destruct c, start; cbn in *; congruence.
Qed.

Lemma startDragSession_session_witness :
  startDragSession Scenarios.open_all Scenarios.red_dot_00 Scenarios.no_areas (mkShared 0 0)
    (mkCell 0 1) Scenarios.red_heap =
    Some ((Some (mkSession "red" [mkCell 0 0; mkCell 0 1] None false false), mkShared 0 0),
          Scenarios.red_heap) /\
  let session := mkSession "red" [mkCell 0 0; mkCell 0 1] None false false in
  Scenarios.open_all (cellKey (x (mkCell 0 1)) (y (mkCell 0 1))) = true /\
  last (path session) = Some (mkCell 0 1) /\
  axis session = None /\ locked session = false /\ hasMoved session = false /\
  truthy (Some (color session)) = true /\
  (forall d, Scenarios.red_dot_00 (cellKey (x (mkCell 0 1)) (y (mkCell 0 1))) = Some d ->
     color session = d).
Proof.
  assert (Hrun : startDragSession Scenarios.open_all Scenarios.red_dot_00 Scenarios.no_areas
                   (mkShared 0 0) (mkCell 0 1) Scenarios.red_heap =
    Some ((Some (mkSession "red" [mkCell 0 0; mkCell 0 1] None false false), mkShared 0 0),
          Scenarios.red_heap)) by (vm_compute; reflexivity).
  split; [exact Hrun|].
  exact (startDragSession_session _ _ _ _ _ _ _ _ _ Hrun).
Defined.

End Pickup.

Section Removal.
Import DragCommit StoreValue CommitSpec GestureController.

(** [removeSegmentsWithEndpoint(paths, key, true)] builds a new Path Store
    at a fresh location: the input store without the segments whose first
    or last cell has the key. Its flag tells whether the input store had such
    a segment, and the input store object is left as it was. *)
Theorem removeSegmentsWithEndpoint_copy h P V key :
  heap_wf h -> store_at h P V ->
  exists h',
    removeSegmentsWithEndpoint P key true h =
      Some ((top h, existsb (fun e => existsb (endpoint_test (fun k => key_eqb k key)) e.2) V), h') /\
    store_at h' (top h) (remove_where (fun _ sg => endpoint_test (fun k => key_eqb k key) sg) V) /\
    store_at h' P V.
Proof.
  intros Hwf Hst.
  destruct (SpliceFacts.gc_endpoint_spec h P V key Hwf Hst)
    as (h' & es' & Hrun & (_ & Ho & Hnd & _ & _) & Hre & _ & Hag & _).
  rewrite CommitFacts.existsb_clone in Hrun. rewrite CommitFacts.remove_where_clone in Hre.
  exists h'. split; [exact Hrun|]. split; [exists es'; split; [exact Ho|split; [exact Hnd|exact Hre]]|].
  exact (CommitFacts.store_at_agree h h' P V Hwf Hst Hag).
Qed.

Lemma removeSegmentsWithEndpoint_copy_witness :
  heap_wf Scenarios.red_heap /\ store_at Scenarios.red_heap 0 Scenarios.red_store /\
  exists h',
    removeSegmentsWithEndpoint 0 (cellKey 0 3) true Scenarios.red_heap =
      Some ((top Scenarios.red_heap,
             existsb (fun e => existsb (endpoint_test (fun k => key_eqb k (cellKey 0 3))) e.2)
               Scenarios.red_store), h') /\
    store_at h' (top Scenarios.red_heap)
      (remove_where (fun _ sg => endpoint_test (fun k => key_eqb k (cellKey 0 3)) sg)
         Scenarios.red_store) /\
    store_at h' 0 Scenarios.red_store.
Proof.
  split; [exact WitnessFacts.red_heap_wf|]. split; [exact WitnessFacts.red_store_at|].
  apply removeSegmentsWithEndpoint_copy; [exact WitnessFacts.red_heap_wf|exact WitnessFacts.red_store_at].
Defined.

(** [removeSegmentsWithColorInArea(paths, color, areaId, areaByKey, true)]
    builds a new Path Store at a fresh location: the input store without the
    segments of that color whose first or last cell lies in the area, other
    colors untouched. Its flag tells whether the input store had such a
    segment, and the input store object is left as it was. *)
Theorem removeSegmentsWithColorInArea_copy h P V col aid areas :
  heap_wf h -> store_at h P V ->
  exists h',
    removeSegmentsWithColorInArea P col aid areas true h =
      Some ((top h, match vget col V with
                    | Some s => existsb (endpoint_test (in_area areas aid)) s
                    | None => false end), h') /\
    store_at h' (top h)
      (remove_where (fun k sg => String.eqb k col && endpoint_test (in_area areas aid) sg) V) /\
    store_at h' P V.
Proof.
  intros Hwf Hst.
  assert (Hk : keys_nodup V).
  { pose proof Hst as (es & _ & Hnd0 & HV). unfold keys_nodup.
    by rewrite (HeapFacts.read_entries_keys _ _ _ HV). }
  destruct (SpliceFacts.gc_area_clone_spec h P V col aid areas Hwf Hst)
    as (h' & es' & Hrun & (_ & Ho & Hnd & _ & _) & Hre & _ & Hag).
  rewrite RemovalFacts.vget_clone_hit in Hrun by exact Hk.
  rewrite CommitFacts.remove_where_clone in Hre.
  exists h'. split; [exact Hrun|]. split; [exists es'; split; [exact Ho|split; [exact Hnd|exact Hre]]|].
  exact (CommitFacts.store_at_agree h h' P V Hwf Hst Hag).
Qed.

Lemma removeSegmentsWithColorInArea_copy_witness :
  heap_wf Scenarios.red_heap /\ store_at Scenarios.red_heap 0 Scenarios.red_store /\
  (match vget "red" Scenarios.red_store with
   | Some s => existsb (endpoint_test (in_area Scenarios.area1_at_00 1)) s
   | None => false end) = true /\
  remove_where (fun k sg => String.eqb k "red" &&
                  endpoint_test (in_area Scenarios.area1_at_00 1) sg) Scenarios.red_store = [] /\
  exists h',
    removeSegmentsWithColorInArea 0 "red" 1 Scenarios.area1_at_00 true Scenarios.red_heap =
      Some ((top Scenarios.red_heap, match vget "red" Scenarios.red_store with
                    | Some s => existsb (endpoint_test (in_area Scenarios.area1_at_00 1)) s
                    | None => false end), h') /\
    store_at h' (top Scenarios.red_heap)
      (remove_where (fun k sg => String.eqb k "red" &&
                       endpoint_test (in_area Scenarios.area1_at_00 1) sg) Scenarios.red_store) /\
    store_at h' 0 Scenarios.red_store.
Proof.
  split; [exact WitnessFacts.red_heap_wf|]. split; [exact WitnessFacts.red_store_at|].
  split; [vm_compute; reflexivity|]. split; [vm_compute; reflexivity|].
  apply removeSegmentsWithColorInArea_copy;
    [exact WitnessFacts.red_heap_wf|exact WitnessFacts.red_store_at].
Defined.

(** [clonePaths] allocates a new Path Store object holding the input's
    value without the colors that have no segments. Every array of the copy
    is freshly allocated, at or above the old heap top and distinct from the
    others, so the copy shares no array with the input. The input store is
    left as it was. *)
Theorem clonePaths_copy h P V :
  heap_wf h -> store_at h P V ->
  exists h' es',
    clonePaths P h = Some (top h, h') /\
    mem h' !! top h = Some (HObj es') /\ read_entries (mem h') es' = Some (clone V) /\
    NoDup (map fst es') /\ NoDup (map snd es') /\ Forall (fun e => (top h <= e.2)%nat) es' /\
    store_at h' P V.
Proof.
  intros Hwf Hst. pose proof Hst as (es & Hes & Hnd & HV).
  destruct (HeapFacts.clone_spec h P es V Hwf Hes Hnd HV)
    as (h' & es' & Hrun & (_ & Ho & Hnd' & Hsnd & Hfresh) & Hre & _ & Hag & _).
  exists h', es'. split; [exact Hrun|]. split; [exact Ho|]. split; [exact Hre|].
  split; [exact Hnd'|]. split; [exact Hsnd|]. split; [exact Hfresh|].
  exact (CommitFacts.store_at_agree h h' P V Hwf Hst Hag).
Qed.

Lemma clonePaths_copy_witness :
  heap_wf Scenarios.red_heap /\ store_at Scenarios.red_heap 0 Scenarios.red_store /\
  exists h' es',
    clonePaths 0 Scenarios.red_heap = Some (top Scenarios.red_heap, h') /\
    mem h' !! top Scenarios.red_heap = Some (HObj es') /\
    read_entries (mem h') es' = Some (clone Scenarios.red_store) /\
    NoDup (map fst es') /\ NoDup (map snd es') /\
    Forall (fun e => (top Scenarios.red_heap <= e.2)%nat) es' /\
    store_at h' 0 Scenarios.red_store.
Proof.
  split; [exact WitnessFacts.red_heap_wf|]. split; [exact WitnessFacts.red_store_at|].
  apply clonePaths_copy; [exact WitnessFacts.red_heap_wf|exact WitnessFacts.red_store_at].
Defined.

End Removal.

Section Tips.
Import GestureController GestureMath Tip TipFacts.
Local Open Scope Q_scope.

(** With the last cell inside the open bounds, the tip drawn by
    [computeTip] stays on the line of the axis through the last cell's
    center and lies between that center and the clamped pointer
    coordinate: it never overshoots the pointer or falls behind the path. *)
Theorem computeTip_between fit ob openSet dots ax lx ly last :
  (minX ob <= x last <= maxX ob)%Z -> (minY ob <= y last <= maxY ob)%Z ->
  let size := if negb (Qle_bool fit 0) then fit else 1 in
  let anchor := cellCenter last size in
  let target :=
    match ax with
    | AxisX => clampQ lx (inject_Z (minX ob) * size) (inject_Z (maxX ob + 1) * size)
    | AxisY => clampQ ly (inject_Z (minY ob) * size) (inject_Z (maxY ob + 1) * size)
    end in
  let tip := computeTip fit ob openSet dots (Some ax) lx ly last in
  match ax with
  | AxisX => tip.2 == anchor.2 /\ Qmin anchor.1 target <= tip.1 <= Qmax anchor.1 target
  | AxisY => tip.1 == anchor.1 /\ Qmin anchor.2 target <= tip.2 <= Qmax anchor.2 target
  end.
Proof.
  intros Hx Hy. cbv zeta. unfold computeTip. cbv zeta.
  set (size := if negb (Qle_bool fit 0) then fit else 1).
  assert (Hs : 0 < size).
  { unfold size. destruct (Qle_bool fit 0) eqn:E; cbn [negb]; [reflexivity|].
    apply Qnot_le_lt. intros H. apply Qle_bool_iff in H. congruence. }
  set (A := cellCenter last size).
  destruct ax; [set (T := clampQ lx _ _); set (a := A.1)|set (T := clampQ ly _ _); set (a := A.2)];
    destruct (sign_cases (T - a)) as [[Hd Hp]|[[Hd Hp]|[Hd Hp]]]; rewrite Hd;
    cbv [Z.eqb Z.gtb Z.compare Pos.compare]; cbn [fst snd]; (split; [reflexivity|]).
  all: try (split; [apply Q.le_min_l|apply Q.le_max_l]).
  all: clearbody a T size A.
  all: match goal with
       | |- Qmin ?a ?T <= Qmin ?T ?L <= Qmax ?a ?T =>
           assert (HL : 0 < inject_Z 1 * (L - a)) by (apply limit_beyond; [left; reflexivity|exact Hs|lia]);
           set (LL := L) in *; clearbody LL; change (inject_Z 1) with 1 in HL;
           rewrite (Q.min_l a T) by lra; rewrite (Q.max_r a T) by lra;
           split; [apply Q.min_glb; lra|apply Q.le_min_l]
       | |- Qmin ?a ?T <= Qmax ?T ?L <= Qmax ?a ?T =>
           assert (HL : 0 < inject_Z (-1) * (L - a)) by (apply limit_beyond; [right; reflexivity|exact Hs|lia]);
           set (LL := L) in *; clearbody LL; change (inject_Z (-1)) with (-1) in HL;
           rewrite (Q.min_r a T) by lra; rewrite (Q.max_l a T) by lra;
           split; [apply Q.le_max_l|apply Q.max_lub; lra]
       end.
Qed.

Lemma computeTip_between_witness :
  (minX Scenarios.board5 <= x (mkCell 1 0) <= maxX Scenarios.board5)%Z /\
  (minY Scenarios.board5 <= y (mkCell 1 0) <= maxY Scenarios.board5)%Z /\
  let size := if negb (Qle_bool 1 0) then 1 else 1 in
  let anchor := cellCenter (mkCell 1 0) size in
  let target := clampQ (7#2) (inject_Z (minX Scenarios.board5) * size)
                  (inject_Z (maxX Scenarios.board5 + 1) * size) in
  let tip := computeTip 1 Scenarios.board5 Scenarios.open_all Scenarios.no_dots (Some AxisX)
               (7#2) (1#2) (mkCell 1 0) in
  tip.2 == anchor.2 /\ Qmin anchor.1 target <= tip.1 <= Qmax anchor.1 target.
Proof.
  split; [cbn; lia|]. split; [cbn; lia|].
  exact (computeTip_between 1 Scenarios.board5 Scenarios.open_all Scenarios.no_dots AxisX
           (7#2) (1#2) (mkCell 1 0) ltac:(cbn; lia) ltac:(cbn; lia)).
Defined.

End Tips.

End Extras.
